(** * Grid pathfinding engine (game/systems/pathfinding.cpp)

    A shallow embedding of the [Pathfinding] class: the obstacle grid with
    its dirty flag and rebuild pass, the generation-stamped scratch store,
    the binary-heap open list, the A* search with its iteration budget, the
    path reconstruction, the blocking facade and the result queue.

    Conventions.
    - C++ [int] values are carried as [Z].  Signed overflow is undefined in
      C++; the quantities involved (coordinates, cell indices, g-costs,
      f-costs) are bounded by the grid size, so no wrap-around is written
      for them.  The 32-bit unsigned generation counter does wrap, and its
      wrap-around is explicit.
    - [std::vector] is a [list], read with [!!] and written with [<[_:=_]>].
      Every indexed access of the scratch store is range-checked in the
      source and the check is kept.
    - The mutexes, the condition variable and the worker thread are not
      modelled: each member function is the sequential state transformer
      that runs while the lock is held.
    - The two singletons consulted by the rebuild pass (terrain service and
      building registry) are passed explicitly as an [Env]. *)

From Stdlib Require Import ZArith Lia Bool List.
From Stdlib Require Import Floats.SpecFloat.
From stdpp Require Import base list list_numbers.

Local Open Scope Z_scope.

(** ** Data model *)

Definition UINT32_MOD : Z := 2 ^ 32.
Definition INT_MAX : Z := 2 ^ 31 - 1.

(** C++ [float] values; no arithmetic on them is performed here. *)
Definition float : Type := spec_float.

Record Point : Type := mkPoint { px : Z; py : Z }.

Record QueueNode : Type := mkNode { index : Z; fCost : Z; gCost : Z }.

Record PathRequest : Type :=
  mkRequest { req_id : Z; req_start : Point; req_end : Point }.

Record PathResult : Type :=
  mkResult { request_id : Z; path : list Point }.

Record Pathfinding : Type := mkPathfinding {
  m_width : Z;
  m_height : Z;
  m_obstacles : list (list Z);
  m_obstaclesDirty : bool;
  m_gridOffsetX : float;
  m_gridOffsetZ : float;
  m_closedGeneration : list Z;
  m_gCostGeneration : list Z;
  m_gCostValues : list Z;
  m_parentGeneration : list Z;
  m_parentValues : list Z;
  m_generationCounter : Z;
  m_openHeap : list QueueNode;
  m_requestQueue : list PathRequest;
  m_resultQueue : list PathResult
}.

#[global] Instance Point_eq_dec : EqDecision Point.
Proof. solve_decision. Defined.

(** Field updates. *)

Definition with_obstacles (g : list (list Z)) (pf : Pathfinding) : Pathfinding :=
  mkPathfinding (m_width pf) (m_height pf) g (m_obstaclesDirty pf)
    (m_gridOffsetX pf) (m_gridOffsetZ pf)
    (m_closedGeneration pf) (m_gCostGeneration pf) (m_gCostValues pf)
    (m_parentGeneration pf) (m_parentValues pf) (m_generationCounter pf)
    (m_openHeap pf) (m_requestQueue pf) (m_resultQueue pf).

Definition with_dirty (b : bool) (pf : Pathfinding) : Pathfinding :=
  mkPathfinding (m_width pf) (m_height pf) (m_obstacles pf) b
    (m_gridOffsetX pf) (m_gridOffsetZ pf)
    (m_closedGeneration pf) (m_gCostGeneration pf) (m_gCostValues pf)
    (m_parentGeneration pf) (m_parentValues pf) (m_generationCounter pf)
    (m_openHeap pf) (m_requestQueue pf) (m_resultQueue pf).

Definition with_gridOffset (ox oz : float) (pf : Pathfinding) : Pathfinding :=
  mkPathfinding (m_width pf) (m_height pf) (m_obstacles pf) (m_obstaclesDirty pf)
    ox oz
    (m_closedGeneration pf) (m_gCostGeneration pf) (m_gCostValues pf)
    (m_parentGeneration pf) (m_parentValues pf) (m_generationCounter pf)
    (m_openHeap pf) (m_requestQueue pf) (m_resultQueue pf).

Definition with_closed (cg : list Z) (pf : Pathfinding) : Pathfinding :=
  mkPathfinding (m_width pf) (m_height pf) (m_obstacles pf) (m_obstaclesDirty pf)
    (m_gridOffsetX pf) (m_gridOffsetZ pf)
    cg (m_gCostGeneration pf) (m_gCostValues pf)
    (m_parentGeneration pf) (m_parentValues pf) (m_generationCounter pf)
    (m_openHeap pf) (m_requestQueue pf) (m_resultQueue pf).

Definition with_gCost (gg gv : list Z) (pf : Pathfinding) : Pathfinding :=
  mkPathfinding (m_width pf) (m_height pf) (m_obstacles pf) (m_obstaclesDirty pf)
    (m_gridOffsetX pf) (m_gridOffsetZ pf)
    (m_closedGeneration pf) gg gv
    (m_parentGeneration pf) (m_parentValues pf) (m_generationCounter pf)
    (m_openHeap pf) (m_requestQueue pf) (m_resultQueue pf).

Definition with_parent (pg pv : list Z) (pf : Pathfinding) : Pathfinding :=
  mkPathfinding (m_width pf) (m_height pf) (m_obstacles pf) (m_obstaclesDirty pf)
    (m_gridOffsetX pf) (m_gridOffsetZ pf)
    (m_closedGeneration pf) (m_gCostGeneration pf) (m_gCostValues pf)
    pg pv (m_generationCounter pf)
    (m_openHeap pf) (m_requestQueue pf) (m_resultQueue pf).

Definition with_counter (c : Z) (pf : Pathfinding) : Pathfinding :=
  mkPathfinding (m_width pf) (m_height pf) (m_obstacles pf) (m_obstaclesDirty pf)
    (m_gridOffsetX pf) (m_gridOffsetZ pf)
    (m_closedGeneration pf) (m_gCostGeneration pf) (m_gCostValues pf)
    (m_parentGeneration pf) (m_parentValues pf) c
    (m_openHeap pf) (m_requestQueue pf) (m_resultQueue pf).

Definition with_openHeap (h : list QueueNode) (pf : Pathfinding) : Pathfinding :=
  mkPathfinding (m_width pf) (m_height pf) (m_obstacles pf) (m_obstaclesDirty pf)
    (m_gridOffsetX pf) (m_gridOffsetZ pf)
    (m_closedGeneration pf) (m_gCostGeneration pf) (m_gCostValues pf)
    (m_parentGeneration pf) (m_parentValues pf) (m_generationCounter pf)
    h (m_requestQueue pf) (m_resultQueue pf).

Definition with_requestQueue (q : list PathRequest) (pf : Pathfinding) : Pathfinding :=
  mkPathfinding (m_width pf) (m_height pf) (m_obstacles pf) (m_obstaclesDirty pf)
    (m_gridOffsetX pf) (m_gridOffsetZ pf)
    (m_closedGeneration pf) (m_gCostGeneration pf) (m_gCostValues pf)
    (m_parentGeneration pf) (m_parentValues pf) (m_generationCounter pf)
    (m_openHeap pf) q (m_resultQueue pf).

Definition with_resultQueue (q : list PathResult) (pf : Pathfinding) : Pathfinding :=
  mkPathfinding (m_width pf) (m_height pf) (m_obstacles pf) (m_obstaclesDirty pf)
    (m_gridOffsetX pf) (m_gridOffsetZ pf)
    (m_closedGeneration pf) (m_gCostGeneration pf) (m_gCostValues pf)
    (m_parentGeneration pf) (m_parentValues pf) (m_generationCounter pf)
    (m_openHeap pf) (m_requestQueue pf) q.

(** ** Vector access *)

(** [v[i]] for an index already known to be in range; the default is only
    met out of range, which the callers exclude. *)
Definition vec_get (v : list Z) (i : Z) : Z :=
  default 0 (v !! Z.to_nat i).

Definition vec_set {A} (v : list A) (i : Z) (a : A) : list A :=
  <[Z.to_nat i := a]> v.

(** [index >= 0 && static_cast<size_t>(index) < v.size()] *)
Definition in_vec {A} (i : Z) (v : list A) : bool :=
  (0 <=? i) && (i <? Z.of_nat (length v)).

(** ** Obstacle grid *)

(** [m_obstacles[y][x]] *)
Definition obstacle_at (g : list (list Z)) (x y : Z) : Z :=
  vec_get (default [] (g !! Z.to_nat y)) x.

(** [m_obstacles[y][x] = v] *)
Definition obstacle_set (g : list (list Z)) (x y : Z) (v : Z) : list (list Z) :=
  alter (fun row => vec_set row x v) (Z.to_nat y) g.

Definition in_grid (pf : Pathfinding) (x y : Z) : bool :=
  (0 <=? x) && (x <? m_width pf) && (0 <=? y) && (y <? m_height pf).

Definition setGridOffset (pf : Pathfinding) (offset_x offset_z : float) : Pathfinding :=
  with_gridOffset offset_x offset_z pf.

Definition setObstacle (pf : Pathfinding) (x y : Z) (isObstacle : bool) : Pathfinding :=
  if (0 <=? x) && (x <? m_width pf) && (0 <=? y) && (y <? m_height pf)
  then with_obstacles (obstacle_set (m_obstacles pf) x y (if isObstacle then 1 else 0)) pf
  else pf.

Definition isWalkable (pf : Pathfinding) (x y : Z) : bool :=
  if (x <? 0) || (x >=? m_width pf) || (y <? 0) || (y >=? m_height pf)
  then false
  else obstacle_at (m_obstacles pf) x y =? 0.

Definition markObstaclesDirty (pf : Pathfinding) : Pathfinding :=
  with_dirty true pf.

(** Modelled from the spec: [toIndex] is declared inline in pathfinding.h,
    which is not among the sources; the scratch arrays are "indexed by
    flattened cell index", row by row. *)
Definition toIndex (pf : Pathfinding) (p : Point) : Z :=
  py p * m_width pf + px p.

(** Modelled from the spec: [toPoint], also inline in pathfinding.h, is the
    inverse of [toIndex] on the cells of the grid; [%] and [/] on [int]
    truncate towards zero. *)
Definition toPoint (pf : Pathfinding) (i : Z) : Point :=
  mkPoint (Z.rem i (m_width pf)) (Z.quot i (m_width pf)).

(** ** Generation-stamped scratch store *)

Definition total_cells (pf : Pathfinding) : nat :=
  Z.to_nat (m_width pf) * Z.to_nat (m_height pf).

(** The reservation of heap capacity has no observable effect and is left
    out. *)
Definition ensureWorkingBuffers (pf : Pathfinding) : Pathfinding :=
  if Nat.eqb (length (m_closedGeneration pf)) (total_cells pf) then pf
  else
    let n := total_cells pf in
    with_parent (replicate n 0) (replicate n (-1))
      (with_gCost (replicate n 0) (replicate n INT_MAX)
         (with_closed (replicate n 0) pf)).

Definition resetGenerations (pf : Pathfinding) : Pathfinding :=
  let fill0 (v : list Z) := replicate (length v) 0 in
  with_counter 0
    (with_parent (fill0 (m_parentGeneration pf))
       (replicate (length (m_parentValues pf)) (-1))
       (with_gCost (fill0 (m_gCostGeneration pf))
          (replicate (length (m_gCostValues pf)) INT_MAX)
          (with_closed (fill0 (m_closedGeneration pf)) pf))).

(** [++m_generationCounter] on a 32-bit unsigned counter. *)
Definition incr_uint32 (c : Z) : Z := (c + 1) mod UINT32_MOD.

Definition nextGeneration (pf : Pathfinding) : Pathfinding * Z :=
  let next := incr_uint32 (m_generationCounter pf) in
  let pf1 := with_counter next pf in
  if next =? 0 then
    let pf2 := resetGenerations pf1 in
    let next' := incr_uint32 (m_generationCounter pf2) in
    (with_counter next' pf2, next')
  else (pf1, next).

Definition isClosed (pf : Pathfinding) (idx generation : Z) : bool :=
  in_vec idx (m_closedGeneration pf) &&
  (vec_get (m_closedGeneration pf) idx =? generation).

Definition setClosed (pf : Pathfinding) (idx generation : Z) : Pathfinding :=
  if in_vec idx (m_closedGeneration pf)
  then with_closed (vec_set (m_closedGeneration pf) idx generation) pf
  else pf.

Definition getGCost (pf : Pathfinding) (idx generation : Z) : Z :=
  if negb (in_vec idx (m_gCostGeneration pf)) then INT_MAX
  else if vec_get (m_gCostGeneration pf) idx =? generation
       then vec_get (m_gCostValues pf) idx
       else INT_MAX.

Definition setGCost (pf : Pathfinding) (idx generation cost : Z) : Pathfinding :=
  if in_vec idx (m_gCostGeneration pf)
  then with_gCost (vec_set (m_gCostGeneration pf) idx generation)
                  (vec_set (m_gCostValues pf) idx cost) pf
  else pf.

Definition hasParent (pf : Pathfinding) (idx generation : Z) : bool :=
  in_vec idx (m_parentGeneration pf) &&
  (vec_get (m_parentGeneration pf) idx =? generation).

Definition getParent (pf : Pathfinding) (idx generation : Z) : Z :=
  if hasParent pf idx generation then vec_get (m_parentValues pf) idx else -1.

Definition setParent (pf : Pathfinding) (idx generation parentIndex : Z) : Pathfinding :=
  if in_vec idx (m_parentGeneration pf)
  then with_parent (vec_set (m_parentGeneration pf) idx generation)
                   (vec_set (m_parentValues pf) idx parentIndex) pf
  else pf.

(** ** Open list: a binary min-heap stored in a vector *)

Definition heapLess (lhs rhs : QueueNode) : bool :=
  if negb (fCost lhs =? fCost rhs) then fCost lhs <? fCost rhs
  else gCost lhs <? gCost rhs.

(** [m_openHeap[i]]; every access below is guarded by a size test. *)
Definition heap_at (h : list QueueNode) (i : nat) : QueueNode :=
  default (mkNode 0 0 0) (h !! i).

(** [std::swap(h[i], h[j])] *)
Definition heap_swap (h : list QueueNode) (i j : nat) : list QueueNode :=
  <[j := heap_at h i]> (<[i := heap_at h j]> h).

(** The sift-up loop of [pushOpenNode].  The position strictly decreases,
    so [fuel] above the starting position is never used up
    (see [sift_up_fuel]). *)
Fixpoint sift_up (fuel : nat) (h : list QueueNode) (i : nat) : list QueueNode :=
  match fuel with
  | O => h
  | S fuel' =>
      if (0 <? i)%nat then
        let parent := ((i - 1) / 2)%nat in
        if heapLess (heap_at h parent) (heap_at h i) then h
        else sift_up fuel' (heap_swap h parent i) parent
      else h
  end.

Definition pushOpenNode (pf : Pathfinding) (node : QueueNode) : Pathfinding :=
  let h := m_openHeap pf ++ [node] in
  with_openHeap (sift_up (length h) h (length h - 1)%nat) pf.

(** The sift-down loop of [popOpenNode].  The position strictly increases
    and stays below the size, so [fuel] equal to the size is never used up
    (see [sift_down_fuel]). *)
Fixpoint sift_down (fuel : nat) (h : list QueueNode) (i : nat) : list QueueNode :=
  match fuel with
  | O => h
  | S fuel' =>
      let size := length h in
      let left := (i * 2 + 1)%nat in
      let right := (left + 1)%nat in
      let smallest := i in
      let smallest :=
        if (left <? size)%nat && negb (heapLess (heap_at h smallest) (heap_at h left))
        then left else smallest in
      let smallest :=
        if (right <? size)%nat && negb (heapLess (heap_at h smallest) (heap_at h right))
        then right else smallest in
      if (smallest =? i)%nat then h
      else sift_down fuel' (heap_swap h i smallest) smallest
  end.

(** Called on a non-empty heap only. *)
Definition popOpenNode (pf : Pathfinding) : QueueNode * Pathfinding :=
  let h := m_openHeap pf in
  let top := heap_at h 0 in
  let last := heap_at h (length h - 1) in
  let h1 := take (length h - 1) h in
  match h1 with
  | [] => (top, with_openHeap h1 pf)
  | _ :: _ =>
      let h2 := <[0%nat := last]> h1 in
      (top, with_openHeap (sift_down (length h2) h2 0) pf)
  end.

(** ** Search engine *)

(** The [int] arithmetic is taken over the integers; the value is the one
    the source computes as long as no intermediate result leaves the range
    of [int] (see [heuristic_exact]), which is the case for the cells of a
    grid of at most [INT_MAX] cells. *)
Definition calculateHeuristic (a b : Point) : Z :=
  Z.abs (px a - px b) + Z.abs (py a - py b).

(** The candidate produced for one offset [(dx, dy)], if any. *)
Definition neighbor_at (pf : Pathfinding) (point : Point) (dx dy : Z) : list Point :=
  if (dx =? 0) && (dy =? 0) then []
  else
    let x := px point + dx in
    let y := py point + dy in
    if (x <? 0) || (x >=? m_width pf) || (y <? 0) || (y >=? m_height pf) then []
    else if negb (dx =? 0) && negb (dy =? 0) &&
            (negb (isWalkable pf (px point + dx) (py point)) ||
             negb (isWalkable pf (px point) (py point + dy)))
         then []
         else [mkPoint x y].

(** The filled prefix of the neighbour buffer, in the order it is written. *)
Definition collectNeighbors (pf : Pathfinding) (point : Point) : list Point :=
  flat_map (fun dx => flat_map (fun dy => neighbor_at pf point dx dy) [-1; 0; 1])
           [-1; 0; 1].

(** The [for] loop over the collected neighbours of [current]. *)
Fixpoint relax_neighbors (pf : Pathfinding) (generation : Z) (current : QueueNode)
    (end_ : Point) (neighbors : list Point) : Pathfinding :=
  match neighbors with
  | [] => pf
  | neighbor :: rest =>
      if negb (isWalkable pf (px neighbor) (py neighbor)) then
        relax_neighbors pf generation current end_ rest
      else
        let neighbor_idx := toIndex pf neighbor in
        if isClosed pf neighbor_idx generation then
          relax_neighbors pf generation current end_ rest
        else
          let tentative_gcost := gCost current + 1 in
          if tentative_gcost >=? getGCost pf neighbor_idx generation then
            relax_neighbors pf generation current end_ rest
          else
            let pf1 := setGCost pf neighbor_idx generation tentative_gcost in
            let pf2 := setParent pf1 neighbor_idx generation (index current) in
            let h_cost := calculateHeuristic neighbor end_ in
            let pf3 := pushOpenNode pf2
                         (mkNode neighbor_idx (tentative_gcost + h_cost) tentative_gcost) in
            relax_neighbors pf3 generation current end_ rest
  end.

(** The main [while] loop.  [budget] is [max_iterations - iterations]: the
    loop stops when it reaches zero or when the heap is empty.  The result
    is the final state with the final values of [final_cost] and
    [iterations]. *)
Fixpoint search_loop (budget : nat) (pf : Pathfinding) (generation end_idx : Z)
    (end_ : Point) (iterations : Z) : Pathfinding * Z * Z :=
  match budget with
  | O => (pf, -1, iterations)
  | S budget' =>
      match m_openHeap pf with
      | [] => (pf, -1, iterations)
      | _ :: _ =>
          let iterations := iterations + 1 in
          let '(current, pf1) := popOpenNode pf in
          if gCost current >? getGCost pf1 (index current) generation then
            search_loop budget' pf1 generation end_idx end_ iterations
          else if isClosed pf1 (index current) generation then
            search_loop budget' pf1 generation end_idx end_ iterations
          else
            let pf2 := setClosed pf1 (index current) generation in
            if index current =? end_idx then (pf2, gCost current, iterations)
            else
              let current_point := toPoint pf2 (index current) in
              let neighbors := collectNeighbors pf2 current_point in
              search_loop budget'
                (relax_neighbors pf2 generation current end_ neighbors)
                generation end_idx end_ iterations
      end
  end.

(** The [while (current >= 0)] loop of [buildPath].  The source loop has no
    bound of its own; [None] means that [fuel] ran out, and is distinct from
    every value the source can return ([Some []] is the cleared path). *)
Fixpoint buildPath_loop (fuel : nat) (pf : Pathfinding) (startIndex generation : Z)
    (current : Z) (outPath : list Point) : option (list Point) :=
  match fuel with
  | O => None
  | S fuel' =>
      if current >=? 0 then
        let outPath := outPath ++ [toPoint pf current] in
        if current =? startIndex then Some (rev outPath)
        else if negb (hasParent pf current generation) then Some []
        else
          let parent := getParent pf current generation in
          if (parent =? current) || (parent <? 0) then Some []
          else buildPath_loop fuel' pf startIndex generation parent outPath
      else Some []
  end.

(** [expectedLength] only sizes the reservation.  The fuel is one more than
    the number of cells: a parent chain longer than that repeats a cell. *)
Definition buildPath (pf : Pathfinding) (startIndex endIndex generation expectedLength : Z)
    : option (list Point) :=
  buildPath_loop (S (length (m_parentValues pf))) pf startIndex generation endIndex [].

(** Returns the new state, the path ([None] only if [buildPath] ran out of
    fuel) and the final value of the local counter [iterations]. *)
Definition findPathInternal (pf : Pathfinding) (start end_ : Point)
    : Pathfinding * option (list Point) * Z :=
  let pf := ensureWorkingBuffers pf in
  if negb (isWalkable pf (px start) (py start)) || negb (isWalkable pf (px end_) (py end_))
  then (pf, Some [], 0)
  else
    let start_idx := toIndex pf start in
    let end_idx := toIndex pf end_ in
    if start_idx =? end_idx then (pf, Some [start], 0)
    else
      let '(pf, generation) := nextGeneration pf in
      let pf := with_openHeap [] pf in
      let pf := setGCost pf start_idx generation 0 in
      let pf := setParent pf start_idx generation start_idx in
      let pf := pushOpenNode pf (mkNode start_idx (calculateHeuristic start end_) 0) in
      let max_iterations := Z.max (m_width pf * m_height pf) 1 in
      let '(pf, final_cost, iterations) :=
        search_loop (Z.to_nat max_iterations) pf generation end_idx end_ 0 in
      if final_cost <? 0 then (pf, Some [], iterations)
      else (pf, buildPath pf start_idx end_idx generation (final_cost + 1), iterations).

(** ** External collaborators of the rebuild pass *)

(** Modelled from the spec: terrain_service.h is not among the sources.
    The terrain source, "given a cell coordinate within its own bounds,
    reports whether the cell is walkable".  [getHeightMap] is [None] for a
    null pointer and otherwise the width and height of the height map. *)
Record TerrainService : Type := mkTerrain {
  isInitialized : bool;
  getHeightMap : option (Z * Z);
  terrain_isWalkable : Z -> Z -> bool
}.

(** Modelled from the spec: building_collision_registry.h is not among the
    sources.  A building is represented by "the set of world-space cell
    coordinates it occupies" at the engine's grid cell size, which is what
    [getOccupiedGridCells] yields for it.  [round_offset c off] stands for
    [static_cast<int>(std::round(c - off))]; its floating-point arithmetic
    is not modelled. *)
Record Env : Type := mkEnv {
  terrain_service : TerrainService;
  getAllBuildings : list (list (Z * Z));
  round_offset : Z -> float -> Z
}.

(** The body of the two nested terrain loops for one cell. *)
Definition terrain_cell (ts : TerrainService) (terrain_width terrain_height : Z)
    (g : list (list Z)) (x z : Z) : list (list Z) :=
  let blocked :=
    if (x <? terrain_width) && (z <? terrain_height)
    then negb (terrain_isWalkable ts x z)
    else true in
  if blocked then obstacle_set g x z 1 else g.

Definition terrain_pass (ts : TerrainService) (pf : Pathfinding)
    (g : list (list Z)) : list (list Z) :=
  let terrain_width := match getHeightMap ts with Some (w, _) => w | None => 0 end in
  let terrain_height := match getHeightMap ts with Some (_, h) => h | None => 0 end in
  foldl (fun g z =>
           foldl (fun g x => terrain_cell ts terrain_width terrain_height g x z)
                 g (seqZ 0 (m_width pf)))
        g (seqZ 0 (m_height pf)).

Definition building_cell (env : Env) (pf : Pathfinding)
    (g : list (list Z)) (cell : Z * Z) : list (list Z) :=
  let grid_x := round_offset env (fst cell) (m_gridOffsetX pf) in
  let grid_z := round_offset env (snd cell) (m_gridOffsetZ pf) in
  if (grid_x >=? 0) && (grid_x <? m_width pf) && (grid_z >=? 0) && (grid_z <? m_height pf)
  then obstacle_set g grid_x grid_z 1
  else g.

Definition building_pass (env : Env) (pf : Pathfinding)
    (g : list (list Z)) : list (list Z) :=
  foldl (fun g cells => foldl (building_cell env pf) g cells) g (getAllBuildings env).

Definition updateBuildingObstacles (env : Env) (pf : Pathfinding) : Pathfinding :=
  if negb (m_obstaclesDirty pf) then pf
  else
    let g0 := map (fun row => replicate (length row) 0) (m_obstacles pf) in
    let g1 := if isInitialized (terrain_service env)
              then terrain_pass (terrain_service env) pf g0
              else g0 in
    let g2 := building_pass env pf g1 in
    with_dirty false (with_obstacles g2 pf).

(** ** Facade and queues *)

Definition findPath (env : Env) (pf : Pathfinding) (start end_ : Point)
    : Pathfinding * option (list Point) :=
  let pf := if m_obstaclesDirty pf then updateBuildingObstacles env pf else pf in
  let '(pf, result, _) := findPathInternal pf start end_ in
  (pf, result).

Definition submitPathRequest (pf : Pathfinding) (id : Z) (start end_ : Point) : Pathfinding :=
  with_requestQueue (m_requestQueue pf ++ [mkRequest id start end_]) pf.

(** The draining loop: front of the queue to the back of [results]. *)
Fixpoint drain (queue : list PathResult) (results : list PathResult)
    : list PathResult * list PathResult :=
  match queue with
  | [] => (results, queue)
  | front :: rest => drain rest (results ++ [front])
  end.

Definition fetchCompletedPaths (pf : Pathfinding) : list PathResult * Pathfinding :=
  let '(results, queue) := drain (m_resultQueue pf) [] in
  (results, with_resultQueue queue pf).

(** Modelled from the spec: the in-class initialiser of
    [m_generationCounter] is in pathfinding.h; the counter is "incremented
    once per search invocation" from zero. *)
Definition initial_generationCounter : Z := 0.

(** Modelled from the spec: the in-class initialisers of the two grid
    offsets are in pathfinding.h; they are taken to be [0.0f]. *)
Definition initial_gridOffset : float := S754_zero false.

(** One iteration of [workerLoop] once the wait is over: with an empty
    request queue nothing is done (the loop exits or waits again);
    otherwise the front request is popped, answered through [findPath] and
    its result pushed at the back of the result queue.  [findPath] yields
    [None] in no state an engine can be in (see [findPath_sound]); the
    default stands for that case only. *)
Definition worker_step (env : Env) (pf : Pathfinding) : Pathfinding :=
  match m_requestQueue pf with
  | [] => pf
  | request :: rest =>
      let '(pf1, result) :=
        findPath env (with_requestQueue rest pf) (req_start request) (req_end request) in
      with_resultQueue
        (m_resultQueue pf1 ++ [mkResult (req_id request) (default [] result)]) pf1
  end.

(** [Pathfinding::Pathfinding(width, height)]: the grid is sized and zeroed,
    the working buffers allocated, the dirty flag set. *)
Definition Pathfinding_ctor (width height : Z) : Pathfinding :=
  let pf :=
    mkPathfinding width height
      (replicate (Z.to_nat height) (replicate (Z.to_nat width) 0))
      false initial_gridOffset initial_gridOffset
      [] [] [] [] [] initial_generationCounter [] [] [] in
  with_dirty true (ensureWorkingBuffers pf).

(** ** Specification-level notions *)

(** Everything in the engine except the scratch store, the generation
    counter and the open heap. *)
Definition outside_scratch (pf : Pathfinding) :=
  (m_width pf, m_height pf, m_obstacles pf, m_obstaclesDirty pf,
   m_gridOffsetX pf, m_gridOffsetZ pf, m_requestQueue pf, m_resultQueue pf).

(** The state a query searches: [findPath] rebuilds the grid first when the
    dirty flag is set. *)
Definition refreshed (env : Env) (pf : Pathfinding) : Pathfinding :=
  if m_obstaclesDirty pf then updateBuildingObstacles env pf else pf.

(** Every stamp in the scratch store was issued by the counter: it is at
    most the counter's present value, which fits 32 bits. *)
Definition stamps_ok (pf : Pathfinding) : bool :=
  (0 <=? m_generationCounter pf) && (m_generationCounter pf <? UINT32_MOD) &&
  forallb (fun s => s <=? m_generationCounter pf) (m_closedGeneration pf) &&
  forallb (fun s => s <=? m_generationCounter pf) (m_gCostGeneration pf) &&
  forallb (fun s => s <=? m_generationCounter pf) (m_parentGeneration pf).

(** The five scratch arrays are always assigned together. *)
Definition buffers_ok (pf : Pathfinding) : bool :=
  Nat.eqb (length (m_gCostGeneration pf)) (length (m_closedGeneration pf)) &&
  Nat.eqb (length (m_gCostValues pf)) (length (m_closedGeneration pf)) &&
  Nat.eqb (length (m_parentGeneration pf)) (length (m_closedGeneration pf)) &&
  Nat.eqb (length (m_parentValues pf)) (length (m_closedGeneration pf)).

(** Writes to the scratch store, all stamped with one generation. *)
Inductive ScratchOp : Type :=
  | OpSetGCost (idx cost : Z)
  | OpSetParent (idx parentIndex : Z)
  | OpSetClosed (idx : Z).

Definition apply_op (generation : Z) (pf : Pathfinding) (op : ScratchOp) : Pathfinding :=
  match op with
  | OpSetGCost i c => setGCost pf i generation c
  | OpSetParent i p => setParent pf i generation p
  | OpSetClosed i => setClosed pf i generation
  end.

Definition apply_ops (generation : Z) (ops : list ScratchOp) (pf : Pathfinding) : Pathfinding :=
  foldl (apply_op generation) pf ops.

Definition writes_gcost (i : Z) (op : ScratchOp) : bool :=
  match op with OpSetGCost j _ => j =? i | _ => false end.

Definition writes_parent (i : Z) (op : ScratchOp) : bool :=
  match op with OpSetParent j _ => j =? i | _ => false end.

Definition writes_closed (i : Z) (op : ScratchOp) : bool :=
  match op with OpSetClosed j => j =? i | _ => false end.

(** No stamp of the store equals [g]. *)
Definition unstamped (pf : Pathfinding) (g : Z) : Prop :=
  (forall i, in_vec i (m_closedGeneration pf) = true -> vec_get (m_closedGeneration pf) i <> g) /\
  (forall i, in_vec i (m_gCostGeneration pf) = true -> vec_get (m_gCostGeneration pf) i <> g) /\
  (forall i, in_vec i (m_parentGeneration pf) = true -> vec_get (m_parentGeneration pf) i <> g).

(** The obstacle grid has [m_height] rows of [m_width] cells, as the
    constructor sizes it. *)
Definition grid_ok (pf : Pathfinding) : bool :=
  (0 <=? m_width pf) && (0 <=? m_height pf) &&
  Nat.eqb (length (m_obstacles pf)) (Z.to_nat (m_height pf)) &&
  forallb (fun row => Nat.eqb (length row) (Z.to_nat (m_width pf))) (m_obstacles pf).

(** The terrain source "reports the cell unwalkable, or the cell lies
    outside the terrain source's bounds"; a null height map has bounds
    0 x 0. *)
Definition terrain_blocks (ts : TerrainService) (x z : Z) : bool :=
  let terrain_width := match getHeightMap ts with Some (w, _) => w | None => 0 end in
  let terrain_height := match getHeightMap ts with Some (_, h) => h | None => 0 end in
  if (x <? terrain_width) && (z <? terrain_height)
  then negb (terrain_isWalkable ts x z)
  else true.

(** Some footprint cell of some registered building converts to [(x, z)]. *)
Definition building_covers (env : Env) (pf : Pathfinding) (x z : Z) : bool :=
  existsb (fun cells =>
             existsb (fun cell =>
                        (round_offset env (fst cell) (m_gridOffsetX pf) =? x) &&
                        (round_offset env (snd cell) (m_gridOffsetZ pf) =? z))
                     cells)
          (getAllBuildings env).

(** The flag of a cell is set. *)
Definition blocked_in (g : list (list Z)) (x z : Z) : bool :=
  negb (obstacle_at g x z =? 0).

Definition grid_shape (w h : Z) (g : list (list Z)) : Prop :=
  length g = Z.to_nat h /\ Forall (fun row => length row = Z.to_nat w) g.

Definition scratch_lengths (pf : Pathfinding) : nat * nat * nat * nat * nat :=
  (length (m_closedGeneration pf), length (m_gCostGeneration pf),
   length (m_gCostValues pf), length (m_parentGeneration pf),
   length (m_parentValues pf)).

(** The state in which the main loop is entered: fresh generation [g],
    empty heap, start cell seeded and pushed. *)
Definition seeded (pf : Pathfinding) (start end_ : Point) : Pathfinding :=
  let '(pf1, g) := nextGeneration pf in
  let start_idx := toIndex pf start in
  pushOpenNode
    (setParent (setGCost (with_openHeap [] pf1) start_idx g 0) start_idx g start_idx)
    (mkNode start_idx (calculateHeuristic start end_) 0).

(** The iteration budget of a search. *)
Definition max_iterations (pf : Pathfinding) : Z :=
  Z.max (m_width pf * m_height pf) 1.

(** ** Search invariant

    [pf0] is the state in which the search started (it fixes the grid),
    [si] the start index and [g] the generation of the search. *)

(** What the search knows when it records [p] as the parent of [c]. *)
Definition link_ok (pf0 pf : Pathfinding) (g c p : Z) : Prop :=
  isClosed pf p g = true /\ hasParent pf p g = true /\
  getGCost pf c g = getGCost pf p g + 1 /\
  isWalkable pf0 (px (toPoint pf0 c)) (py (toPoint pf0 c)) = true /\
  In (toPoint pf0 c) (collectNeighbors pf0 (toPoint pf0 p)).

Definition heap_node_ok (pf : Pathfinding) (g : Z) (n : QueueNode) : Prop :=
  hasParent pf (index n) g = true /\ getGCost pf (index n) g <= gCost n.

Record search_inv (pf0 : Pathfinding) (si g : Z) (pf : Pathfinding) : Prop := mkInv {
  inv_frame : outside_scratch pf = outside_scratch pf0;
  inv_lengths : scratch_lengths pf = scratch_lengths pf0;
  inv_start : hasParent pf si g = true /\ getParent pf si g = si /\ getGCost pf si g = 0;
  inv_heap : Forall (heap_node_ok pf g) (m_openHeap pf);
  inv_cost : forall c, hasParent pf c g = true -> 0 <= getGCost pf c g;
  inv_link : forall c, hasParent pf c g = true -> c <> si ->
                       link_ok pf0 pf g c (getParent pf c g)
}.

(** The scratch arrays all have one cell per grid cell. *)
Definition sized (pf : Pathfinding) : Prop :=
  0 <= m_width pf /\ 0 <= m_height pf /\
  scratch_lengths pf =
  (total_cells pf, total_cells pf, total_cells pf, total_cells pf, total_cells pf).

(** The parent links followed by [buildPath], from a cell back to the
    start: the list of cell indices visited. *)
Inductive parent_chain (pf0 pf : Pathfinding) (si g : Z) : Z -> list Z -> Prop :=
  | chain_start : parent_chain pf0 pf si g si [si]
  | chain_link c l :
      c <> si -> hasParent pf c g = true ->
      link_ok pf0 pf g c (getParent pf c g) ->
      parent_chain pf0 pf si g (getParent pf c g) l ->
      parent_chain pf0 pf si g c (c :: l).

(** The class invariant the claims about a query rely on: non-negative
    dimensions, stamps issued by the counter, scratch arrays of one size.
    The constructor establishes it and every operation keeps it. *)
Definition engine_ok (pf : Pathfinding) : bool :=
  (0 <=? m_width pf) && (0 <=? m_height pf) && stamps_ok pf && buffers_ok pf.

(** A route from [s]: a sequence of cells, each walkable and each among the
    neighbours the search collects for its predecessor. *)
Inductive route (pf : Pathfinding) (s : Point) : list Point -> Point -> Prop :=
  | route_start :
      isWalkable pf (px s) (py s) = true -> route pf s [s] s
  | route_step path a b :
      route pf s path a ->
      In b (collectNeighbors pf a) ->
      isWalkable pf (px b) (py b) = true ->
      route pf s (path ++ [b]) b.

(** ** Moves *)

(** [b] is one of the eight cells around [a]. *)
Definition adjacent8 (a b : Point) : bool :=
  Z.max (Z.abs (px b - px a)) (Z.abs (py b - py a)) =? 1.

(** A diagonal step from [a] to [b] has both flanking orthogonal cells
    walkable; an orthogonal step has no flanking cells. *)
Definition corner_free (pf : Pathfinding) (a b : Point) : bool :=
  if negb (px b =? px a) && negb (py b =? py a)
  then isWalkable pf (px b) (py a) && isWalkable pf (px a) (py b)
  else true.

(** A unit-cost move of the grid: to a walkable 8-neighbour, without
    cutting a corner. *)
Definition legal_step (pf : Pathfinding) (a b : Point) : bool :=
  adjacent8 a b && isWalkable pf (px b) (py b) && corner_free pf a b.

(** A sequence of cells that starts on a walkable cell and proceeds by
    legal moves. *)
Fixpoint legal_route (pf : Pathfinding) (path : list Point) : bool :=
  match path with
  | [] => false
  | a :: rest =>
      isWalkable pf (px a) (py a) &&
      match rest with
      | [] => true
      | b :: _ => legal_step pf a b && legal_route pf rest
      end
  end.

(** ** Reference breadth-first search

    An independent shortest-path computation over the same grid under unit
    move cost: level [d] of the search holds the cells first reached after
    [d] legal moves. *)

Definition Point_eqb (a b : Point) : bool :=
  (px a =? px b) && (py a =? py b).

Definition mem_point (p : Point) (l : list Point) : bool :=
  existsb (Point_eqb p) l.

Definition offsets8 : list (Z * Z) :=
  [(-1, -1); (-1, 0); (-1, 1); (0, -1); (0, 1); (1, -1); (1, 0); (1, 1)].

Definition moves (pf : Pathfinding) (a : Point) : list Point :=
  List.filter (legal_step pf a)
    (map (fun d => mkPoint (px a + fst d) (py a + snd d)) offsets8).

(** The cells one move away from the frontier that were not seen before. *)
Definition expand (pf : Pathfinding) (frontier visited : list Point) : list Point :=
  fold_left (fun next q =>
               if mem_point q visited || mem_point q next then next else next ++ [q])
            (flat_map (moves pf) frontier) [].

Fixpoint bfs_levels (fuel : nat) (pf : Pathfinding) (goal : Point)
    (frontier visited : list Point) (depth : Z) : option Z :=
  match fuel with
  | O => None
  | S fuel' =>
      if mem_point goal frontier then Some depth
      else
        match frontier with
        | [] => None
        | _ :: _ =>
            let next := expand pf frontier visited in
            bfs_levels fuel' pf goal next (visited ++ next) (depth + 1)
        end
  end.

(** The least number of moves from [s] to [e], if [e] can be reached. *)
Definition bfs_distance (pf : Pathfinding) (s e : Point) : option Z :=
  if isWalkable pf (px s) (py s)
  then bfs_levels (S (S (total_cells pf))) pf e [s] [s] 0
  else None.

(** Invariant of the reference search: the start was seen, every seen cell
    is on the frontier or has all its moves seen, no cell was seen twice,
    and only walkable cells were seen. *)
Record bfs_inv (pf : Pathfinding) (s : Point) (frontier visited : list Point) : Prop :=
  mkBfsInv {
    bi_start : In s visited;
    bi_closed : forall p, In p visited ->
                  In p frontier \/ (forall q, In q (moves pf p) -> In q visited);
    bi_nodup : NoDup visited;
    bi_walk : forall p, In p visited -> isWalkable pf (px p) (py p) = true
  }.

(** Every cell within [j] moves of the start was seen. *)
Definition bfs_complete (pf : Pathfinding) (s : Point) (visited : list Point) (j : nat) : Prop :=
  forall path p, route pf s path p -> (length path <= S j)%nat -> In p visited.

(** The states an engine can be in: those the public operations produce
    from a constructed engine, whatever the external sources report. *)
Inductive reachable : Pathfinding -> Prop :=
  | reach_ctor width height :
      0 <= width -> 0 <= height -> reachable (Pathfinding_ctor width height)
  | reach_setGridOffset pf ox oz :
      reachable pf -> reachable (setGridOffset pf ox oz)
  | reach_setObstacle pf x y b :
      reachable pf -> reachable (setObstacle pf x y b)
  | reach_markObstaclesDirty pf :
      reachable pf -> reachable (markObstaclesDirty pf)
  | reach_findPath env pf s e :
      reachable pf -> reachable (fst (findPath env pf s e))
  | reach_submitPathRequest pf id s e :
      reachable pf -> reachable (submitPathRequest pf id s e)
  | reach_fetchCompletedPaths pf :
      reachable pf -> reachable (snd (fetchCompletedPaths pf))
  | reach_worker_step env pf :
      reachable pf -> reachable (worker_step env pf).

(** * Further notions for the rest of the file *)

(** ** Heap order *)

(** [a] is not after [b] in the order of the open list. *)
Definition node_le (a b : QueueNode) : Prop := heapLess b a = false.

(** The binary-heap order of the open list: no entry is less than the
    entry at its parent position [(i - 1) / 2]. *)
Definition heap_ordered (h : list QueueNode) : bool :=
  forallb (fun i => negb (heapLess (heap_at h i) (heap_at h ((i - 1) / 2))))
          (seq 1 (length h - 1)).

(** The heap order with position [i] on its way up: every entry but the
    one at [i] respects its parent, and the entries below [i] respect the
    parent of [i]. *)
Definition sifting_up (h : list QueueNode) (i : nat) : Prop :=
  (forall k, (0 < k < length h)%nat -> k <> i ->
             node_le (heap_at h ((k - 1) / 2)) (heap_at h k)) /\
  (forall k, (0 < k < length h)%nat -> ((k - 1) / 2)%nat = i -> (0 < i)%nat ->
             node_le (heap_at h ((i - 1) / 2)) (heap_at h k)).

(** The heap order with position [i] on its way down: every entry whose
    parent is not [i] respects its parent, and the entries below [i]
    respect the parent of [i]. *)
Definition sifting_down (h : list QueueNode) (i : nat) : Prop :=
  (forall k, (0 < k < length h)%nat -> ((k - 1) / 2)%nat <> i ->
             node_le (heap_at h ((k - 1) / 2)) (heap_at h k)) /\
  (forall k, (0 < k < length h)%nat -> ((k - 1) / 2)%nat = i -> (0 < i)%nat ->
             node_le (heap_at h ((i - 1) / 2)) (heap_at h k)).

(** ** What a search can see of the engine

    Two engines look the same to a search running at generation [g] in the
    one and [g'] in the other: same grid and queues, same open heap, scratch
    arrays of [n] cells each, and every read of the scratch store gives the
    same answer. *)
Definition same_view (n : nat) (g g' : Z) (pf pf' : Pathfinding) : Prop :=
  outside_scratch pf = outside_scratch pf' /\
  m_openHeap pf = m_openHeap pf' /\
  scratch_lengths pf = (n, n, n, n, n) /\
  scratch_lengths pf' = (n, n, n, n, n) /\
  forall i, isClosed pf i g = isClosed pf' i g' /\
            getGCost pf i g = getGCost pf' i g' /\
            hasParent pf i g = hasParent pf' i g' /\
            getParent pf i g = getParent pf' i g'.

(** ** Sequences of operations *)

(** The engine with both queues replaced. *)
Definition with_queues (rq : list PathRequest) (rs : list PathResult)
    (pf : Pathfinding) : Pathfinding :=
  with_resultQueue rs (with_requestQueue rq pf).

(** The state after a sequence of [findPath] calls, given as pairs of start
    and end. *)
Definition after_queries (env : Env) (pf : Pathfinding) (qs : list (Point * Point))
    : Pathfinding :=
  foldl (fun pf q => fst (findPath env pf (fst q) (snd q))) pf qs.

(** [n] iterations of [workerLoop]. *)
Fixpoint worker_run (env : Env) (n : nat) (pf : Pathfinding) : Pathfinding :=
  match n with
  | O => pf
  | S n' => worker_run env n' (worker_step env pf)
  end.

(** The result record a direct [findPath] call on [pf] gives for a
    request. *)
Definition answer (env : Env) (pf : Pathfinding) (r : PathRequest) : PathResult :=
  mkResult (req_id r) (default [] (snd (findPath env pf (req_start r) (req_end r)))).

(** ** Exhaustiveness of the search

    What a search from [pf0] at generation [g] towards the cell of index
    [ei] has covered: every reached cell that is not closed has a current
    entry in the open heap; unreached cells read as infinitely far; closed
    cells are reached; every closed cell, except [pending] whose neighbours
    are being relaxed, has had all its walkable neighbours reached; and the
    target is not closed. *)
Record covered (pf0 : Pathfinding) (g ei : Z) (pending : option Z)
    (pf : Pathfinding) : Prop := mkCovered {
  cov_open : forall c, hasParent pf c g = true -> isClosed pf c g = false ->
             exists n, In n (m_openHeap pf) /\ index n = c /\
                       gCost n = getGCost pf c g;
  cov_unreached : forall c, hasParent pf c g = false -> getGCost pf c g = INT_MAX;
  cov_closed : forall c, isClosed pf c g = true -> hasParent pf c g = true;
  cov_expanded : forall c b, isClosed pf c g = true -> c <> ei -> pending <> Some c ->
                 In b (collectNeighbors pf0 (toPoint pf0 c)) ->
                 isWalkable pf0 (px b) (py b) = true ->
                 hasParent pf (toIndex pf0 b) g = true;
  cov_end : isClosed pf ei g = false
}.

(** ** Range of the heuristic

    The computation of [calculateHeuristic a b] in [int] does not overflow:
    both differences have an absolute value that fits, and so does their
    sum. *)
Definition heuristic_exact (a b : Point) : Prop :=
  Z.abs (px a - px b) <= INT_MAX /\ Z.abs (py a - py b) <= INT_MAX /\
  Z.abs (px a - px b) + Z.abs (py a - py b) <= INT_MAX.

(** ** Termination of path reconstruction *)

(** The loop of [buildPath] goes on from [current] to its parent: the cell
    is not negative and not the start, it has a parent stamped
    [generation], and that parent is neither the cell itself nor
    negative. *)
Definition walk_continues (pf : Pathfinding) (startIndex generation current : Z) : bool :=
  (current >=? 0) && negb (current =? startIndex) &&
  hasParent pf current generation &&
  negb ((getParent pf current generation =? current) ||
        (getParent pf current generation <? 0)).

(** The loop of [buildPath] entered at [current] leaves after [n] tests of
    its condition. *)
Inductive walk_stops (pf : Pathfinding) (startIndex generation : Z) : Z -> nat -> Prop :=
  | walk_stop current :
      walk_continues pf startIndex generation current = false ->
      walk_stops pf startIndex generation current 1
  | walk_step current n :
      walk_continues pf startIndex generation current = true ->
      walk_stops pf startIndex generation (getParent pf current generation) n ->
      walk_stops pf startIndex generation current (S n).

(** * Properties *)

(** ** Frame: what a search leaves alone *)

Lemma outside_scratch_width pf pf' :
  outside_scratch pf' = outside_scratch pf -> m_width pf' = m_width pf.
Proof. unfold outside_scratch; congruence. Qed.

Lemma outside_scratch_height pf pf' :
  outside_scratch pf' = outside_scratch pf -> m_height pf' = m_height pf.
Proof. unfold outside_scratch; congruence. Qed.

Lemma outside_scratch_obstacles pf pf' :
  outside_scratch pf' = outside_scratch pf -> m_obstacles pf' = m_obstacles pf.
Proof. unfold outside_scratch; congruence. Qed.

Lemma outside_scratch_isWalkable pf pf' x y :
  outside_scratch pf' = outside_scratch pf -> isWalkable pf' x y = isWalkable pf x y.
Proof.
  intros H. unfold isWalkable.
  rewrite (outside_scratch_width _ _ H), (outside_scratch_height _ _ H),
    (outside_scratch_obstacles _ _ H). reflexivity.
Qed.

Lemma outside_scratch_toIndex pf pf' p :
  outside_scratch pf' = outside_scratch pf -> toIndex pf' p = toIndex pf p.
Proof. intros H. unfold toIndex. now rewrite (outside_scratch_width _ _ H). Qed.

Lemma outside_scratch_toPoint pf pf' i :
  outside_scratch pf' = outside_scratch pf -> toPoint pf' i = toPoint pf i.
Proof. intros H. unfold toPoint. now rewrite (outside_scratch_width _ _ H). Qed.

Lemma outside_scratch_neighbor_at pf pf' p dx dy :
  outside_scratch pf' = outside_scratch pf -> neighbor_at pf' p dx dy = neighbor_at pf p dx dy.
Proof.
  intros H. unfold neighbor_at.
  rewrite (outside_scratch_width _ _ H), (outside_scratch_height _ _ H).
  now rewrite !(outside_scratch_isWalkable _ _ _ _ H).
Qed.

Lemma outside_scratch_collectNeighbors pf pf' p :
  outside_scratch pf' = outside_scratch pf -> collectNeighbors pf' p = collectNeighbors pf p.
Proof.
  intros H. unfold collectNeighbors. simpl.
  now rewrite !(outside_scratch_neighbor_at _ _ _ _ _ H).
Qed.

Lemma frame_ensureWorkingBuffers pf :
  outside_scratch (ensureWorkingBuffers pf) = outside_scratch pf.
Proof. unfold ensureWorkingBuffers. now destruct (Nat.eqb _ _). Qed.

Lemma frame_nextGeneration pf :
  outside_scratch (fst (nextGeneration pf)) = outside_scratch pf.
Proof. unfold nextGeneration. now destruct (_ =? 0). Qed.

Lemma frame_setClosed pf i g : outside_scratch (setClosed pf i g) = outside_scratch pf.
Proof. unfold setClosed. now destruct (in_vec _ _). Qed.

Lemma frame_setGCost pf i g c : outside_scratch (setGCost pf i g c) = outside_scratch pf.
Proof. unfold setGCost. now destruct (in_vec _ _). Qed.

Lemma frame_setParent pf i g p : outside_scratch (setParent pf i g p) = outside_scratch pf.
Proof. unfold setParent. now destruct (in_vec _ _). Qed.

Lemma frame_with_openHeap h pf : outside_scratch (with_openHeap h pf) = outside_scratch pf.
Proof. reflexivity. Qed.

Lemma frame_pushOpenNode pf n : outside_scratch (pushOpenNode pf n) = outside_scratch pf.
Proof. reflexivity. Qed.

Lemma frame_popOpenNode pf : outside_scratch (snd (popOpenNode pf)) = outside_scratch pf.
Proof. unfold popOpenNode. now destruct (take _ _). Qed.

Lemma frame_relax_neighbors ns : forall pf g cur e,
  outside_scratch (relax_neighbors pf g cur e ns) = outside_scratch pf.
Proof.
  induction ns as [|n ns IH]; intros pf g cur e; simpl; [reflexivity|].
  repeat match goal with |- context [if ?b then _ else _] => destruct b end;
    rewrite ?IH; try reflexivity.
  now rewrite frame_pushOpenNode, frame_setParent, frame_setGCost.
Qed.

Lemma frame_search_loop budget : forall pf g ei e it,
  outside_scratch (fst (fst (search_loop budget pf g ei e it))) = outside_scratch pf.
Proof.
  induction budget as [|b IH]; intros pf g ei e it; simpl; [reflexivity|].
  destruct (m_openHeap pf) eqn:Hh; [reflexivity|].
  pose proof (frame_popOpenNode pf) as Hpop.
  destruct (popOpenNode pf) as [cur pf1]; simpl in Hpop.
  repeat match goal with |- context [if ?b then _ else _] => destruct b end;
    rewrite ?IH, ?frame_relax_neighbors, ?frame_setClosed; simpl;
    rewrite ?frame_setClosed; exact Hpop.
Qed.

Lemma frame_findPathInternal pf s e :
  outside_scratch (fst (fst (findPathInternal pf s e))) = outside_scratch pf.
Proof.
  unfold findPathInternal.
  pose proof (frame_ensureWorkingBuffers pf) as H0.
  set (pf0 := ensureWorkingBuffers pf) in *.
  destruct (negb _ || negb _); [exact H0|].
  destruct (_ =? _); [exact H0|].
  pose proof (frame_nextGeneration pf0) as H1.
  destruct (nextGeneration pf0) as [pf1 g]; simpl in H1.
  match goal with |- context [search_loop ?b ?p ?g ?ei ?e ?it] =>
    pose proof (frame_search_loop b p g ei e it) as H2;
    destruct (search_loop b p g ei e it) as [[pf6 fc] its] end.
  simpl in H2.
  rewrite frame_pushOpenNode, frame_setParent, frame_setGCost, frame_with_openHeap in H2.
  destruct (fc <? 0); simpl; congruence.
Qed.

Lemma findPath_unfold env pf s e :
  findPath env pf s e =
  (fst (fst (findPathInternal (refreshed env pf) s e)),
   snd (fst (findPathInternal (refreshed env pf) s e))).
Proof.
  unfold findPath, refreshed.
  now destruct (findPathInternal _ s e) as [[? ?] ?].
Qed.

Lemma dirty_updateBuildingObstacles env pf :
  m_obstaclesDirty (updateBuildingObstacles env pf) = false.
Proof.
  unfold updateBuildingObstacles.
  destruct (m_obstaclesDirty pf) eqn:E; simpl; [reflexivity | exact E].
Qed.

Lemma refreshed_clean env pf :
  m_obstaclesDirty pf = false -> refreshed env pf = pf.
Proof. unfold refreshed. now intros ->. Qed.

(** ** Result queue *)

Lemma drain_spec queue : forall results,
  drain queue results = (results ++ queue, []).
Proof.
  induction queue as [|r queue IH]; intros results; simpl.
  - now rewrite app_nil_r.
  - rewrite IH. now rewrite <- app_assoc.
Qed.

(** C9.  [fetchCompletedPaths] returns the whole result queue in the order
    its entries were appended and leaves the queue empty, touching nothing
    else; on an empty queue it returns the empty list and the engine is
    unchanged. *)
Theorem fetchCompletedPaths_drains pf :
  fst (fetchCompletedPaths pf) = m_resultQueue pf /\
  snd (fetchCompletedPaths pf) = with_resultQueue [] pf /\
  m_resultQueue (snd (fetchCompletedPaths pf)) = [] /\
  (m_resultQueue pf = [] ->
   fst (fetchCompletedPaths pf) = [] /\ snd (fetchCompletedPaths pf) = pf).
Proof.
  unfold fetchCompletedPaths. rewrite drain_spec. simpl.
  repeat split; try reflexivity.
  - assumption.
  - destruct pf; simpl in *; subst; reflexivity.
Qed.

(** ** Endpoint checks *)

Lemma isWalkable_out_of_range pf x y :
  in_grid pf x y = false -> isWalkable pf x y = false.
Proof.
  unfold in_grid, isWalkable. intros H.
  destruct (x <? 0) eqn:E1, (x >=? m_width pf) eqn:E2,
           (y <? 0) eqn:E3, (y >=? m_height pf) eqn:E4; simpl; try reflexivity.
  exfalso.
  apply Z.ltb_ge in E1, E3. rewrite Z.geb_leb in E2, E4. apply Z.leb_gt in E2, E4.
  apply Z.leb_le in E1, E3. apply Z.ltb_lt in E2, E4.
  rewrite E1, E2, E3, E4 in H. discriminate.
Qed.

Lemma isWalkable_in_grid pf x y :
  isWalkable pf x y = true -> 0 <= x < m_width pf /\ 0 <= y < m_height pf.
Proof.
  intros H. destruct (in_grid pf x y) eqn:E.
  - unfold in_grid in E. lia.
  - rewrite (isWalkable_out_of_range _ _ _ E) in H. discriminate.
Qed.

Lemma in_grid_refreshed env pf x y :
  in_grid (refreshed env pf) x y = in_grid pf x y.
Proof.
  unfold refreshed, updateBuildingObstacles.
  now destruct (m_obstaclesDirty pf).
Qed.

Lemma findPathInternal_blocked pf s e :
  isWalkable pf (px s) (py s) = false \/ isWalkable pf (px e) (py e) = false ->
  findPathInternal pf s e = (ensureWorkingBuffers pf, Some [], 0).
Proof.
  intros H. unfold findPathInternal.
  rewrite !(outside_scratch_isWalkable _ _ _ _ (frame_ensureWorkingBuffers pf)).
  destruct H as [-> | ->]; simpl; [reflexivity|].
  now rewrite orb_true_r.
Qed.

(** C7 (as amended).  If an endpoint lies outside the grid, or is blocked
    in the engine's current grid while the dirty flag is clear, or is
    blocked in the grid the query searches (the rebuilt one when the flag is
    set), [findPath] returns the empty path; and [isWalkable] is false at
    every out-of-range coordinate.  With the flag set, an endpoint blocked
    in the current grid need not give the empty path (see
    [findPath_blocked_endpoint_rebuilt]). *)
Theorem findPath_invalid_endpoint env pf s e :
  in_grid pf (px s) (py s) = false \/ in_grid pf (px e) (py e) = false \/
  (m_obstaclesDirty pf = false /\
   (isWalkable pf (px s) (py s) = false \/ isWalkable pf (px e) (py e) = false)) \/
  isWalkable (refreshed env pf) (px s) (py s) = false \/
  isWalkable (refreshed env pf) (px e) (py e) = false ->
  snd (findPath env pf s e) = Some [] /\
  (forall x y, in_grid pf x y = false -> isWalkable pf x y = false).
Proof.
  intros H. split; [|apply isWalkable_out_of_range].
  rewrite findPath_unfold. simpl.
  rewrite findPathInternal_blocked; [reflexivity|].
  destruct H as [H | [H | [[Hd H] | [H | H]]]]; auto.
  - left. apply isWalkable_out_of_range. now rewrite in_grid_refreshed.
  - right. apply isWalkable_out_of_range. now rewrite in_grid_refreshed.
  - now rewrite (refreshed_clean env pf Hd).
Qed.

Lemma findPath_invalid_endpoint_witness :
  snd (findPath (mkEnv (mkTerrain false None (fun _ _ => true)) [] (fun c _ => c))
         (setObstacle (with_dirty false (Pathfinding_ctor 3 1)) 2 0 true)
         (mkPoint 0 0) (mkPoint 2 0)) = Some [] /\
  snd (findPath (mkEnv (mkTerrain false None (fun _ _ => true)) [] (fun c _ => c))
         (Pathfinding_ctor 3 1) (mkPoint 0 0) (mkPoint 3 0)) = Some [] /\
  snd (findPath (mkEnv (mkTerrain true (Some (3, 1)) (fun x _ => negb (x =? 2))) []
                   (fun c _ => c))
         (Pathfinding_ctor 3 1) (mkPoint 0 0) (mkPoint 2 0)) = Some [].
Proof.
  split; [|split].
  - apply findPath_invalid_endpoint. right; right; left.
    split; [reflexivity | right; reflexivity].
  - apply findPath_invalid_endpoint. right; left. reflexivity.
  - apply findPath_invalid_endpoint. right; right; right; right. reflexivity.
Defined.

(** The claim C7 as stated fails when the dirty flag is set at the time of
    the query, as it is on a freshly constructed engine: the end cell is
    blocked in the current grid by a direct edit, the rebuild that precedes
    the search clears the edit, and the query returns a path ending on that
    cell. *)
Lemma findPath_blocked_endpoint_rebuilt :
  let env := mkEnv (mkTerrain false None (fun _ _ => true)) [] (fun c _ => c) in
  let pf := setObstacle (Pathfinding_ctor 3 1) 2 0 true in
  m_obstaclesDirty pf = true /\
  in_grid pf 2 0 = true /\
  isWalkable pf 2 0 = false /\
  snd (findPath env pf (mkPoint 0 0) (mkPoint 2 0))
  = Some [mkPoint 0 0; mkPoint 1 0; mkPoint 2 0] /\
  ~ (isWalkable pf 2 0 = false ->
     snd (findPath env pf (mkPoint 0 0) (mkPoint 2 0)) = Some []).
Proof.
  cbv zeta.
  assert (Hres : snd (findPath (mkEnv (mkTerrain false None (fun _ _ => true)) []
                                  (fun c _ => c))
                        (setObstacle (Pathfinding_ctor 3 1) 2 0 true)
                        (mkPoint 0 0) (mkPoint 2 0))
                 = Some [mkPoint 0 0; mkPoint 1 0; mkPoint 2 0])
    by (vm_compute; reflexivity).
  assert (Hblocked : isWalkable (setObstacle (Pathfinding_ctor 3 1) 2 0 true) 2 0 = false)
    by (vm_compute; reflexivity).
  split; [vm_compute; reflexivity|]. split; [vm_compute; reflexivity|].
  split; [exact Hblocked|]. split; [exact Hres|].
  intros H. specialize (H Hblocked). rewrite Hres in H. discriminate.
Qed.

(** C8.  For a point [p] walkable in the grid the query searches,
    [findPath p p] is exactly [[p]]. *)
Theorem findPath_same_point env pf p :
  isWalkable (refreshed env pf) (px p) (py p) = true ->
  snd (findPath env pf p p) = Some [p].
Proof.
  intros H. rewrite findPath_unfold. simpl.
  unfold findPathInternal.
  rewrite !(outside_scratch_isWalkable _ _ _ _ (frame_ensureWorkingBuffers _)).
  rewrite H. simpl. now rewrite Z.eqb_refl.
Qed.

Lemma findPath_same_point_witness :
  snd (findPath (mkEnv (mkTerrain false None (fun _ _ => true)) [] (fun c _ => c))
         (Pathfinding_ctor 3 2) (mkPoint 1 1) (mkPoint 1 1)) = Some [mkPoint 1 1].
Proof. apply findPath_same_point. reflexivity. Defined.

(** C10.  With the dirty flag clear, [findPath] leaves the obstacle grid as
    it was, and with it the dimensions, the dirty flag, the grid offsets and
    both queues: only the scratch store, the generation counter and the open
    heap can differ. *)
Theorem findPath_preserves_grid env pf s e :
  m_obstaclesDirty pf = false ->
  m_obstacles (fst (findPath env pf s e)) = m_obstacles pf /\
  outside_scratch (fst (findPath env pf s e)) = outside_scratch pf.
Proof.
  intros Hd. rewrite findPath_unfold. simpl.
  rewrite (refreshed_clean _ _ Hd).
  pose proof (frame_findPathInternal pf s e) as H.
  split; [now apply outside_scratch_obstacles | exact H].
Qed.

Lemma findPath_preserves_grid_witness :
  m_obstacles (fst (findPath (mkEnv (mkTerrain false None (fun _ _ => true)) [] (fun c _ => c))
                      (setObstacle (with_dirty false (Pathfinding_ctor 3 3)) 1 1 true)
                      (mkPoint 0 0) (mkPoint 2 2)))
  = [[0; 0; 0]; [0; 1; 0]; [0; 0; 0]].
Proof.
  refine (proj1 (findPath_preserves_grid _ _ _ _ _)). reflexivity.
Defined.

(** ** Vectors *)

Lemma in_vec_spec {A} i (v : list A) :
  in_vec i v = true <-> 0 <= i < Z.of_nat (length v).
Proof. unfold in_vec. lia. Qed.

Lemma in_vec_set {A} j (v : list A) i a : in_vec j (vec_set v i a) = in_vec j v.
Proof. unfold in_vec, vec_set. now rewrite length_insert. Qed.

Lemma in_vec_length {A B} i (v : list A) (w : list B) :
  length v = length w -> in_vec i v = in_vec i w.
Proof. unfold in_vec. now intros ->. Qed.

Lemma vec_get_set_eq v i a : in_vec i v = true -> vec_get (vec_set v i a) i = a.
Proof.
  intros H%in_vec_spec. unfold vec_get, vec_set.
  rewrite list_lookup_insert_eq; [reflexivity | lia].
Qed.

Lemma vec_get_set_ne v i j a :
  0 <= i -> 0 <= j -> i <> j -> vec_get (vec_set v i a) j = vec_get v j.
Proof.
  intros Hi Hj Hne. unfold vec_get, vec_set.
  rewrite list_lookup_insert_ne; [reflexivity | lia].
Qed.

Lemma vec_get_replicate n a i :
  in_vec i (replicate n a) = true -> vec_get (replicate n a) i = a.
Proof.
  intros H%in_vec_spec. rewrite length_replicate in H. unfold vec_get.
  rewrite lookup_replicate_2; [reflexivity | lia].
Qed.

Lemma forallb_vec_get (P : Z -> bool) v i :
  forallb P v = true -> in_vec i v = true -> P (vec_get v i) = true.
Proof.
  intros HP Hi%in_vec_spec. unfold vec_get.
  destruct (v !! Z.to_nat i) as [s|] eqn:E.
  - simpl. rewrite forallb_forall in HP. apply HP.
    apply list_elem_of_In. eapply list_elem_of_lookup_2; eauto.
  - apply lookup_ge_None in E. lia.
Qed.

(** ** Scratch store: reads after writes *)

Lemma isClosed_setClosed_eq pf i g :
  in_vec i (m_closedGeneration pf) = true -> isClosed (setClosed pf i g) i g = true.
Proof.
  intros H. unfold isClosed, setClosed. rewrite H. simpl.
  rewrite in_vec_set, H, vec_get_set_eq by assumption. simpl. apply Z.eqb_refl.
Qed.

Lemma isClosed_setClosed_ne pf i j g g' :
  i <> j -> isClosed (setClosed pf i g) j g' = isClosed pf j g'.
Proof.
  intros Hne. unfold isClosed, setClosed.
  destruct (in_vec i (m_closedGeneration pf)) eqn:Hi; [|reflexivity]. simpl.
  rewrite in_vec_set.
  destruct (in_vec j (m_closedGeneration pf)) eqn:Hj; [|reflexivity]. simpl.
  apply in_vec_spec in Hi, Hj. rewrite vec_get_set_ne by lia. reflexivity.
Qed.

Lemma getGCost_setGCost_ne pf i j g g' c :
  i <> j -> getGCost (setGCost pf i g c) j g' = getGCost pf j g'.
Proof.
  intros Hne. unfold getGCost, setGCost.
  destruct (in_vec i (m_gCostGeneration pf)) eqn:Hi; [|reflexivity]. simpl.
  rewrite in_vec_set.
  destruct (in_vec j (m_gCostGeneration pf)) eqn:Hj; [|reflexivity]. simpl.
  apply in_vec_spec in Hi, Hj. rewrite !vec_get_set_ne by lia. reflexivity.
Qed.

Lemma hasParent_setParent_ne pf i j g g' p :
  i <> j -> hasParent (setParent pf i g p) j g' = hasParent pf j g'.
Proof.
  intros Hne. unfold hasParent, setParent.
  destruct (in_vec i (m_parentGeneration pf)) eqn:Hi; [|reflexivity]. simpl.
  rewrite in_vec_set.
  destruct (in_vec j (m_parentGeneration pf)) eqn:Hj; [|reflexivity]. simpl.
  apply in_vec_spec in Hi, Hj. rewrite !vec_get_set_ne by lia. reflexivity.
Qed.

Lemma getParent_setParent_ne pf i j g g' p :
  i <> j -> getParent (setParent pf i g p) j g' = getParent pf j g'.
Proof.
  intros Hne. unfold getParent. rewrite hasParent_setParent_ne by assumption.
  destruct (hasParent pf j g') eqn:Hp; [|reflexivity].
  unfold setParent.
  destruct (in_vec i (m_parentGeneration pf)) eqn:Hi; [|reflexivity]. simpl.
  apply andb_true_iff in Hp as [Hj _]. apply in_vec_spec in Hi, Hj.
  rewrite vec_get_set_ne by lia. reflexivity.
Qed.

(** Writes to one array are invisible to the readers of the others. *)

Lemma isClosed_setGCost pf i g c j g' : isClosed (setGCost pf i g c) j g' = isClosed pf j g'.
Proof. unfold setGCost. now destruct (in_vec _ _). Qed.

Lemma isClosed_setParent pf i g p j g' : isClosed (setParent pf i g p) j g' = isClosed pf j g'.
Proof. unfold setParent. now destruct (in_vec _ _). Qed.

Lemma getGCost_setClosed pf i g j g' : getGCost (setClosed pf i g) j g' = getGCost pf j g'.
Proof. unfold setClosed. now destruct (in_vec _ _). Qed.

Lemma getGCost_setParent pf i g p j g' : getGCost (setParent pf i g p) j g' = getGCost pf j g'.
Proof. unfold setParent. now destruct (in_vec _ _). Qed.

Lemma hasParent_setClosed pf i g j g' : hasParent (setClosed pf i g) j g' = hasParent pf j g'.
Proof. unfold setClosed. now destruct (in_vec _ _). Qed.

Lemma hasParent_setGCost pf i g c j g' : hasParent (setGCost pf i g c) j g' = hasParent pf j g'.
Proof. unfold setGCost. now destruct (in_vec _ _). Qed.

Lemma getParent_setClosed pf i g j g' : getParent (setClosed pf i g) j g' = getParent pf j g'.
Proof. unfold setClosed. now destruct (in_vec _ _). Qed.

Lemma getParent_setGCost pf i g c j g' : getParent (setGCost pf i g c) j g' = getParent pf j g'.
Proof. unfold setGCost. now destruct (in_vec _ _). Qed.

(** ** Fresh generations *)

Lemma stamps_ok_spec pf :
  stamps_ok pf = true ->
  0 <= m_generationCounter pf < UINT32_MOD /\
  (forall i, in_vec i (m_closedGeneration pf) = true ->
             vec_get (m_closedGeneration pf) i <= m_generationCounter pf) /\
  (forall i, in_vec i (m_gCostGeneration pf) = true ->
             vec_get (m_gCostGeneration pf) i <= m_generationCounter pf) /\
  (forall i, in_vec i (m_parentGeneration pf) = true ->
             vec_get (m_parentGeneration pf) i <= m_generationCounter pf).
Proof.
  unfold stamps_ok. rewrite !andb_true_iff.
  intros [[[[H0 H1] Hc] Hg] Hp]. split; [lia|].
  repeat split; intros i Hi;
    match goal with H : forallb _ ?v = true |- vec_get ?v _ <= _ =>
      pose proof (forallb_vec_get _ _ _ H Hi) as Hle; simpl in Hle; lia end.
Qed.

Lemma unstamped_reads pf g i :
  unstamped pf g ->
  getGCost pf i g = INT_MAX /\ hasParent pf i g = false /\
  getParent pf i g = -1 /\ isClosed pf i g = false.
Proof.
  intros (Hc & Hg & Hp).
  assert (Hhp : hasParent pf i g = false).
  { unfold hasParent. destruct (in_vec i _) eqn:E; [|reflexivity]. simpl.
    apply Z.eqb_neq. now apply Hp. }
  repeat split.
  - unfold getGCost. destruct (in_vec i _) eqn:E; [|reflexivity]. simpl.
    destruct (Z.eqb_spec (vec_get (m_gCostGeneration pf) i) g) as [Heq|]; [|reflexivity].
    now apply Hg in Heq.
  - exact Hhp.
  - unfold getParent. now rewrite Hhp.
  - unfold isClosed. destruct (in_vec i _) eqn:E; [|reflexivity]. simpl.
    apply Z.eqb_neq. now apply Hc.
Qed.

Lemma incr_uint32_cases c :
  0 <= c < UINT32_MOD ->
  (incr_uint32 c = 0 /\ c = UINT32_MOD - 1) \/
  (incr_uint32 c = c + 1 /\ c + 1 < UINT32_MOD).
Proof.
  intros Hc. unfold incr_uint32.
  destruct (Z.eq_dec c (UINT32_MOD - 1)) as [->|Hne].
  - left. split; [|reflexivity]. now vm_compute.
  - right. split; [|lia]. apply Z.mod_small. lia.
Qed.

Lemma nextGeneration_overflow pf :
  incr_uint32 (m_generationCounter pf) = 0 ->
  nextGeneration pf =
  (with_counter 1 (resetGenerations (with_counter 0 pf)), 1).
Proof.
  intros H. unfold nextGeneration. rewrite H. simpl. reflexivity.
Qed.

Lemma nextGeneration_plain pf :
  incr_uint32 (m_generationCounter pf) <> 0 ->
  nextGeneration pf =
  (with_counter (incr_uint32 (m_generationCounter pf)) pf,
   incr_uint32 (m_generationCounter pf)).
Proof.
  intros H. unfold nextGeneration.
  destruct (Z.eqb_spec (incr_uint32 (m_generationCounter pf)) 0); [contradiction|reflexivity].
Qed.

Lemma nextGeneration_counter pf :
  m_generationCounter (fst (nextGeneration pf)) = snd (nextGeneration pf).
Proof. unfold nextGeneration. now destruct (_ =? 0). Qed.

Lemma nextGeneration_unstamped pf :
  stamps_ok pf = true ->
  unstamped (fst (nextGeneration pf)) (snd (nextGeneration pf)) /\
  0 < snd (nextGeneration pf) < UINT32_MOD.
Proof.
  intros (Hc & Hcl & Hgc & Hpa)%stamps_ok_spec.
  destruct (incr_uint32_cases _ Hc) as [[H0 Hmax] | [Hs Hlt]].
  - rewrite nextGeneration_overflow by assumption. simpl.
    split; [|now vm_compute].
    repeat split; intros i Hi; simpl in *;
      rewrite vec_get_replicate by assumption; discriminate.
  - rewrite nextGeneration_plain by lia. simpl. rewrite Hs.
    split; [|lia].
    repeat split; intros i Hi; simpl in *;
      [specialize (Hcl i Hi) | specialize (Hgc i Hi) | specialize (Hpa i Hi)]; lia.
Qed.

Lemma getGCost_apply_ops g ops : forall pf i,
  existsb (writes_gcost i) ops = false ->
  getGCost (apply_ops g ops pf) i g = getGCost pf i g.
Proof.
  induction ops as [|op ops IH]; intros pf i H; [reflexivity|].
  simpl in H. apply orb_false_iff in H as [Hop Hops].
  unfold apply_ops in *. simpl. rewrite IH by assumption.
  destruct op as [j c | j p | j]; simpl in *.
  - apply getGCost_setGCost_ne. now apply Z.eqb_neq.
  - apply getGCost_setParent.
  - apply getGCost_setClosed.
Qed.

Lemma parent_apply_ops g ops : forall pf i,
  existsb (writes_parent i) ops = false ->
  hasParent (apply_ops g ops pf) i g = hasParent pf i g /\
  getParent (apply_ops g ops pf) i g = getParent pf i g.
Proof.
  induction ops as [|op ops IH]; intros pf i H; [split; reflexivity|].
  simpl in H. apply orb_false_iff in H as [Hop Hops].
  unfold apply_ops in *. simpl.
  destruct (IH (apply_op g pf op) i Hops) as [-> ->].
  destruct op as [j c | j p | j]; simpl in *.
  - now rewrite hasParent_setGCost, getParent_setGCost.
  - apply Z.eqb_neq in Hop.
    now rewrite hasParent_setParent_ne, getParent_setParent_ne.
  - now rewrite hasParent_setClosed, getParent_setClosed.
Qed.

Lemma isClosed_apply_ops g ops : forall pf i,
  existsb (writes_closed i) ops = false ->
  isClosed (apply_ops g ops pf) i g = isClosed pf i g.
Proof.
  induction ops as [|op ops IH]; intros pf i H; [reflexivity|].
  simpl in H. apply orb_false_iff in H as [Hop Hops].
  unfold apply_ops in *. simpl. rewrite IH by assumption.
  destruct op as [j c | j p | j]; simpl in *.
  - apply isClosed_setGCost.
  - apply isClosed_setParent.
  - apply isClosed_setClosed_ne. now apply Z.eqb_neq.
Qed.

(** C5.  From a store whose stamps were all issued by the counter,
    [nextGeneration] returns a non-zero generation [g], equal to the new
    counter, at which every read yields its sentinel (infinite cost, no
    parent, not closed) and keeps doing so through any sequence of writes
    stamped [g] until one of them writes that array at that index.  The
    arrays are cleared and the counter restarted (so that [g = 1]) exactly
    when the increment wraps to zero; otherwise only the counter changes. *)
Theorem nextGeneration_fresh pf :
  stamps_ok pf = true ->
  let pf' := fst (nextGeneration pf) in
  let g := snd (nextGeneration pf) in
  g <> 0 /\ m_generationCounter pf' = g /\
  (forall ops i,
     (existsb (writes_gcost i) ops = false ->
      getGCost (apply_ops g ops pf') i g = INT_MAX) /\
     (existsb (writes_parent i) ops = false ->
      hasParent (apply_ops g ops pf') i g = false /\
      getParent (apply_ops g ops pf') i g = -1) /\
     (existsb (writes_closed i) ops = false ->
      isClosed (apply_ops g ops pf') i g = false)) /\
  (incr_uint32 (m_generationCounter pf) = 0 ->
   g = 1 /\ pf' = with_counter 1 (resetGenerations (with_counter 0 pf)) /\
   m_closedGeneration pf' = replicate (length (m_closedGeneration pf)) 0 /\
   m_gCostGeneration pf' = replicate (length (m_gCostGeneration pf)) 0 /\
   m_gCostValues pf' = replicate (length (m_gCostValues pf)) INT_MAX /\
   m_parentGeneration pf' = replicate (length (m_parentGeneration pf)) 0 /\
   m_parentValues pf' = replicate (length (m_parentValues pf)) (-1)) /\
  (incr_uint32 (m_generationCounter pf) <> 0 ->
   g = m_generationCounter pf + 1 /\ pf' = with_counter g pf).
Proof.
  intros Hok pf' g.
  destruct (nextGeneration_unstamped pf Hok) as [Hun Hg].
  fold pf' g in Hun, Hg.
  split; [lia|]. split; [apply nextGeneration_counter|].
  split; [|split].
  - intros ops i. destruct (unstamped_reads pf' g i Hun) as (H1 & H2 & H3 & H4).
    repeat split.
    + intros H. now rewrite getGCost_apply_ops.
    + destruct (parent_apply_ops g ops pf' i H) as [-> _]. exact H2.
    + destruct (parent_apply_ops g ops pf' i H) as [_ ->]. exact H3.
    + intros H. now rewrite isClosed_apply_ops.
  - intros H0. subst pf' g. rewrite nextGeneration_overflow by assumption.
    simpl. repeat split; reflexivity.
  - intros Hne. subst pf' g. rewrite nextGeneration_plain by assumption. simpl.
    split; [|reflexivity].
    apply stamps_ok_spec in Hok as [Hc _].
    destruct (incr_uint32_cases _ Hc) as [[H0 _] | [Hs _]]; [contradiction | exact Hs].
Qed.

(** ** Obstacle grid: single-cell writes *)

Lemma grid_ok_shape pf :
  grid_ok pf = true ->
  0 <= m_width pf /\ 0 <= m_height pf /\
  grid_shape (m_width pf) (m_height pf) (m_obstacles pf).
Proof.
  unfold grid_ok, grid_shape. rewrite !andb_true_iff.
  intros [[[Hw Hh] Hl] Hr]. repeat split; try lia.
  - now apply Nat.eqb_eq.
  - apply Forall_forall. intros row Hin. rewrite forallb_forall in Hr.
    apply Nat.eqb_eq, Hr. now apply list_elem_of_In.
Qed.

Lemma shape_grid_ok pf :
  0 <= m_width pf -> 0 <= m_height pf ->
  grid_shape (m_width pf) (m_height pf) (m_obstacles pf) ->
  grid_ok pf = true.
Proof.
  intros Hw Hh [Hl Hr]. unfold grid_ok. rewrite !andb_true_iff.
  repeat split; try lia.
  - now apply Nat.eqb_eq.
  - apply forallb_forall. intros row Hin. apply Nat.eqb_eq.
    rewrite Forall_forall in Hr. apply Hr. now apply list_elem_of_In.
Qed.

Lemma grid_shape_row w h g z :
  grid_shape w h g -> 0 <= z < h ->
  exists row, g !! Z.to_nat z = Some row /\ length row = Z.to_nat w.
Proof.
  intros [Hl Hr] Hz.
  destruct (lookup_lt_is_Some_2 g (Z.to_nat z)) as [row Hrow]; [lia|].
  exists row. split; [assumption|].
  rewrite Forall_forall in Hr. apply Hr. eapply list_elem_of_lookup_2; eauto.
Qed.

Lemma obstacle_set_shape w h g x z v :
  grid_shape w h g -> grid_shape w h (obstacle_set g x z v).
Proof.
  intros [Hl Hr]. unfold obstacle_set, grid_shape.
  rewrite length_alter. split; [assumption|].
  apply Forall_alter; [assumption|].
  intros row Hrow Hin. unfold vec_set. rewrite length_insert.
  rewrite Forall_forall in Hr. apply Hr. eapply list_elem_of_lookup_2; eauto.
Qed.

Lemma obstacle_at_set w h g a b v x z :
  grid_shape w h g ->
  0 <= a < w -> 0 <= b < h -> 0 <= x -> 0 <= z ->
  obstacle_at (obstacle_set g a b v) x z =
  if (a =? x) && (b =? z) then v else obstacle_at g x z.
Proof.
  intros Hs Ha Hb Hx Hz. unfold obstacle_at, obstacle_set.
  destruct (grid_shape_row _ _ _ _ Hs Hb) as (row & Hrow & Hlen).
  destruct (Z.eqb_spec b z) as [->|Hbz].
  - rewrite list_lookup_alter_eq, Hrow. simpl.
    destruct (Z.eqb_spec a x) as [->|Hax]; simpl.
    + apply vec_get_set_eq. apply in_vec_spec. lia.
    + apply vec_get_set_ne; lia.
  - rewrite andb_false_r. rewrite list_lookup_alter_ne by lia. reflexivity.
Qed.

Lemma blocked_in_set w h g a b x z :
  grid_shape w h g ->
  0 <= a < w -> 0 <= b < h -> 0 <= x -> 0 <= z ->
  blocked_in (obstacle_set g a b 1) x z = blocked_in g x z || ((a =? x) && (b =? z)).
Proof.
  intros Hs Ha Hb Hx Hz. unfold blocked_in.
  rewrite (obstacle_at_set w h) by assumption.
  destruct ((a =? x) && (b =? z)); simpl.
  - now rewrite orb_true_r.
  - now rewrite orb_false_r.
Qed.

Lemma isWalkable_blocked_in pf x z :
  in_grid pf x z = true ->
  isWalkable pf x z = negb (blocked_in (m_obstacles pf) x z).
Proof.
  unfold in_grid, isWalkable, blocked_in. intros H.
  replace ((x <? 0) || (x >=? m_width pf) || (z <? 0) || (z >=? m_height pf))
    with false by (symmetry; lia).
  now rewrite negb_involutive.
Qed.

(** ** Rebuild pass *)

(** A fold whose every step preserves [I] and can only raise the flag
    [val], by [hit c]. *)
Lemma marking_fold {G C} (f : G -> C -> G) (hit : C -> bool)
    (I : G -> Prop) (val : G -> bool) (cs : list C) :
  (forall g c, In c cs -> I g -> I (f g c) /\ val (f g c) = val g || hit c) ->
  forall g, I g -> I (foldl f g cs) /\ val (foldl f g cs) = val g || existsb hit cs.
Proof.
  induction cs as [|c cs IH]; intros Hstep g Hg; simpl.
  - split; [assumption|]. now rewrite orb_false_r.
  - destruct (Hstep g c (or_introl eq_refl) Hg) as [HI Hv].
    destruct (IH (fun g' c' Hin => Hstep g' c' (or_intror Hin)) (f g c) HI) as [HI' Hv'].
    split; [assumption|]. rewrite Hv', Hv. now rewrite orb_assoc.
Qed.

Lemma existsb_seqZ_pick (P : Z -> bool) n x :
  0 <= x < n -> existsb (fun a => (a =? x) && P a) (seqZ 0 n) = P x.
Proof.
  intros Hx. destruct (P x) eqn:E.
  - apply existsb_exists. exists x. split.
    + apply list_elem_of_In, elem_of_seqZ. lia.
    + now rewrite Z.eqb_refl.
  - apply not_true_is_false. intros (a & _ & Ha)%existsb_exists.
    apply andb_true_iff in Ha as [->%Z.eqb_eq Hp]. congruence.
Qed.

Lemma terrain_cell_step ts tw th w h g a b x z :
  grid_shape w h g -> 0 <= a < w -> 0 <= b < h -> 0 <= x -> 0 <= z ->
  grid_shape w h (terrain_cell ts tw th g a b) /\
  blocked_in (terrain_cell ts tw th g a b) x z =
  blocked_in g x z ||
  ((a =? x) && (b =? z) &&
   (if (a <? tw) && (b <? th) then negb (terrain_isWalkable ts a b) else true)).
Proof.
  intros Hs Ha Hb Hx Hz. unfold terrain_cell.
  destruct (if (a <? tw) && (b <? th) then _ else true).
  - split; [now apply obstacle_set_shape|].
    rewrite (blocked_in_set w h) by assumption. now rewrite andb_true_r.
  - split; [assumption|]. now rewrite andb_false_r, orb_false_r.
Qed.

Lemma terrain_pass_spec ts pf g x z :
  grid_shape (m_width pf) (m_height pf) g ->
  0 <= x < m_width pf -> 0 <= z < m_height pf ->
  grid_shape (m_width pf) (m_height pf) (terrain_pass ts pf g) /\
  blocked_in (terrain_pass ts pf g) x z = blocked_in g x z || terrain_blocks ts x z.
Proof.
  intros Hs Hx Hz. unfold terrain_pass.
  set (tw := match getHeightMap ts with Some (w, _) => w | None => 0 end).
  set (th := match getHeightMap ts with Some (_, h) => h | None => 0 end).
  set (tb := fun a b => if (a <? tw) && (b <? th)
                        then negb (terrain_isWalkable ts a b) else true).
  assert (Hrow : forall g0 b, In b (seqZ 0 (m_height pf)) ->
            grid_shape (m_width pf) (m_height pf) g0 ->
            grid_shape (m_width pf) (m_height pf)
              (foldl (fun g1 a => terrain_cell ts tw th g1 a b) g0 (seqZ 0 (m_width pf))) /\
            blocked_in (foldl (fun g1 a => terrain_cell ts tw th g1 a b) g0
                          (seqZ 0 (m_width pf))) x z =
            blocked_in g0 x z || ((b =? z) && tb x b)).
  { intros g0 b Hb%list_elem_of_In%elem_of_seqZ Hg0.
    destruct (marking_fold (fun g1 a => terrain_cell ts tw th g1 a b)
                (fun a => (a =? x) && ((b =? z) && tb a b))
                (grid_shape (m_width pf) (m_height pf))
                (fun g1 => blocked_in g1 x z) (seqZ 0 (m_width pf))) with (g := g0)
      as [HI Hv]; [|assumption|].
    - intros g1 a Ha%list_elem_of_In%elem_of_seqZ Hg1.
      destruct (terrain_cell_step ts tw th _ _ g1 a b x z Hg1) as [H1 H2]; try lia.
      split; [assumption|]. rewrite H2. unfold tb. now rewrite andb_assoc.
    - split; [assumption|]. rewrite Hv.
      now rewrite (existsb_seqZ_pick (fun a => (b =? z) && tb a b)) by lia. }
  destruct (marking_fold
              (fun g0 b => foldl (fun g1 a => terrain_cell ts tw th g1 a b) g0
                             (seqZ 0 (m_width pf)))
              (fun b => (b =? z) && tb x b)
              (grid_shape (m_width pf) (m_height pf))
              (fun g1 => blocked_in g1 x z) (seqZ 0 (m_height pf))) with (g := g)
    as [HI Hv]; [|assumption|].
  - intros g0 b Hb Hg0. now apply Hrow.
  - split; [assumption|]. rewrite Hv.
    rewrite (existsb_seqZ_pick (fun b => tb x b)) by lia. reflexivity.
Qed.

Lemma building_cell_step env pf g cell x z :
  grid_shape (m_width pf) (m_height pf) g -> 0 <= x -> 0 <= z ->
  grid_shape (m_width pf) (m_height pf) (building_cell env pf g cell) /\
  (x < m_width pf -> z < m_height pf ->
   blocked_in (building_cell env pf g cell) x z =
   blocked_in g x z ||
   ((round_offset env (fst cell) (m_gridOffsetX pf) =? x) &&
    (round_offset env (snd cell) (m_gridOffsetZ pf) =? z))).
Proof.
  intros Hs Hx Hz. unfold building_cell.
  set (gx := round_offset env (fst cell) (m_gridOffsetX pf)).
  set (gz := round_offset env (snd cell) (m_gridOffsetZ pf)).
  destruct ((gx >=? 0) && (gx <? m_width pf) && (gz >=? 0) && (gz <? m_height pf)) eqn:E.
  - split; [now apply obstacle_set_shape|]. intros _ _.
    apply (blocked_in_set (m_width pf) (m_height pf)); try assumption; lia.
  - split; [assumption|]. intros Hxw Hzh.
    replace ((gx =? x) && (gz =? z)) with false; [now rewrite orb_false_r|].
    symmetry. apply not_true_is_false. intros H. lia.
Qed.

Lemma building_pass_spec env pf g x z :
  grid_shape (m_width pf) (m_height pf) g ->
  0 <= x < m_width pf -> 0 <= z < m_height pf ->
  grid_shape (m_width pf) (m_height pf) (building_pass env pf g) /\
  blocked_in (building_pass env pf g) x z = blocked_in g x z || building_covers env pf x z.
Proof.
  intros Hs Hx Hz. unfold building_pass, building_covers.
  apply (marking_fold _ _ (grid_shape (m_width pf) (m_height pf))
           (fun g1 => blocked_in g1 x z)); [|assumption].
  intros g0 cells _ Hg0.
  apply (marking_fold (building_cell env pf) _ (grid_shape (m_width pf) (m_height pf))
           (fun g1 => blocked_in g1 x z)); [|assumption].
  intros g1 cell _ Hg1.
  destruct (building_cell_step env pf g1 cell x z Hg1) as [H1 H2]; try lia.
  split; [assumption|]. apply H2; lia.
Qed.

Lemma cleared_grid w h g :
  grid_shape w h g ->
  grid_shape w h (map (fun row => replicate (length row) 0) g) /\
  forall x z, blocked_in (map (fun row => replicate (length row) 0) g) x z = false.
Proof.
  intros [Hl Hr]. split.
  - split; [now rewrite length_map|].
    apply Forall_forall. intros row (r & -> & Hin)%list_elem_of_fmap.
    rewrite length_replicate. rewrite Forall_forall in Hr. now apply Hr.
  - intros x z. unfold blocked_in, obstacle_at.
    change (map ?f g) with (f <$> g). rewrite list_lookup_fmap.
    destruct (g !! Z.to_nat z) as [row|]; simpl; [|reflexivity].
    unfold vec_get. destruct (replicate (length row) 0 !! Z.to_nat x) as [v|] eqn:E;
      [|reflexivity].
    apply lookup_replicate in E as [-> _]. reflexivity.
Qed.

Lemma rebuild_spec env pf x z :
  grid_ok pf = true -> m_obstaclesDirty pf = true -> in_grid pf x z = true ->
  grid_ok (updateBuildingObstacles env pf) = true /\
  blocked_in (m_obstacles (updateBuildingObstacles env pf)) x z =
  (isInitialized (terrain_service env) && terrain_blocks (terrain_service env) x z)
  || building_covers env pf x z.
Proof.
  intros (Hw & Hh & Hs)%grid_ok_shape Hd Hin.
  assert (Hx : 0 <= x < m_width pf) by (unfold in_grid in Hin; lia).
  assert (Hz : 0 <= z < m_height pf) by (unfold in_grid in Hin; lia).
  unfold updateBuildingObstacles. rewrite Hd. simpl.
  destruct (cleared_grid _ _ _ Hs) as [Hs0 Hb0].
  set (g0 := map (fun row => replicate (length row) 0) (m_obstacles pf)) in *.
  set (g1 := if isInitialized (terrain_service env)
             then terrain_pass (terrain_service env) pf g0 else g0).
  assert (H1 : grid_shape (m_width pf) (m_height pf) g1 /\
               blocked_in g1 x z =
               isInitialized (terrain_service env) &&
               terrain_blocks (terrain_service env) x z).
  { subst g1. destruct (isInitialized (terrain_service env)).
    - destruct (terrain_pass_spec (terrain_service env) pf g0 x z Hs0 Hx Hz) as [Ha Hb].
      split; [assumption|]. now rewrite Hb, Hb0.
    - split; [assumption|]. now rewrite Hb0. }
  destruct H1 as [Hs1 Hb1].
  destruct (building_pass_spec env pf g1 x z Hs1 Hx Hz) as [Hs2 Hb2].
  split.
  - now apply shape_grid_ok.
  - now rewrite Hb2, Hb1.
Qed.

(** C4 (as amended).  After the rebuild that a set dirty flag triggers, the
    flag is clear, the grid keeps its shape (footprint cells that convert to
    coordinates outside the grid change nothing), and an in-range cell is
    blocked exactly when the terrain service is initialised and reports the
    cell unwalkable or out of its bounds, or when some footprint cell of a
    registered building converts to it.  With an uninitialised terrain
    service only the buildings block. *)
Theorem rebuild_grid env pf x z :
  grid_ok pf = true -> m_obstaclesDirty pf = true -> in_grid pf x z = true ->
  m_obstaclesDirty (updateBuildingObstacles env pf) = false /\
  grid_ok (updateBuildingObstacles env pf) = true /\
  (isWalkable (updateBuildingObstacles env pf) x z = false <->
   (isInitialized (terrain_service env) = true /\
    terrain_blocks (terrain_service env) x z = true) \/
   building_covers env pf x z = true).
Proof.
  intros Hok Hd Hin.
  destruct (rebuild_spec env pf x z Hok Hd Hin) as [Hok' Hb].
  split; [apply dirty_updateBuildingObstacles|]. split; [assumption|].
  rewrite isWalkable_blocked_in.
  - rewrite negb_false_iff, Hb, orb_true_iff, andb_true_iff. reflexivity.
  - unfold updateBuildingObstacles. rewrite Hd. exact Hin.
Qed.

Lemma rebuild_grid_witness :
  isWalkable
    (updateBuildingObstacles
       (mkEnv (mkTerrain true (Some (2, 1)) (fun x _ => x =? 0)) [[(5, 3)]]
              (fun c _ => c - 3))
       (Pathfinding_ctor 4 1)) 2 0 = false.
Proof.
  apply rebuild_grid; try reflexivity.
  right. reflexivity.
Defined.

(** The claim C4 as stated fails when the terrain service is not
    initialised.  On a 1 x 1 grid with no buildings the only cell is outside
    the bounds of a terrain source that has no height map, and it is
    reported unwalkable by one that has; either way the rebuild leaves it
    walkable, because the terrain pass is skipped. *)
Lemma rebuild_uninitialised_terrain :
  let pf := Pathfinding_ctor 1 1 in
  let env1 := mkEnv (mkTerrain false None (fun _ _ => true)) [] (fun c _ => c) in
  let env2 := mkEnv (mkTerrain false (Some (1, 1)) (fun _ _ => false)) []
                    (fun c _ => c) in
  grid_ok pf = true /\ m_obstaclesDirty pf = true /\ in_grid pf 0 0 = true /\
  ~ (isWalkable (updateBuildingObstacles env1 pf) 0 0 = false <->
     terrain_blocks (terrain_service env1) 0 0 = true \/
     building_covers env1 pf 0 0 = true) /\
  ~ (isWalkable (updateBuildingObstacles env2 pf) 0 0 = false <->
     terrain_blocks (terrain_service env2) 0 0 = true \/
     building_covers env2 pf 0 0 = true).
Proof.
  cbv zeta. repeat split; try reflexivity;
    intros [_ H]; specialize (H (or_introl eq_refl)); vm_compute in H; discriminate.
Qed.

(** ** Scratch store: sizes and counter through a search *)

Lemma lengths_setClosed pf i g : scratch_lengths (setClosed pf i g) = scratch_lengths pf.
Proof.
  unfold setClosed, scratch_lengths. destruct (in_vec _ _); [|reflexivity].
  simpl. unfold vec_set. now rewrite length_insert.
Qed.

Lemma lengths_setGCost pf i g c : scratch_lengths (setGCost pf i g c) = scratch_lengths pf.
Proof.
  unfold setGCost, scratch_lengths. destruct (in_vec _ _); [|reflexivity].
  simpl. unfold vec_set. now rewrite !length_insert.
Qed.

Lemma lengths_setParent pf i g p : scratch_lengths (setParent pf i g p) = scratch_lengths pf.
Proof.
  unfold setParent, scratch_lengths. destruct (in_vec _ _); [|reflexivity].
  simpl. unfold vec_set. now rewrite !length_insert.
Qed.

Lemma lengths_popOpenNode pf : scratch_lengths (snd (popOpenNode pf)) = scratch_lengths pf.
Proof. unfold popOpenNode. now destruct (take _ _). Qed.

Lemma lengths_nextGeneration pf :
  scratch_lengths (fst (nextGeneration pf)) = scratch_lengths pf.
Proof.
  unfold nextGeneration. destruct (_ =? 0); [|reflexivity].
  unfold scratch_lengths. simpl. now rewrite !length_replicate.
Qed.

Lemma lengths_relax_neighbors ns : forall pf g cur e,
  scratch_lengths (relax_neighbors pf g cur e ns) = scratch_lengths pf.
Proof.
  induction ns as [|n ns IH]; intros pf g cur e; simpl; [reflexivity|].
  repeat match goal with |- context [if ?b then _ else _] => destruct b end;
    rewrite ?IH; try reflexivity.
  change (scratch_lengths (pushOpenNode ?p ?n)) with (scratch_lengths p).
  now rewrite lengths_setParent, lengths_setGCost.
Qed.

Lemma counter_setClosed pf i g :
  m_generationCounter (setClosed pf i g) = m_generationCounter pf.
Proof. unfold setClosed. now destruct (in_vec _ _). Qed.

Lemma counter_setGCost pf i g c :
  m_generationCounter (setGCost pf i g c) = m_generationCounter pf.
Proof. unfold setGCost. now destruct (in_vec _ _). Qed.

Lemma counter_setParent pf i g p :
  m_generationCounter (setParent pf i g p) = m_generationCounter pf.
Proof. unfold setParent. now destruct (in_vec _ _). Qed.

Lemma counter_popOpenNode pf :
  m_generationCounter (snd (popOpenNode pf)) = m_generationCounter pf.
Proof. unfold popOpenNode. now destruct (take _ _). Qed.

Lemma counter_relax_neighbors ns : forall pf g cur e,
  m_generationCounter (relax_neighbors pf g cur e ns) = m_generationCounter pf.
Proof.
  induction ns as [|n ns IH]; intros pf g cur e; simpl; [reflexivity|].
  repeat match goal with |- context [if ?b then _ else _] => destruct b end;
    rewrite ?IH; try reflexivity.
  change (m_generationCounter (pushOpenNode ?p ?n)) with (m_generationCounter p).
  now rewrite counter_setParent, counter_setGCost.
Qed.

Lemma in_vec_closed_lengths pf pf' i :
  scratch_lengths pf' = scratch_lengths pf ->
  in_vec i (m_closedGeneration pf') = in_vec i (m_closedGeneration pf).
Proof. unfold scratch_lengths. intros H. apply in_vec_length. congruence. Qed.

(** ** Iteration budget *)

Lemma search_loop_budget budget : forall pf g ei e it pf' fc it',
  search_loop budget pf g ei e it = (pf', fc, it') ->
  it <= it' <= it + Z.of_nat budget /\
  scratch_lengths pf' = scratch_lengths pf /\
  m_generationCounter pf' = m_generationCounter pf /\
  (fc <> -1 -> in_vec ei (m_closedGeneration pf) = true -> isClosed pf' ei g = true).
Proof.
  induction budget as [|b IH]; intros pf g ei e it pf' fc it' H; simpl in H.
  - inversion H; subst. repeat split; try lia; congruence.
  - destruct (m_openHeap pf) eqn:Hh.
    + inversion H; subst. repeat split; try lia; congruence.
    + pose proof (lengths_popOpenNode pf) as Hlen.
      pose proof (counter_popOpenNode pf) as Hcnt.
      destruct (popOpenNode pf) as [cur pf1]; simpl in Hlen, Hcnt.
      destruct (gCost cur >? getGCost pf1 (index cur) g).
      { apply IH in H as (H1 & H2 & H3 & H4). repeat split; try lia; try congruence.
        intros Hfc Hin. apply H4; [assumption|].
        now rewrite (in_vec_closed_lengths _ _ _ Hlen). }
      destruct (isClosed pf1 (index cur) g).
      { apply IH in H as (H1 & H2 & H3 & H4). repeat split; try lia; try congruence.
        intros Hfc Hin. apply H4; [assumption|].
        now rewrite (in_vec_closed_lengths _ _ _ Hlen). }
      destruct (Z.eqb_spec (index cur) ei) as [Heq|Hne].
      { inversion H; subst. repeat split; try lia.
        - now rewrite lengths_setClosed.
        - now rewrite counter_setClosed.
        - intros _ Hin. apply isClosed_setClosed_eq.
          now rewrite (in_vec_closed_lengths _ _ _ Hlen). }
      apply IH in H as (H1 & H2 & H3 & H4).
      rewrite lengths_relax_neighbors, lengths_setClosed in H2.
      rewrite counter_relax_neighbors, counter_setClosed in H3.
      repeat split; try lia; try congruence.
      intros Hfc Hin. apply H4; [assumption|].
      rewrite (in_vec_closed_lengths pf); [assumption|].
      now rewrite lengths_relax_neighbors, lengths_setClosed.
Qed.

Lemma findPathInternal_search pf s e :
  let pf0 := ensureWorkingBuffers pf in
  isWalkable pf0 (px s) (py s) = true ->
  isWalkable pf0 (px e) (py e) = true ->
  toIndex pf0 s <> toIndex pf0 e ->
  let g := snd (nextGeneration pf0) in
  let r := search_loop (Z.to_nat (max_iterations pf0)) (seeded pf0 s e) g
             (toIndex pf0 e) e 0 in
  findPathInternal pf s e =
  (fst (fst r),
   if snd (fst r) <? 0 then Some []
   else buildPath (fst (fst r)) (toIndex pf0 s) (toIndex pf0 e) g (snd (fst r) + 1),
   snd r).
Proof.
  intros pf0 Hs He Hne g r. unfold findPathInternal. fold pf0.
  rewrite Hs, He. simpl.
  destruct (Z.eqb_spec (toIndex pf0 s) (toIndex pf0 e)) as [Heq|_]; [contradiction|].
  subst r g. unfold seeded, max_iterations.
  pose proof (frame_nextGeneration pf0) as Hfr.
  destruct (nextGeneration pf0) as [pf1 g] eqn:Hng. simpl in Hfr |- *.
  match goal with |- context [m_width ?p * m_height ?p] =>
    assert (Hfr' : outside_scratch p = outside_scratch pf0)
      by (now rewrite frame_setParent, frame_setGCost, frame_with_openHeap);
    rewrite (outside_scratch_width _ _ Hfr'), (outside_scratch_height _ _ Hfr') end.
  destruct (search_loop _ _ _ _ _ _) as [[pf6 fc] its]. simpl.
  now destruct (fc <? 0).
Qed.

(** ** Cell indices *)

Lemma toIndex_range pf p :
  0 <= px p < m_width pf -> 0 <= py p < m_height pf ->
  0 <= toIndex pf p < m_width pf * m_height pf.
Proof. unfold toIndex. nia. Qed.

Lemma toPoint_toIndex pf p :
  0 <= px p < m_width pf -> 0 <= py p -> toPoint pf (toIndex pf p) = p.
Proof.
  intros Hx Hy. unfold toPoint, toIndex. destruct p as [x y]; simpl in *.
  assert (0 <= y * m_width pf + x) by nia.
  rewrite Z.rem_mod_nonneg, Z.quot_div_nonneg by lia.
  rewrite Z.add_comm, Z.mod_add, Z.div_add by lia.
  rewrite Z.mod_small, Z.div_small by lia. f_equal; lia.
Qed.

Lemma toIndex_inj pf p q :
  0 <= px p < m_width pf -> 0 <= py p ->
  0 <= px q < m_width pf -> 0 <= py q ->
  toIndex pf p = toIndex pf q -> p = q.
Proof.
  intros Hp1 Hp2 Hq1 Hq2 H.
  rewrite <- (toPoint_toIndex pf p), <- (toPoint_toIndex pf q) by assumption.
  now rewrite H.
Qed.

Lemma total_cells_Z pf :
  0 <= m_width pf -> 0 <= m_height pf ->
  Z.of_nat (total_cells pf) = m_width pf * m_height pf.
Proof. intros. unfold total_cells. lia. Qed.

Lemma closed_length_ensureWorkingBuffers pf :
  length (m_closedGeneration (ensureWorkingBuffers pf)) = total_cells pf.
Proof.
  unfold ensureWorkingBuffers.
  destruct (Nat.eqb_spec (length (m_closedGeneration pf)) (total_cells pf)) as [H|H].
  - exact H.
  - simpl. apply length_replicate.
Qed.

Lemma dims_refreshed env pf :
  m_width (refreshed env pf) = m_width pf /\ m_height (refreshed env pf) = m_height pf.
Proof.
  unfold refreshed, updateBuildingObstacles. now destruct (m_obstaclesDirty pf).
Qed.

Lemma toIndex_refreshed env pf p : toIndex (refreshed env pf) p = toIndex pf p.
Proof. unfold toIndex. now rewrite (proj1 (dims_refreshed env pf)). Qed.

Lemma walkable_index_in_closed pf p :
  isWalkable pf (px p) (py p) = true ->
  in_vec (toIndex pf p) (m_closedGeneration (ensureWorkingBuffers pf)) = true.
Proof.
  intros [Hx Hy]%isWalkable_in_grid. apply in_vec_spec.
  rewrite closed_length_ensureWorkingBuffers, total_cells_Z by lia.
  now apply toIndex_range.
Qed.

Lemma findPathInternal_budget pf s e :
  0 <= m_width pf -> 0 <= m_height pf ->
  0 <= snd (findPathInternal pf s e) <= m_width pf * m_height pf /\
  (s <> e ->
   isClosed (fst (fst (findPathInternal pf s e))) (toIndex pf e)
     (m_generationCounter (fst (fst (findPathInternal pf s e)))) = false ->
   snd (fst (findPathInternal pf s e)) = Some []).
Proof.
  intros Hw Hh.
  pose proof (frame_ensureWorkingBuffers pf) as Hfr.
  set (pf0 := ensureWorkingBuffers pf) in *.
  assert (Hnn : 0 <= m_width pf * m_height pf) by nia.
  destruct (isWalkable pf0 (px s) (py s)) eqn:Hs;
    [|rewrite findPathInternal_blocked
        by (left; now rewrite <- (outside_scratch_isWalkable _ _ _ _ Hfr));
      simpl; split; [lia | reflexivity]].
  destruct (isWalkable pf0 (px e) (py e)) eqn:He;
    [|rewrite findPathInternal_blocked
        by (right; now rewrite <- (outside_scratch_isWalkable _ _ _ _ Hfr));
      simpl; split; [lia | reflexivity]].
  rewrite (outside_scratch_isWalkable _ _ _ _ Hfr) in Hs.
  rewrite (outside_scratch_isWalkable _ _ _ _ Hfr) in He.
  pose proof (isWalkable_in_grid _ _ _ Hs) as [Hsx Hsy].
  pose proof (isWalkable_in_grid _ _ _ He) as [Hex Hey].
  destruct (decide (s = e)) as [->|Hse].
  - split; [|intros Hc; contradiction].
    unfold findPathInternal. fold pf0.
    rewrite !(outside_scratch_isWalkable _ _ _ _ Hfr), He. simpl.
    rewrite Z.eqb_refl. simpl. lia.
  - assert (Hidx : toIndex pf0 s <> toIndex pf0 e).
    { rewrite !(outside_scratch_toIndex _ _ _ Hfr).
      intros Heq. apply Hse. apply (toIndex_inj pf); lia. }
    rewrite findPathInternal_search;
      try (fold pf0; now rewrite (outside_scratch_isWalkable _ _ _ _ Hfr));
      [|exact Hidx].
    fold pf0. cbv zeta.
    destruct (search_loop _ _ _ _ _ _) as [[pf6 fc] its] eqn:Hloop. simpl.
    apply search_loop_budget in Hloop as (Hit & Hlen & Hcnt & Hcl).
    assert (Hmax : max_iterations pf0 = m_width pf * m_height pf).
    { unfold max_iterations.
      rewrite (outside_scratch_width _ _ Hfr), (outside_scratch_height _ _ Hfr). nia. }
    split; [rewrite Hmax in Hit; lia|].
    intros _ Hnc. destruct (Z.ltb_spec fc 0) as [|Hfc]; [reflexivity|].
    exfalso.
    assert (Hg : m_generationCounter pf6 = snd (nextGeneration pf0)).
    { rewrite Hcnt. unfold seeded.
      pose proof (nextGeneration_counter pf0) as Hn.
      destruct (nextGeneration pf0) as [pf1 g]. simpl in *.
      change (m_generationCounter (pushOpenNode ?p ?n)) with (m_generationCounter p).
      now rewrite counter_setParent, counter_setGCost. }
    rewrite Hg, <- (outside_scratch_toIndex _ _ _ Hfr) in Hnc.
    rewrite Hcl in Hnc; [discriminate | lia |].
    rewrite (in_vec_closed_lengths pf0).
    + rewrite (outside_scratch_toIndex _ _ _ Hfr). now apply walkable_index_in_closed.
    + unfold seeded. pose proof (lengths_nextGeneration pf0) as Hn.
      destruct (nextGeneration pf0) as [pf1 g]. simpl in *.
      change (scratch_lengths (pushOpenNode ?p ?n)) with (scratch_lengths p).
      now rewrite lengths_setParent, lengths_setGCost.
Qed.

(** C2.  The main loop of a query runs at most [width * height] iterations,
    every heap pop counted; and for distinct endpoints, if the end cell is
    not closed in the final state of the search, the result is the empty
    path. *)
Theorem findPath_iteration_budget env pf s e :
  0 <= m_width pf -> 0 <= m_height pf ->
  0 <= snd (findPathInternal (refreshed env pf) s e) <= m_width pf * m_height pf /\
  (s <> e ->
   isClosed (fst (findPath env pf s e)) (toIndex pf e)
     (m_generationCounter (fst (findPath env pf s e))) = false ->
   snd (findPath env pf s e) = Some []).
Proof.
  intros Hw Hh. rewrite findPath_unfold. simpl.
  destruct (dims_refreshed env pf) as [Hw' Hh'].
  destruct (findPathInternal_budget (refreshed env pf) s e) as [H1 H2]; try lia.
  rewrite Hw', Hh', toIndex_refreshed in *. split; assumption.
Qed.

(** ** Open heap: contents *)

Lemma sift_up_S fuel h i :
  sift_up (S fuel) h i =
  if (0 <? i)%nat then
    if heapLess (heap_at h ((i - 1) / 2)%nat) (heap_at h i) then h
    else sift_up fuel (heap_swap h ((i - 1) / 2)%nat i) ((i - 1) / 2)%nat
  else h.
Proof. reflexivity. Qed.

Lemma sift_down_S fuel h i :
  sift_down (S fuel) h i =
  let l := (i * 2 + 1)%nat in
  let s1 := if (l <? length h)%nat && negb (heapLess (heap_at h i) (heap_at h l))
            then l else i in
  let s2 := if ((l + 1) <? length h)%nat &&
               negb (heapLess (heap_at h s1) (heap_at h (l + 1)%nat))
            then (l + 1)%nat else s1 in
  if (s2 =? i)%nat then h else sift_down fuel (heap_swap h i s2) s2.
Proof. reflexivity. Qed.

Lemma heap_at_Forall (P : QueueNode -> Prop) h i :
  Forall P h -> (i < length h)%nat -> P (heap_at h i).
Proof.
  intros HP Hi. unfold heap_at.
  destruct (lookup_lt_is_Some_2 h i Hi) as [x Hx]. rewrite Hx. simpl.
  eapply Forall_lookup_1; eauto.
Qed.

Lemma heap_swap_Forall (P : QueueNode -> Prop) h i j :
  Forall P h -> (i < length h)%nat -> (j < length h)%nat -> Forall P (heap_swap h i j).
Proof.
  intros HP Hi Hj. unfold heap_swap.
  apply Forall_insert; [apply Forall_insert|]; try assumption;
    now apply heap_at_Forall.
Qed.

Lemma heap_swap_length h i j : length (heap_swap h i j) = length h.
Proof. unfold heap_swap. now rewrite !length_insert. Qed.

Lemma sift_up_Forall (P : QueueNode -> Prop) fuel : forall h i,
  Forall P h -> (i < length h)%nat -> Forall P (sift_up fuel h i).
Proof.
  induction fuel as [|fuel IH]; intros h i HP Hi; [assumption|].
  rewrite sift_up_S.
  destruct (Nat.ltb_spec 0 i) as [Hpos|]; [|assumption].
  destruct (heapLess _ _); [assumption|].
  assert (Hpar : ((i - 1) / 2 < i)%nat).
  { apply Nat.Div0.div_lt_upper_bound. lia. }
  apply IH.
  - apply heap_swap_Forall; [assumption | lia | lia].
  - rewrite heap_swap_length. lia.
Qed.

Lemma sift_down_Forall (P : QueueNode -> Prop) fuel : forall h i,
  Forall P h -> (i < length h)%nat -> Forall P (sift_down fuel h i).
Proof.
  induction fuel as [|fuel IH]; intros h i HP Hi; [assumption|].
  rewrite sift_down_S. cbv zeta.
  set (l := (i * 2 + 1)%nat).
  set (s1 := if (l <? length h)%nat && negb (heapLess (heap_at h i) (heap_at h l))
             then l else i).
  set (s2 := if ((l + 1) <? length h)%nat &&
                negb (heapLess (heap_at h s1) (heap_at h (l + 1)%nat))
             then (l + 1)%nat else s1).
  assert (Hs1 : (s1 < length h)%nat).
  { subst s1. destruct (Nat.ltb_spec l (length h)); simpl; [|assumption].
    destruct (heapLess (heap_at h i) (heap_at h l)); simpl; lia. }
  assert (Hs2 : (s2 < length h)%nat).
  { subst s2. destruct (Nat.ltb_spec (l + 1) (length h)); simpl; [|assumption].
    destruct (heapLess (heap_at h s1) (heap_at h (l + 1)%nat)); simpl; lia. }
  destruct (s2 =? i)%nat; [assumption|].
  apply IH.
  - now apply heap_swap_Forall.
  - now rewrite heap_swap_length.
Qed.

Lemma pushOpenNode_heap (P : QueueNode -> Prop) pf n :
  Forall P (m_openHeap pf) -> P n -> Forall P (m_openHeap (pushOpenNode pf n)).
Proof.
  intros HP Hn. unfold pushOpenNode. simpl.
  apply sift_up_Forall.
  - apply Forall_app. split; [assumption | now constructor].
  - rewrite length_app. simpl. lia.
Qed.

Lemma popOpenNode_heap (P : QueueNode -> Prop) pf :
  m_openHeap pf <> [] -> Forall P (m_openHeap pf) ->
  P (fst (popOpenNode pf)) /\ Forall P (m_openHeap (snd (popOpenNode pf))).
Proof.
  intros Hne HP. unfold popOpenNode.
  assert (Hlen : (0 < length (m_openHeap pf))%nat).
  { destruct (m_openHeap pf); [contradiction | simpl; lia]. }
  assert (Htop : P (heap_at (m_openHeap pf) 0)) by now apply heap_at_Forall.
  assert (Hlast : P (heap_at (m_openHeap pf) (length (m_openHeap pf) - 1)))
    by (apply heap_at_Forall; [assumption | lia]).
  assert (Htake : Forall P (take (length (m_openHeap pf) - 1) (m_openHeap pf)))
    by now apply Forall_take.
  destruct (take (length (m_openHeap pf) - 1) (m_openHeap pf)) as [|x h1] eqn:E;
    cbn [fst snd with_openHeap m_openHeap].
  - split; [assumption | constructor].
  - split; [assumption|].
    apply sift_down_Forall; [|rewrite length_insert; simpl; lia].
    apply Forall_insert; assumption.
Qed.

Lemma popOpenNode_state pf :
  snd (popOpenNode pf) = with_openHeap (m_openHeap (snd (popOpenNode pf))) pf.
Proof. unfold popOpenNode. now destruct (take _ _). Qed.

(** The fuel given to the two sift loops is never used up: any larger
    amount yields the same heap. *)
Lemma sift_up_fuel f1 : forall f2 h i,
  (i < f1)%nat -> (i < f2)%nat -> sift_up f1 h i = sift_up f2 h i.
Proof.
  induction f1 as [|f1 IH]; intros f2 h i H1 H2; [lia|].
  destruct f2 as [|f2]; [lia|]. rewrite !sift_up_S.
  destruct (Nat.ltb_spec 0 i) as [Hpos|]; [|reflexivity].
  destruct (heapLess _ _); [reflexivity|].
  assert (((i - 1) / 2 < i)%nat) by (apply Nat.Div0.div_lt_upper_bound; lia).
  apply IH; lia.
Qed.

Lemma sift_down_fuel f1 : forall f2 h i,
  (length h - i <= f1)%nat -> (length h - i <= f2)%nat -> (i < length h)%nat ->
  sift_down f1 h i = sift_down f2 h i.
Proof.
  induction f1 as [|f1 IH]; intros f2 h i H1 H2 Hi; [lia|].
  destruct f2 as [|f2]; [lia|]. rewrite !sift_down_S. cbv zeta.
  set (l := (i * 2 + 1)%nat).
  set (s1 := if (l <? length h)%nat && negb (heapLess (heap_at h i) (heap_at h l))
             then l else i).
  set (s2 := if ((l + 1) <? length h)%nat &&
                negb (heapLess (heap_at h s1) (heap_at h (l + 1)%nat))
             then (l + 1)%nat else s1).
  assert (Hs1 : (s1 < length h /\ i <= s1)%nat).
  { subst s1. destruct (Nat.ltb_spec l (length h)); simpl; [|lia].
    destruct (heapLess (heap_at h i) (heap_at h l)); simpl; subst l; lia. }
  assert (Hs2 : (s2 < length h /\ i <= s2)%nat).
  { subst s2. destruct (Nat.ltb_spec (l + 1) (length h)); simpl; [|lia].
    destruct (heapLess (heap_at h s1) (heap_at h (l + 1)%nat)); simpl; subst l; lia. }
  destruct (Nat.eqb_spec s2 i) as [|Hneq]; [reflexivity|].
  apply IH; rewrite ?heap_swap_length; lia.
Qed.

(** ** Scratch store: reading back a write *)

Lemma getGCost_setGCost_eq pf i g c :
  in_vec i (m_gCostGeneration pf) = true ->
  length (m_gCostValues pf) = length (m_gCostGeneration pf) ->
  getGCost (setGCost pf i g c) i g = c.
Proof.
  intros Hi Hlen. unfold getGCost, setGCost. rewrite Hi. simpl.
  rewrite in_vec_set, Hi. simpl.
  rewrite vec_get_set_eq, Z.eqb_refl by assumption.
  apply vec_get_set_eq. now rewrite (in_vec_length _ _ (m_gCostGeneration pf)).
Qed.

Lemma hasParent_setParent_eq pf i g p :
  in_vec i (m_parentGeneration pf) = true ->
  hasParent (setParent pf i g p) i g = true.
Proof.
  intros Hi. unfold hasParent, setParent. rewrite Hi. simpl.
  rewrite in_vec_set, Hi, vec_get_set_eq by assumption. simpl. apply Z.eqb_refl.
Qed.

Lemma getParent_setParent_eq pf i g p :
  in_vec i (m_parentGeneration pf) = true ->
  length (m_parentValues pf) = length (m_parentGeneration pf) ->
  getParent (setParent pf i g p) i g = p.
Proof.
  intros Hi Hlen. unfold getParent. rewrite hasParent_setParent_eq by assumption.
  unfold setParent. rewrite Hi. simpl.
  apply vec_get_set_eq. now rewrite (in_vec_length _ _ (m_parentGeneration pf)).
Qed.

Lemma isClosed_setClosed_mono pf i g j :
  isClosed pf j g = true -> isClosed (setClosed pf i g) j g = true.
Proof.
  intros H. destruct (Z.eq_dec i j) as [->|Hne].
  - apply isClosed_setClosed_eq. unfold isClosed in H. now apply andb_true_iff in H.
  - now rewrite isClosed_setClosed_ne.
Qed.

Lemma hasParent_in_vec pf i g :
  hasParent pf i g = true -> in_vec i (m_parentGeneration pf) = true.
Proof. unfold hasParent. now intros [H _]%andb_true_iff. Qed.

(** ** The two writes of a relaxation, read back *)

Lemma relax_write_reads pf c g t p :
  in_vec c (m_gCostGeneration pf) = true ->
  in_vec c (m_parentGeneration pf) = true ->
  length (m_gCostValues pf) = length (m_gCostGeneration pf) ->
  length (m_parentValues pf) = length (m_parentGeneration pf) ->
  let pf' := setParent (setGCost pf c g t) c g p in
  (forall j, getGCost pf' j g = if j =? c then t else getGCost pf j g) /\
  (forall j, hasParent pf' j g = if j =? c then true else hasParent pf j g) /\
  (forall j, getParent pf' j g = if j =? c then p else getParent pf j g) /\
  (forall j, isClosed pf' j g = isClosed pf j g) /\
  scratch_lengths pf' = scratch_lengths pf /\
  outside_scratch pf' = outside_scratch pf.
Proof.
  intros Hg Hp Hlg Hlp pf'. subst pf'.
  assert (Hp' : in_vec c (m_parentGeneration (setGCost pf c g t)) = true).
  { unfold setGCost. now rewrite Hg. }
  assert (Hlp' : length (m_parentValues (setGCost pf c g t)) =
                 length (m_parentGeneration (setGCost pf c g t))).
  { unfold setGCost. now rewrite Hg. }
  repeat split.
  - intros j. rewrite getGCost_setParent.
    destruct (Z.eqb_spec j c) as [->|Hne].
    + now apply getGCost_setGCost_eq.
    + apply getGCost_setGCost_ne. congruence.
  - intros j. destruct (Z.eqb_spec j c) as [->|Hne].
    + now apply hasParent_setParent_eq.
    + rewrite hasParent_setParent_ne by congruence. apply hasParent_setGCost.
  - intros j. destruct (Z.eqb_spec j c) as [->|Hne].
    + now apply getParent_setParent_eq.
    + rewrite getParent_setParent_ne by congruence. apply getParent_setGCost.
  - intros j. now rewrite isClosed_setParent, isClosed_setGCost.
  - now rewrite lengths_setParent, lengths_setGCost.
  - now rewrite frame_setParent, frame_setGCost.
Qed.

(** ** Preservation of the search invariant *)

Section SearchInvariant.

Variable pf0 : Pathfinding.
Variables si g : Z.
Hypothesis pf0_sized : sized pf0.

Local Abbreviation Inv := (search_inv pf0 si g).

Lemma inv_sizes pf i :
  Inv pf -> 0 <= i < m_width pf0 * m_height pf0 ->
  in_vec i (m_closedGeneration pf) = true /\
  in_vec i (m_gCostGeneration pf) = true /\
  in_vec i (m_parentGeneration pf) = true /\
  length (m_gCostValues pf) = length (m_gCostGeneration pf) /\
  length (m_parentValues pf) = length (m_parentGeneration pf).
Proof.
  intros HI Hi. destruct pf0_sized as (Hw & Hh & Hsz).
  pose proof (inv_lengths _ _ _ _ HI) as Hl. rewrite Hsz in Hl.
  unfold scratch_lengths in Hl. injection Hl as H1 H2 H3 H4 H5.
  pose proof (total_cells_Z pf0 Hw Hh) as HnZ.
  rewrite !in_vec_spec, H1, H2, H3, H4, H5.
  repeat split; lia.
Qed.

Lemma inv_walkable_index pf p :
  Inv pf -> isWalkable pf (px p) (py p) = true ->
  0 <= toIndex pf p < m_width pf0 * m_height pf0 /\
  toPoint pf0 (toIndex pf p) = p.
Proof.
  intros HI Hw. pose proof (inv_frame _ _ _ _ HI) as Hfr.
  rewrite (outside_scratch_isWalkable _ _ _ _ Hfr) in Hw.
  rewrite (outside_scratch_toIndex _ _ _ Hfr).
  apply isWalkable_in_grid in Hw as [Hx Hy].
  split; [now apply toIndex_range | apply toPoint_toIndex; lia].
Qed.

Lemma inv_with_openHeap pf h :
  Inv pf -> Forall (heap_node_ok pf g) h -> Inv (with_openHeap h pf).
Proof.
  intros [H1 H2 H3 H4 H5 H6] Hh. constructor; try assumption.
Qed.

Lemma inv_popOpenNode pf :
  Inv pf -> m_openHeap pf <> [] ->
  Inv (snd (popOpenNode pf)) /\ heap_node_ok pf g (fst (popOpenNode pf)).
Proof.
  intros HI Hne.
  destruct (popOpenNode_heap (heap_node_ok pf g) pf Hne (inv_heap _ _ _ _ HI))
    as [Htop Hrest].
  split; [|assumption].
  rewrite popOpenNode_state. now apply inv_with_openHeap.
Qed.

Lemma inv_setClosed pf i :
  Inv pf -> Inv (setClosed pf i g).
Proof.
  intros [H1 H2 H3 H4 H5 H6]. constructor.
  - now rewrite frame_setClosed.
  - now rewrite lengths_setClosed.
  - now rewrite hasParent_setClosed, getParent_setClosed, getGCost_setClosed.
  - replace (m_openHeap (setClosed pf i g)) with (m_openHeap pf)
      by (unfold setClosed; now destruct (in_vec _ _)).
    eapply Forall_impl; [exact H4|]. intros n [Ha Hb]. split.
    + now rewrite hasParent_setClosed.
    + now rewrite getGCost_setClosed.
  - intros c. rewrite hasParent_setClosed, getGCost_setClosed. apply H5.
  - intros c. rewrite hasParent_setClosed, getParent_setClosed. intros Hc Hne.
    destruct (H6 c Hc Hne) as (L1 & L2 & L3 & L4 & L5).
    repeat split; try assumption.
    + now apply isClosed_setClosed_mono.
    + now rewrite hasParent_setClosed.
    + now rewrite !getGCost_setClosed.
Qed.

(** One relaxation that passes all three tests of the inner loop. *)
Lemma inv_relax_step pf cur nb :
  Inv pf ->
  isClosed pf (index cur) g = true ->
  hasParent pf (index cur) g = true ->
  getGCost pf (index cur) g = gCost cur ->
  In nb (collectNeighbors pf0 (toPoint pf0 (index cur))) ->
  isWalkable pf (px nb) (py nb) = true ->
  isClosed pf (toIndex pf nb) g = false ->
  gCost cur + 1 < getGCost pf (toIndex pf nb) g ->
  forall f,
  let c := toIndex pf nb in
  let pf' := pushOpenNode (setParent (setGCost pf c g (gCost cur + 1)) c g (index cur))
               (mkNode c f (gCost cur + 1)) in
  Inv pf' /\ isClosed pf' (index cur) g = true /\
  hasParent pf' (index cur) g = true /\ getGCost pf' (index cur) g = gCost cur.
Proof.
  intros HI Hcl Hhp Hgc Hin Hwalk Hnc Hlt f c pf'.
  destruct (inv_walkable_index pf nb HI Hwalk) as [Hrange Hpt].
  fold c in Hrange, Hpt, Hnc, Hlt.
  destruct (inv_sizes pf c HI Hrange) as (_ & Sg & Sp & Lg & Lp).
  destruct (relax_write_reads pf c g (gCost cur + 1) (index cur) Sg Sp Lg Lp)
    as (Rg & Rh & Rp & Rc & Rl & Rf).
  set (pf1 := setParent (setGCost pf c g (gCost cur + 1)) c g (index cur)) in *.
  assert (Hcur_ne : index cur <> c) by (intros Heq; rewrite Heq in Hcl; congruence).
  assert (Hcost0 : 0 <= gCost cur).
  { rewrite <- Hgc. now apply (inv_cost _ _ _ _ HI). }
  assert (Hsi_ne : si <> c).
  { intros Heq. destruct (inv_start _ _ _ _ HI) as (_ & _ & H0).
    rewrite <- Heq in Hlt. lia. }
  assert (Hinv1 : Inv pf1).
  { constructor.
    - rewrite Rf. apply (inv_frame _ _ _ _ HI).
    - rewrite Rl. apply (inv_lengths _ _ _ _ HI).
    - rewrite Rh, Rp, Rg.
      destruct (Z.eqb_spec si c); [contradiction|]. apply (inv_start _ _ _ _ HI).
    - replace (m_openHeap pf1) with (m_openHeap pf)
        by (subst pf1; unfold setParent, setGCost;
            now destruct (in_vec _ _), (in_vec _ _)).
      eapply Forall_impl; [apply (inv_heap _ _ _ _ HI)|].
      intros n [Ha Hb]. unfold heap_node_ok. rewrite Rh, Rg.
      destruct (Z.eqb_spec (index n) c) as [Heq|]; [|now split].
      split; [reflexivity|]. rewrite Heq in Hb. lia.
    - intros d. rewrite Rh, Rg.
      destruct (Z.eqb_spec d c); [lia|]. apply (inv_cost _ _ _ _ HI).
    - intros d. rewrite Rh, Rp. unfold link_ok. rewrite !Rc, !Rh, !Rg.
      destruct (Z.eqb_spec d c) as [->|Hdc].
      + intros _ _.
        destruct (Z.eqb_spec (index cur) c); [contradiction|].
        rewrite Hpt. repeat split; try assumption.
        * lia.
        * now rewrite <- (outside_scratch_isWalkable _ _ _ _ (inv_frame _ _ _ _ HI)).
      + intros Hd Hne.
        destruct (inv_link _ _ _ _ HI d Hd Hne) as (L1 & L2 & L3 & L4 & L5).
        destruct (Z.eqb_spec (getParent pf d g) c) as [Heq|];
          [rewrite Heq in L1; congruence|].
        repeat split; assumption. }
  split; [|split; [|split]].
  - subst pf'. unfold pushOpenNode. apply inv_with_openHeap; [assumption|].
    apply (pushOpenNode_heap (heap_node_ok pf1 g) pf1); [apply (inv_heap _ _ _ _ Hinv1)|].
    unfold heap_node_ok. simpl. rewrite Rh, Rg, Z.eqb_refl. split; [reflexivity | lia].
  - subst pf'. change (isClosed pf1 (index cur) g = true). now rewrite Rc.
  - subst pf'. change (hasParent pf1 (index cur) g = true). rewrite Rh.
    now destruct (index cur =? c).
  - subst pf'. change (getGCost pf1 (index cur) g = gCost cur). rewrite Rg.
    now destruct (Z.eqb_spec (index cur) c).
Qed.

Lemma inv_relax_neighbors ns : forall pf cur e,
  Inv pf ->
  isClosed pf (index cur) g = true ->
  hasParent pf (index cur) g = true ->
  getGCost pf (index cur) g = gCost cur ->
  incl ns (collectNeighbors pf0 (toPoint pf0 (index cur))) ->
  Inv (relax_neighbors pf g cur e ns).
Proof.
  induction ns as [|nb ns IH]; intros pf cur e HI Hcl Hhp Hgc Hincl; simpl;
    [assumption|].
  assert (Hns : incl ns (collectNeighbors pf0 (toPoint pf0 (index cur))))
    by (intros x Hx; apply Hincl; now right).
  destruct (isWalkable pf (px nb) (py nb)) eqn:Hw; simpl; [|now apply IH].
  destruct (isClosed pf (toIndex pf nb) g) eqn:Hnc; [now apply IH|].
  rewrite Z.geb_leb.
  destruct (Z.leb_spec (getGCost pf (toIndex pf nb) g) (gCost cur + 1)) as [|Hlt];
    [now apply IH|].
  destruct (inv_relax_step pf cur nb HI Hcl Hhp Hgc (Hincl nb (or_introl eq_refl))
              Hw Hnc Hlt (gCost cur + 1 + calculateHeuristic nb e))
    as (HI' & Hcl' & Hhp' & Hgc').
  now apply IH.
Qed.

Lemma inv_search_loop budget : forall pf ei e it pf' fc it',
  Inv pf ->
  search_loop budget pf g ei e it = (pf', fc, it') ->
  Inv pf' /\
  (fc <> -1 -> hasParent pf' ei g = true /\ getGCost pf' ei g = fc).
Proof.
  induction budget as [|b IH]; intros pf ei e it pf' fc it' HI H; simpl in H.
  - inversion H; subst. split; [assumption | congruence].
  - destruct (m_openHeap pf) as [|n0 h0] eqn:Hh.
    + inversion H; subst. split; [assumption | congruence].
    + destruct (inv_popOpenNode pf HI) as [HI1 [Hhp Hle]]; [congruence|].
      pose proof (popOpenNode_state pf) as Hst.
      destruct (popOpenNode pf) as [cur pf1]. simpl in HI1, Hhp, Hle, Hst.
      assert (Hhp1 : hasParent pf1 (index cur) g = true) by (now rewrite Hst).
      assert (Hle1 : getGCost pf1 (index cur) g <= gCost cur) by (now rewrite Hst).
      rewrite Z.gtb_ltb in H.
      destruct (Z.ltb_spec (getGCost pf1 (index cur) g) (gCost cur)) as [|Hge];
        [now apply IH in H|].
      destruct (isClosed pf1 (index cur) g) eqn:Hcl; [now apply IH in H|].
      assert (Hgc : getGCost pf1 (index cur) g = gCost cur) by lia.
      pose proof (inv_setClosed pf1 (index cur) HI1) as HI2.
      assert (Hhp2 : hasParent (setClosed pf1 (index cur) g) (index cur) g = true)
        by (now rewrite hasParent_setClosed).
      assert (Hgc2 : getGCost (setClosed pf1 (index cur) g) (index cur) g = gCost cur)
        by (now rewrite getGCost_setClosed).
      destruct (Z.eqb_spec (index cur) ei) as [Heq|Hne].
      * inversion H; subst. split; [assumption|]. intros _. now split.
      * apply IH in H; [assumption|].
        pose proof (inv_frame _ _ _ _ HI2) as Hfr.
        apply inv_relax_neighbors; try assumption.
        -- apply isClosed_setClosed_eq.
           apply hasParent_in_vec in Hhp1.
           destruct pf0_sized as (Hw & Hh' & Hsz).
           pose proof (inv_lengths _ _ _ _ HI1) as Hl. rewrite Hsz in Hl.
           unfold scratch_lengths in Hl. injection Hl as L1 L2 L3 L4 L5.
           rewrite (in_vec_length _ _ (m_parentGeneration pf1)); [assumption|].
           congruence.
        -- rewrite (outside_scratch_collectNeighbors _ _ _ Hfr),
             (outside_scratch_toPoint _ _ _ Hfr). apply incl_refl.
Qed.

(** [buildPath] follows a parent chain to the start and returns it in
    start-to-end order; [k + 1] units of fuel are enough when the cell has
    g-cost [k]. *)
Lemma buildPath_loop_chain (k : nat) : forall pf c fuel acc,
  Inv pf -> hasParent pf c g = true -> getGCost pf c g = Z.of_nat k ->
  (k < fuel)%nat ->
  exists l, parent_chain pf0 pf si g c l /\ length l = S k /\
            buildPath_loop fuel pf si g c acc =
            Some (rev (acc ++ map (toPoint pf) l)).
Proof.
  induction k as [|k IH]; intros pf c fuel acc HI Hhp Hgc Hfuel;
    (destruct fuel as [|fuel]; [lia|]); simpl.
  - pose proof (hasParent_in_vec _ _ _ Hhp) as Hin%in_vec_spec.
    replace (c >=? 0) with true by (symmetry; lia).
    destruct (Z.eqb_spec c si) as [->|Hne].
    + exists [si]. split; [constructor|]. split; reflexivity.
    + exfalso. destruct (inv_link _ _ _ _ HI c Hhp Hne) as (_ & L2 & L3 & _).
      pose proof (inv_cost _ _ _ _ HI _ L2). lia.
  - pose proof (hasParent_in_vec _ _ _ Hhp) as Hin%in_vec_spec.
    replace (c >=? 0) with true by (symmetry; lia).
    destruct (Z.eqb_spec c si) as [->|Hne].
    + exfalso. destruct (inv_start _ _ _ _ HI) as (_ & _ & H0). lia.
    + rewrite Hhp. simpl.
      destruct (inv_link _ _ _ _ HI c Hhp Hne) as (L1 & L2 & L3 & L4 & L5).
      set (p := getParent pf c g) in *.
      pose proof (hasParent_in_vec _ _ _ L2) as Hpin%in_vec_spec.
      assert (Hpc : p <> c) by (intros Heq; rewrite Heq in L3; lia).
      replace ((p =? c) || (p <? 0)) with false by (symmetry; lia).
      destruct (IH pf p fuel (acc ++ [toPoint pf c]) HI L2) as (l & Hl & Hlen & Hres);
        [lia | lia |].
      exists (c :: l). split; [|split].
      * apply chain_link; try assumption. now repeat split.
      * simpl. now rewrite Hlen.
      * rewrite Hres. simpl. now rewrite <- app_assoc.
Qed.

End SearchInvariant.

(** ** Entering the loop *)

Lemma engine_ok_spec pf :
  engine_ok pf = true ->
  0 <= m_width pf /\ 0 <= m_height pf /\ stamps_ok pf = true /\ buffers_ok pf = true.
Proof.
  unfold engine_ok. rewrite !andb_true_iff. intros [[[? ?] ?] ?].
  repeat split; try lia; assumption.
Qed.

Lemma ensureWorkingBuffers_sized pf :
  engine_ok pf = true ->
  sized (ensureWorkingBuffers pf) /\ stamps_ok (ensureWorkingBuffers pf) = true.
Proof.
  intros (Hw & Hh & Hst & Hb)%engine_ok_spec.
  unfold sized, ensureWorkingBuffers, scratch_lengths.
  destruct (Nat.eqb_spec (length (m_closedGeneration pf)) (total_cells pf)) as [He|Hne].
  - repeat split; try assumption.
    unfold buffers_ok in Hb. rewrite !andb_true_iff, !Nat.eqb_eq in Hb.
    destruct Hb as [[[H1 H2] H3] H4]. unfold total_cells in *.
    rewrite H1, H2, H3, H4, He. reflexivity.
  - simpl. unfold total_cells. simpl. rewrite !length_replicate.
    repeat split; try assumption.
    apply stamps_ok_spec in Hst as [Hc _].
    unfold stamps_ok. simpl. rewrite !andb_true_iff. repeat split; try lia;
      apply forallb_forall; intros x Hx%list_elem_of_In%elem_of_replicate; lia.
Qed.

Lemma seeded_inv pf0 s e :
  sized pf0 -> stamps_ok pf0 = true ->
  isWalkable pf0 (px s) (py s) = true ->
  search_inv pf0 (toIndex pf0 s) (snd (nextGeneration pf0)) (seeded pf0 s e).
Proof.
  intros Hsz Hst Hw. unfold seeded.
  destruct (nextGeneration_unstamped pf0 Hst) as [Hun _].
  pose proof (frame_nextGeneration pf0) as Hfr.
  pose proof (lengths_nextGeneration pf0) as Hlen.
  destruct (nextGeneration pf0) as [pf1 g]. simpl in Hun, Hfr, Hlen |- *.
  set (si := toIndex pf0 s).
  set (pfh := with_openHeap [] pf1).
  assert (Hrange : 0 <= si < m_width pf0 * m_height pf0).
  { apply isWalkable_in_grid in Hw as [Hx Hy]. now apply toIndex_range. }
  destruct Hsz as (Hw0 & Hh0 & Hsz).
  pose proof (total_cells_Z pf0 Hw0 Hh0) as HnZ.
  rewrite Hsz in Hlen. unfold scratch_lengths in Hlen. injection Hlen as L1 L2 L3 L4 L5.
  destruct (relax_write_reads pfh si g 0 si) as (Rg & Rh & Rp & Rc & Rl & Rf);
    try (apply in_vec_spec; simpl; lia); try (simpl; congruence).
  set (pf2 := setParent (setGCost pfh si g 0) si g si) in *.
  assert (Hold : forall d, hasParent pfh d g = false).
  { intros d. apply (unstamped_reads pf1 g d Hun). }
  assert (HI2 : search_inv pf0 si g pf2).
  { constructor.
    - now rewrite Rf.
    - rewrite Rl, Hsz. unfold scratch_lengths. simpl. now rewrite L1, L2, L3, L4, L5.
    - now rewrite Rh, Rp, Rg, Z.eqb_refl.
    - replace (m_openHeap pf2) with (@nil QueueNode); [constructor|].
      subst pf2. unfold setParent, setGCost.
      now destruct (in_vec _ _), (in_vec _ _).
    - intros d. rewrite Rh, Rg. destruct (d =? si); [lia|]. now rewrite Hold.
    - intros d. rewrite Rh. destruct (Z.eqb_spec d si); [congruence|].
      now rewrite Hold. }
  unfold pushOpenNode. apply inv_with_openHeap; [assumption|].
  apply (pushOpenNode_heap (heap_node_ok pf2 g) pf2); [apply (inv_heap _ _ _ _ HI2)|].
  unfold heap_node_ok. simpl. rewrite Rh, Rg, Z.eqb_refl. split; [reflexivity | lia].
Qed.

(** ** Parent chains are routes *)

Lemma parent_chain_route pf0 pf si g c l :
  isWalkable pf0 (px (toPoint pf0 si)) (py (toPoint pf0 si)) = true ->
  parent_chain pf0 pf si g c l ->
  route pf0 (toPoint pf0 si) (rev (map (toPoint pf0) l)) (toPoint pf0 c).
Proof.
  intros Hs. induction 1 as [|c l Hne Hhp (L1 & L2 & L3 & L4 & L5) Hch IH]; simpl.
  - now constructor.
  - eapply route_step; eassumption.
Qed.

Lemma parent_chain_costs pf0 pf si g c l :
  parent_chain pf0 pf si g c l ->
  (forall d, In d l -> getGCost pf d g <= getGCost pf c g) /\ NoDup l.
Proof.
  induction 1 as [|c l Hne Hhp (L1 & L2 & L3 & L4 & L5) Hch [IH1 IH2]].
  - split.
    + intros d [<-|[]]. lia.
    + apply NoDup_singleton.
  - split.
    + intros d [<-|Hd]; [lia|]. specialize (IH1 d Hd). lia.
    + apply NoDup_cons. split; [|assumption].
      intros Hc%list_elem_of_In. specialize (IH1 c Hc). lia.
Qed.

Lemma parent_chain_in_range pf0 pf si g c l :
  in_vec si (m_parentGeneration pf) = true ->
  parent_chain pf0 pf si g c l ->
  forall d, In d l -> in_vec d (m_parentGeneration pf) = true.
Proof.
  intros Hsi. induction 1 as [|c l Hne Hhp _ Hch IH]; intros d [<-|Hd];
    try assumption; try contradiction.
  - now apply hasParent_in_vec in Hhp.
  - now apply IH.
Qed.

(** A chain visits each cell at most once, so it is no longer than the
    parent array. *)
Lemma parent_chain_length pf0 pf si g c l :
  in_vec si (m_parentGeneration pf) = true ->
  parent_chain pf0 pf si g c l ->
  (length l <= length (m_parentGeneration pf))%nat.
Proof.
  intros Hsi Hch.
  destruct (parent_chain_costs _ _ _ _ _ _ Hch) as [_ Hnd].
  pose proof (parent_chain_in_range _ _ _ _ _ _ Hsi Hch) as Hin.
  assert (H : (length l <=
               length (seqZ 0 (Z.of_nat (length (m_parentGeneration pf)))))%nat).
  { apply submseteq_length, NoDup_submseteq; [assumption|].
    intros d Hd%list_elem_of_In%Hin%in_vec_spec. apply elem_of_seqZ. lia. }
  now rewrite length_seqZ, Nat2Z.id in H.
Qed.

(** ** Soundness of the search *)

Lemma route_frame pf pf' s path e :
  outside_scratch pf' = outside_scratch pf ->
  route pf s path e -> route pf' s path e.
Proof.
  intros Hfr. induction 1 as [Hs | path a b Hr IH Hin Hw].
  - constructor. now rewrite (outside_scratch_isWalkable _ _ _ _ Hfr).
  - eapply route_step; [exact IH | |].
    + now rewrite (outside_scratch_collectNeighbors _ _ _ Hfr).
    + now rewrite (outside_scratch_isWalkable _ _ _ _ Hfr).
Qed.

Lemma map_toPoint_frame pf pf' (l : list Z) :
  outside_scratch pf' = outside_scratch pf ->
  map (toPoint pf') l = map (toPoint pf) l.
Proof.
  intros Hfr. apply map_ext. intros i. now apply outside_scratch_toPoint.
Qed.

Lemma findPathInternal_sound pf s e :
  engine_ok pf = true ->
  exists path,
    snd (fst (findPathInternal pf s e)) = Some path /\
    (path <> [] -> route pf s path e).
Proof.
  intros Hok.
  destruct (ensureWorkingBuffers_sized pf Hok) as [Hsz Hst].
  pose proof (frame_ensureWorkingBuffers pf) as Hfr.
  set (pf0 := ensureWorkingBuffers pf) in *.
  destruct (isWalkable pf0 (px s) (py s)) eqn:Hs;
    [|exists []; split; [|congruence];
      rewrite findPathInternal_blocked; [reflexivity|];
      left; now rewrite <- (outside_scratch_isWalkable _ _ _ _ Hfr)].
  destruct (isWalkable pf0 (px e) (py e)) eqn:He;
    [|exists []; split; [|congruence];
      rewrite findPathInternal_blocked; [reflexivity|];
      right; now rewrite <- (outside_scratch_isWalkable _ _ _ _ Hfr)].
  pose proof (isWalkable_in_grid _ _ _ Hs) as [Hsx Hsy].
  pose proof (isWalkable_in_grid _ _ _ He) as [Hex Hey].
  destruct (Z.eq_dec (toIndex pf0 s) (toIndex pf0 e)) as [Heq|Hne].
  - exists [s]. assert (s = e) as <- by (apply (toIndex_inj pf0); lia).
    split.
    + unfold findPathInternal. fold pf0. rewrite Hs. simpl. now rewrite Z.eqb_refl.
    + intros _. constructor. now rewrite <- (outside_scratch_isWalkable _ _ _ _ Hfr).
  - rewrite findPathInternal_search by (fold pf0; assumption). fold pf0. cbv zeta.
    set (g := snd (nextGeneration pf0)).
    pose proof (seeded_inv pf0 s e Hsz Hst Hs) as HI. fold g in HI.
    destruct (search_loop _ _ _ _ _ _) as [[pf6 fc] its] eqn:Hloop. simpl.
    destruct (inv_search_loop pf0 (toIndex pf0 s) g Hsz _ _ _ _ _ _ _ _ HI Hloop)
      as [HI6 Hend].
    destruct (Z.ltb_spec fc 0) as [|Hfc]; [exists []; split; [reflexivity | congruence]|].
    destruct Hend as [Hhp Hgc]; [lia|].
    pose proof (inv_frame _ _ _ _ HI6) as Hfr6.
    assert (Hk : getGCost pf6 (toIndex pf0 e) g = Z.of_nat (Z.to_nat fc)) by lia.
    assert (Hsi : in_vec (toIndex pf0 s) (m_parentGeneration pf6) = true).
    { apply hasParent_in_vec with (g := g). apply (inv_start _ _ _ _ HI6). }
    assert (Hlenp : length (m_parentValues pf6) = length (m_parentGeneration pf6)).
    { destruct Hsz as (_ & _ & Hsz'). pose proof (inv_lengths _ _ _ _ HI6) as Hl.
      rewrite Hsz' in Hl. unfold scratch_lengths in Hl. injection Hl. congruence. }
    assert (Hfuel : (Z.to_nat fc < S (length (m_parentValues pf6)))%nat).
    { destruct (buildPath_loop_chain pf0 (toIndex pf0 s) g (Z.to_nat fc) pf6
                  (toIndex pf0 e) (S (Z.to_nat fc)) [] HI6 Hhp Hk) as (l1 & Hc1 & Hl1 & _);
        [lia|].
      pose proof (parent_chain_length _ _ _ _ _ _ Hsi Hc1). lia. }
    destruct (buildPath_loop_chain pf0 (toIndex pf0 s) g (Z.to_nat fc) pf6
                (toIndex pf0 e) _ [] HI6 Hhp Hk Hfuel) as (l & Hch & Hlen & Hres).
    exists (rev (map (toPoint pf0) l)). split.
    + unfold buildPath. rewrite Hres. simpl.
      now rewrite (map_toPoint_frame _ _ _ Hfr6).
    + intros _. apply (route_frame pf0); [now symmetry|].
      assert (Hr : route pf0 (toPoint pf0 (toIndex pf0 s))
                     (rev (map (toPoint pf0) l)) (toPoint pf0 (toIndex pf0 e))).
      { eapply parent_chain_route; [|eassumption].
        rewrite toPoint_toIndex by lia. assumption. }
      now rewrite !toPoint_toIndex in Hr by lia.
Qed.

Lemma engine_ok_refreshed env pf :
  engine_ok pf = true -> engine_ok (refreshed env pf) = true.
Proof.
  unfold refreshed, updateBuildingObstacles.
  now destruct (m_obstaclesDirty pf).
Qed.

(** Every query returns, and what it returns is empty or a route from
    [start] to [end] over the grid it searched. *)
Lemma findPath_sound env pf s e :
  engine_ok pf = true ->
  exists path,
    snd (findPath env pf s e) = Some path /\
    (path <> [] -> route (refreshed env pf) s path e).
Proof.
  intros Hok. rewrite findPath_unfold. simpl.
  apply findPathInternal_sound. now apply engine_ok_refreshed.
Qed.

(** ** Neighbour collection *)

Lemma neighbor_at_spec pf a dx dy b :
  In b (neighbor_at pf a dx dy) ->
  b = mkPoint (px a + dx) (py a + dy) /\
  (dx <> 0 \/ dy <> 0) /\
  in_grid pf (px b) (py b) = true /\
  (dx <> 0 -> dy <> 0 ->
   isWalkable pf (px a + dx) (py a) = true /\ isWalkable pf (px a) (py a + dy) = true).
Proof.
  unfold neighbor_at.
  destruct ((dx =? 0) && (dy =? 0)) eqn:E0; [intros []|].
  destruct ((px a + dx <? 0) || (px a + dx >=? m_width pf) ||
            (py a + dy <? 0) || (py a + dy >=? m_height pf)) eqn:E1; [intros []|].
  destruct (negb (dx =? 0) && negb (dy =? 0) &&
            (negb (isWalkable pf (px a + dx) (py a)) ||
             negb (isWalkable pf (px a) (py a + dy)))) eqn:E2; [intros []|].
  intros [<-|[]]. simpl. repeat split.
  - lia.
  - unfold in_grid. lia.
  - destruct (isWalkable pf (px a + dx) (py a)); [reflexivity|].
    exfalso. destruct (Z.eqb_spec dx 0), (Z.eqb_spec dy 0); simpl in E2; congruence.
  - destruct (isWalkable pf (px a) (py a + dy)); [reflexivity|].
    exfalso. destruct (Z.eqb_spec dx 0), (Z.eqb_spec dy 0); simpl in E2;
      rewrite ?orb_true_r in E2; congruence.
Qed.

Lemma collectNeighbors_spec pf a b :
  In b (collectNeighbors pf a) ->
  exists dx dy,
    -1 <= dx <= 1 /\ -1 <= dy <= 1 /\ (dx <> 0 \/ dy <> 0) /\
    b = mkPoint (px a + dx) (py a + dy) /\
    in_grid pf (px b) (py b) = true /\
    (dx <> 0 -> dy <> 0 ->
     isWalkable pf (px a + dx) (py a) = true /\ isWalkable pf (px a) (py a + dy) = true).
Proof.
  unfold collectNeighbors. simpl. rewrite !app_nil_r, !in_app_iff.
  intros H.
  repeat (destruct H as [H|H]);
    match type of H with
    | In _ (neighbor_at _ _ ?dx ?dy) =>
        apply neighbor_at_spec in H as (H1 & H2 & H3 & H4);
        exists dx, dy; repeat split; try lia; try assumption; try (apply H4; lia)
    end.
Qed.

Lemma collectNeighbors_legal pf a b :
  In b (collectNeighbors pf a) ->
  adjacent8 a b = true /\ corner_free pf a b = true.
Proof.
  intros (dx & dy & Hdx & Hdy & Hnz & -> & Hin & Hcorner)%collectNeighbors_spec.
  unfold adjacent8, corner_free. simpl. split; [lia|].
  destruct (Z.eqb_spec (px a + dx) (px a)) as [|Hx]; [reflexivity|].
  destruct (Z.eqb_spec (py a + dy) (py a)) as [|Hy]; [reflexivity|]. simpl.
  destruct Hcorner as [-> ->]; [lia | lia | reflexivity].
Qed.

(** ** Routes *)

Lemma route_last pf s path e : route pf s path e -> last path = Some e.
Proof.
  induction 1; [reflexivity|]. apply last_snoc.
Qed.

Lemma route_head pf s path e : route pf s path e -> head path = Some s.
Proof.
  induction 1 as [|path a b Hr IH]; [reflexivity|].
  destruct path; [discriminate | exact IH].
Qed.

Lemma route_walkable pf s path e :
  route pf s path e -> forall p, In p path -> isWalkable pf (px p) (py p) = true.
Proof.
  induction 1 as [Hs | path a b Hr IH Hin Hw]; intros p Hp.
  - destruct Hp as [<-|[]]. assumption.
  - apply in_app_iff in Hp as [Hp | [<-|[]]]; [now apply IH | assumption].
Qed.

Lemma route_steps pf s path e :
  route pf s path e ->
  forall i a b, path !! i = Some a -> path !! S i = Some b ->
                In b (collectNeighbors pf a) /\ isWalkable pf (px b) (py b) = true.
Proof.
  induction 1 as [Hs | path a0 b0 Hr IH Hin Hw]; intros i a b Ha Hb.
  - destruct i; discriminate.
  - destruct (Nat.lt_ge_cases (S i) (length path)) as [Hlt|Hge].
    + rewrite lookup_app_l in Ha, Hb by lia. eauto.
    + pose proof (lookup_lt_Some _ _ _ Hb) as Hlen. rewrite length_app in Hlen.
      simpl in Hlen. assert (Hi : S i = length path) by lia.
      rewrite lookup_app_r in Hb by lia. rewrite lookup_app_l in Ha by lia.
      replace (S i - length path)%nat with 0%nat in Hb by lia.
      injection Hb as <-.
      apply route_last in Hr. rewrite last_lookup in Hr.
      replace (Nat.pred (length path)) with i in Hr by lia.
      rewrite Hr in Ha. injection Ha as <-. now split.
Qed.

Lemma legal_route_snoc pf path a b :
  legal_route pf path = true -> last path = Some a -> legal_step pf a b = true ->
  legal_route pf (path ++ [b]) = true.
Proof.
  intros Hroute Hl Hstep.
  assert (Hwb : isWalkable pf (px b) (py b) = true).
  { unfold legal_step in Hstep. rewrite !andb_true_iff in Hstep. tauto. }
  revert Hl Hroute. induction path as [|p path IHp]; [discriminate|].
  destruct path as [|q path].
  - simpl. intros [= ->] Hp. rewrite andb_true_r in Hp.
    now rewrite Hp, Hstep, Hwb.
  - intros Hl Hroute. cbn [legal_route app] in Hroute |- *.
    apply andb_true_iff in Hroute as [Hp Hroute].
    apply andb_true_iff in Hroute as [Hs Hrest].
    rewrite Hp, Hs. simpl. apply IHp; assumption.
Qed.

Lemma route_legal pf s path e : route pf s path e -> legal_route pf path = true.
Proof.
  induction 1 as [Hs | path a b Hr IH Hin Hw]; [simpl; now rewrite Hs|].
  apply legal_route_snoc with (a := a); [assumption | eapply route_last; eassumption|].
  destruct (collectNeighbors_legal _ _ _ Hin) as [H1 H2].
  unfold legal_step. now rewrite H1, H2, Hw.
Qed.

(** C3.  Every query returns, and in the path it returns each cell is one
    of the eight neighbours of the cell before it and every diagonal step
    has both flanking orthogonal cells walkable; the neighbour collection
    itself offers a diagonal cell only under that condition. *)
Theorem findPath_no_corner_cutting env pf s e :
  engine_ok pf = true ->
  (exists path,
     snd (findPath env pf s e) = Some path /\
     forall i a b, path !! i = Some a -> path !! S i = Some b ->
       adjacent8 a b = true /\
       (px b <> px a -> py b <> py a ->
        isWalkable (refreshed env pf) (px b) (py a) = true /\
        isWalkable (refreshed env pf) (px a) (py b) = true)) /\
  (forall a b, In b (collectNeighbors pf a) ->
     px b <> px a -> py b <> py a ->
     isWalkable pf (px b) (py a) = true /\ isWalkable pf (px a) (py b) = true).
Proof.
  intros Hok.
  assert (Hdiag : forall q a b, In b (collectNeighbors q a) ->
            adjacent8 a b = true /\
            (px b <> px a -> py b <> py a ->
             isWalkable q (px b) (py a) = true /\ isWalkable q (px a) (py b) = true)).
  { intros q a b [H1 H2]%collectNeighbors_legal. split; [assumption|].
    intros Hx Hy. unfold corner_free in H2.
    destruct (Z.eqb_spec (px b) (px a)); [contradiction|].
    destruct (Z.eqb_spec (py b) (py a)); [contradiction|].
    simpl in H2. now apply andb_true_iff in H2. }
  split.
  - destruct (findPath_sound env pf s e Hok) as (path & Hres & Hroute).
    exists path. split; [assumption|].
    intros i a b Ha Hb.
    destruct path as [|p0 path]; [discriminate|].
    destruct (route_steps _ _ _ _ (Hroute ltac:(discriminate)) i a b Ha Hb) as [Hin _].
    now apply Hdiag.
  - intros a b Hin. now apply Hdiag.
Qed.

Lemma findPath_no_corner_cutting_witness :
  exists path,
    snd (findPath (mkEnv (mkTerrain true (Some (3, 3))
                            (fun x z => negb ((x =? 1) && (z =? 0)))) []
                         (fun c _ => c))
                  (Pathfinding_ctor 3 3) (mkPoint 0 0) (mkPoint 2 0)) = Some path /\
    forall i a b, path !! i = Some a -> path !! S i = Some b -> adjacent8 a b = true.
Proof.
  destruct (findPath_no_corner_cutting
              (mkEnv (mkTerrain true (Some (3, 3))
                        (fun x z => negb ((x =? 1) && (z =? 0)))) []
                     (fun c _ => c))
              (Pathfinding_ctor 3 3) (mkPoint 0 0) (mkPoint 2 0) eq_refl)
    as [(path & Hres & Hsteps) _].
  exists path. split; [exact Hres|].
  intros i a b Ha Hb. exact (proj1 (Hsteps i a b Ha Hb)).
Defined.

(** ** Direct edits of the grid *)

Lemma engine_ok_setObstacle pf x y b :
  engine_ok (setObstacle pf x y b) = engine_ok pf.
Proof. unfold setObstacle. now destruct (_ && _). Qed.

Lemma dirty_setObstacle pf x y b :
  m_obstaclesDirty (setObstacle pf x y b) = m_obstaclesDirty pf.
Proof. unfold setObstacle. now destruct (_ && _). Qed.

Lemma isWalkable_setObstacle_blocked pf x y :
  grid_ok pf = true -> in_grid pf x y = true ->
  isWalkable (setObstacle pf x y true) x y = false.
Proof.
  intros (Hw & Hh & Hs)%grid_ok_shape Hin.
  assert (Hin' : in_grid (setObstacle pf x y true) x y = true).
  { unfold setObstacle. now destruct (_ && _). }
  rewrite isWalkable_blocked_in by assumption.
  unfold setObstacle. unfold in_grid in Hin. rewrite Hin. simpl.
  rewrite (blocked_in_set (m_width pf) (m_height pf)) by (assumption || lia).
  now rewrite !Z.eqb_refl, orb_true_r.
Qed.

(** C6 (as amended).  With the dirty flag clear at the time of the query,
    the query that follows [setObstacle x y true] on an in-range cell
    returns, and the path it returns does not contain [(x, y)]. *)
Theorem findPath_avoids_blocked env pf x y s e :
  engine_ok pf = true -> grid_ok pf = true -> in_grid pf x y = true ->
  m_obstaclesDirty pf = false ->
  exists path,
    snd (findPath env (setObstacle pf x y true) s e) = Some path /\
    ~ In (mkPoint x y) path.
Proof.
  intros Hok Hgrid Hin Hclean.
  set (pf1 := setObstacle pf x y true).
  assert (Hok1 : engine_ok pf1 = true) by (subst pf1; now rewrite engine_ok_setObstacle).
  destruct (findPath_sound env pf1 s e Hok1) as (path & Hres & Hroute).
  exists path. split; [assumption|]. intros Hmem.
  assert (Hne : path <> []) by (intros ->; contradiction).
  pose proof (route_walkable _ _ _ _ (Hroute Hne) _ Hmem) as Hw. simpl in Hw.
  rewrite refreshed_clean in Hw by (subst pf1; now rewrite dirty_setObstacle).
  subst pf1. rewrite isWalkable_setObstacle_blocked in Hw by assumption. discriminate.
Qed.

Lemma findPath_avoids_blocked_witness :
  exists path,
    snd (findPath (mkEnv (mkTerrain false None (fun _ _ => true)) [] (fun c _ => c))
                  (setObstacle (with_dirty false (Pathfinding_ctor 3 2)) 1 0 true)
                  (mkPoint 0 0) (mkPoint 2 0)) = Some path /\
    ~ In (mkPoint 1 0) path.
Proof.
  apply (findPath_avoids_blocked _ (with_dirty false (Pathfinding_ctor 3 2)));
    reflexivity.
Defined.

(** The claim C6 as stated fails when the dirty flag is set at the time of
    the query, as it is on a freshly constructed engine: the rebuild that
    precedes the search clears the direct edit, and the returned path runs
    through the cell. *)
Lemma setObstacle_lost_on_rebuild :
  let env := mkEnv (mkTerrain false None (fun _ _ => true)) [] (fun c _ => c) in
  let pf := setObstacle (Pathfinding_ctor 3 1) 1 0 true in
  m_obstaclesDirty pf = true /\
  isWalkable pf 1 0 = false /\
  snd (findPath env pf (mkPoint 0 0) (mkPoint 2 0))
  = Some [mkPoint 0 0; mkPoint 1 0; mkPoint 2 0] /\
  ~ (forall path, snd (findPath env pf (mkPoint 0 0) (mkPoint 2 0)) = Some path ->
                  ~ In (mkPoint 1 0) path).
Proof.
  cbv zeta.
  assert (Hres : snd (findPath (mkEnv (mkTerrain false None (fun _ _ => true)) []
                                  (fun c _ => c))
                        (setObstacle (Pathfinding_ctor 3 1) 1 0 true)
                        (mkPoint 0 0) (mkPoint 2 0))
                 = Some [mkPoint 0 0; mkPoint 1 0; mkPoint 2 0])
    by (vm_compute; reflexivity).
  split; [vm_compute; reflexivity|]. split; [vm_compute; reflexivity|].
  split; [exact Hres|].
  intros H. apply (H _ Hres). right. left. reflexivity.
Qed.

(** ** Witnesses for the scratch store and the budget *)

Lemma nextGeneration_fresh_witness :
  snd (nextGeneration (with_counter (UINT32_MOD - 1) (Pathfinding_ctor 2 2))) <> 0 /\
  snd (nextGeneration (Pathfinding_ctor 2 2)) <> 0.
Proof.
  split.
  - apply (nextGeneration_fresh (with_counter (UINT32_MOD - 1) (Pathfinding_ctor 2 2))).
    reflexivity.
  - apply (nextGeneration_fresh (Pathfinding_ctor 2 2)). reflexivity.
Defined.

Lemma findPath_iteration_budget_witness :
  snd (findPath (mkEnv (mkTerrain true (Some (3, 1)) (fun x _ => negb (x =? 1))) []
                       (fun c _ => c))
                (Pathfinding_ctor 3 1) (mkPoint 0 0) (mkPoint 2 0)) = Some [].
Proof.
  apply findPath_iteration_budget.
  - simpl. lia.
  - simpl. lia.
  - discriminate.
  - vm_compute. reflexivity.
Defined.

(** ** Reference search: a lower bound for every route *)

Lemma Point_eqb_eq a b : Point_eqb a b = true <-> a = b.
Proof.
  unfold Point_eqb. destruct a as [ax ay], b as [bx0 by0]. simpl.
  rewrite andb_true_iff, !Z.eqb_eq. split; [intros [-> ->]; reflexivity|].
  intros [= -> ->]. now split.
Qed.

Lemma mem_point_In p l : mem_point p l = true <-> In p l.
Proof.
  unfold mem_point. rewrite existsb_exists. split.
  - intros (q & Hq & Heq). apply Point_eqb_eq in Heq. now subst.
  - intros H. exists p. split; [assumption | now apply Point_eqb_eq].
Qed.

Lemma moves_walkable pf a b : In b (moves pf a) -> isWalkable pf (px b) (py b) = true.
Proof.
  unfold moves. intros [_ H]%filter_In. unfold legal_step in H.
  rewrite !andb_true_iff in H. tauto.
Qed.

Lemma collectNeighbors_moves pf a b :
  In b (collectNeighbors pf a) -> isWalkable pf (px b) (py b) = true ->
  In b (moves pf a).
Proof.
  intros Hin Hw. unfold moves. apply filter_In. split.
  - apply collectNeighbors_spec in Hin as (dx & dy & Hdx & Hdy & Hnz & -> & _).
    apply in_map_iff. exists (dx, dy). split; [reflexivity|].
    unfold offsets8.
    assert (Hc : (dx = -1 \/ dx = 0 \/ dx = 1) /\ (dy = -1 \/ dy = 0 \/ dy = 1)) by lia.
    destruct Hc as [[-> | [-> | ->]] [-> | [-> | ->]]]; simpl; tauto.
  - destruct (collectNeighbors_legal _ _ _ Hin) as [H1 H2].
    unfold legal_step. now rewrite H1, H2, Hw.
Qed.

Lemma expand_fold_spec visited cands : forall acc,
  NoDup acc -> (forall q, In q acc -> ~ In q visited) ->
  let r := fold_left (fun next q =>
                        if mem_point q visited || mem_point q next
                        then next else next ++ [q]) cands acc in
  NoDup r /\
  (forall q, In q r <-> In q acc \/ (In q cands /\ ~ In q visited)).
Proof.
  induction cands as [|c cands IH]; intros acc Hnd Hdis; simpl.
  - split; [assumption|]. intros q. tauto.
  - destruct (mem_point c visited || mem_point c acc) eqn:E.
    + destruct (IH acc Hnd Hdis) as [H1 H2]. split; [assumption|].
      intros q. rewrite H2. split; [tauto|].
      intros [Hq | [[<-|Hq] Hnv]]; [tauto | | tauto].
      apply orb_true_iff in E as [E|E]; apply mem_point_In in E; tauto.
    + apply orb_false_iff in E as [E1 E2].
      assert (Hc1 : ~ In c visited) by (rewrite <- mem_point_In; congruence).
      assert (Hc2 : ~ In c acc) by (rewrite <- mem_point_In; congruence).
      destruct (IH (acc ++ [c])) as [H1 H2].
      * apply NoDup_app. repeat split; [assumption | | apply NoDup_singleton].
        intros x Hx Hx'%list_elem_of_In. destruct Hx' as [<-|[]].
        now apply list_elem_of_In in Hx.
      * intros q [Hq|[<-|[]]]%in_app_iff; auto.
      * split; [assumption|]. intros q. rewrite H2, in_app_iff. simpl.
        split; [intros [[Hq|[<-|[]]]|[Hq Hnv]]; tauto | tauto].
Qed.

Lemma expand_spec pf frontier visited :
  NoDup (expand pf frontier visited) /\
  (forall q, In q (expand pf frontier visited) <->
             In q (flat_map (moves pf) frontier) /\ ~ In q visited).
Proof.
  unfold expand.
  destruct (expand_fold_spec visited (flat_map (moves pf) frontier) [])
    as [H1 H2]; [apply NoDup_nil; exact I | intros q [] |].
  split; [assumption|]. intros q. rewrite H2. simpl. tauto.
Qed.

Lemma bfs_closed_reach pf s visited path p :
  In s visited ->
  (forall a, In a visited -> forall q, In q (moves pf a) -> In q visited) ->
  route pf s path p -> In p visited.
Proof.
  intros Hs Hcl. induction 1 as [|path a b Hr IH Hin Hw]; [assumption|].
  apply (Hcl a IH). now apply collectNeighbors_moves.
Qed.

Lemma route_nonempty pf s path p : route pf s path p -> (1 <= length path)%nat.
Proof.
  induction 1; simpl; [lia|]. rewrite length_app. simpl. lia.
Qed.

Lemma bfs_step pf s goal frontier visited j :
  bfs_inv pf s frontier visited ->
  bfs_complete pf s visited j ->
  (In goal visited -> In goal frontier) ->
  ~ In goal frontier ->
  let next := expand pf frontier visited in
  bfs_inv pf s next (visited ++ next) /\
  bfs_complete pf s (visited ++ next) (S j) /\
  (In goal (visited ++ next) -> In goal next).
Proof.
  intros [Hs Hcl Hnd Hwk] Hcomp Hgoal Hnot next.
  destruct (expand_spec pf frontier visited) as [Hnn Hnext]. fold next in Hnn, Hnext.
  assert (Hmv : forall a q, In a frontier -> In q (moves pf a) ->
                            In q (visited ++ next)).
  { intros a q Ha Hq. apply in_app_iff.
    destruct (mem_point q visited) eqn:E; [left; now apply mem_point_In|].
    right. apply Hnext. split.
    - apply in_flat_map. eauto.
    - rewrite <- mem_point_In. congruence. }
  split; [|split].
  - constructor.
    + apply in_app_iff. now left.
    + intros p [Hp|Hp]%in_app_iff; [|now left].
      right. intros q Hq. destruct (Hcl p Hp) as [Hf|Hall].
      * now apply (Hmv p).
      * apply in_app_iff. left. now apply Hall.
    + apply NoDup_app. repeat split; try assumption.
      intros x Hx%list_elem_of_In Hx'%list_elem_of_In.
      apply Hnext in Hx' as [_ Hx']. contradiction.
    + intros p [Hp|Hp]%in_app_iff; [now apply Hwk|].
      apply Hnext in Hp as [(a & _ & Hq)%in_flat_map _].
      now apply moves_walkable in Hq.
  - intros path p Hr Hlen. inversion Hr as [Hw | path' a b Hr' Hin Hw]; subst.
    + apply in_app_iff. now left.
    + rewrite length_app in Hlen. simpl in Hlen.
      assert (Ha : In a visited) by (apply (Hcomp path' a Hr'); lia).
      pose proof (collectNeighbors_moves _ _ _ Hin Hw) as Hq.
      destruct (Hcl a Ha) as [Hf|Hall].
      * now apply (Hmv a).
      * apply in_app_iff. left. now apply Hall.
  - intros [Hg|Hg]%in_app_iff; [|assumption].
    exfalso. apply Hnot. now apply Hgoal.
Qed.

Lemma walkable_points_bounded pf (l : list Point) :
  0 <= m_width pf -> 0 <= m_height pf ->
  NoDup l -> (forall p, In p l -> isWalkable pf (px p) (py p) = true) ->
  (length l <= total_cells pf)%nat.
Proof.
  intros Hw Hh Hnd Hwk.
  assert (Hin : forall p, In p l ->
            0 <= px p < m_width pf /\ 0 <= py p < m_height pf).
  { intros p Hp. apply isWalkable_in_grid. now apply Hwk. }
  assert (Hnd' : NoDup (toIndex pf <$> l)).
  { apply NoDup_fmap_2_strong; [|assumption].
    intros p q Hp%list_elem_of_In%Hin Hq%list_elem_of_In%Hin.
    apply toIndex_inj; lia. }
  assert (H : (length (toIndex pf <$> l) <=
               length (seqZ 0 (m_width pf * m_height pf)))%nat).
  { apply submseteq_length, NoDup_submseteq; [assumption|].
    intros i (p & -> & Hp%list_elem_of_In%Hin)%list_elem_of_fmap.
    apply elem_of_seqZ. pose proof (toIndex_range pf p). lia. }
  rewrite length_fmap, length_seqZ in H. unfold total_cells. lia.
Qed.

Lemma bfs_levels_finds pf s goal (m : nat) :
  0 <= m_width pf -> 0 <= m_height pf ->
  forall fuel frontier visited j,
  bfs_inv pf s frontier visited ->
  bfs_complete pf s visited j ->
  (In goal visited -> In goal frontier) ->
  (exists path, route pf s path goal /\ (length path <= S (j + m))%nat) ->
  (total_cells pf + 2 <= fuel + length visited)%nat ->
  exists d, bfs_levels fuel pf goal frontier visited (Z.of_nat j) = Some d /\
            Z.of_nat j <= d <= Z.of_nat (j + m).
Proof.
  intros Hw Hh.
  induction m as [|m IH]; intros fuel F V j HI Hc Hg (path & Hr & Hlen) Hfuel;
    pose proof (walkable_points_bounded pf V Hw Hh
                  (bi_nodup _ _ _ _ HI) (bi_walk _ _ _ _ HI)) as HV;
    (destruct fuel as [|fuel]; [lia|]); simpl;
    (destruct (mem_point goal F) eqn:E;
       [exists (Z.of_nat j); split; [reflexivity | lia]|]);
    assert (Hnot : ~ In goal F) by (rewrite <- mem_point_In; congruence).
  - exfalso. apply Hnot, Hg. apply (Hc path goal Hr). lia.
  - destruct (bfs_step pf s goal F V j HI Hc Hg Hnot) as (HI' & Hc' & Hg').
    set (next := expand pf F V) in *.
    assert (Hnext : next <> []).
    { intros Hnil. apply Hnot, Hg.
      rewrite Hnil, app_nil_r in HI'.
      eapply bfs_closed_reach; [apply (bi_start _ _ _ _ HI) | | exact Hr].
      intros a Ha. destruct (bi_closed _ _ _ _ HI' a Ha) as [[]|]; assumption. }
    destruct F as [|f0 F'].
    + exfalso. apply Hnot, Hg.
      eapply bfs_closed_reach; [apply (bi_start _ _ _ _ HI) | | exact Hr].
      intros a Ha. destruct (bi_closed _ _ _ _ HI a Ha) as [[]|]; assumption.
    + destruct (IH fuel next (V ++ next) (S j) HI' Hc' Hg') as (d & Hd & Hrange).
      * exists path. split; [assumption | lia].
      * rewrite length_app. destruct next; [contradiction|]. simpl. lia.
      * exists d. replace (Z.of_nat j + 1) with (Z.of_nat (S j)) by lia.
        split; [exact Hd | lia].
Qed.

(** The reference search finds every cell a route leads to, in no more
    moves than the route has. *)
Lemma bfs_distance_lower_bound pf s path e :
  0 <= m_width pf -> 0 <= m_height pf ->
  route pf s path e ->
  exists d, bfs_distance pf s e = Some d /\
            0 <= d /\ d + 1 <= Z.of_nat (length path).
Proof.
  intros Hw Hh Hr.
  assert (Hs : isWalkable pf (px s) (py s) = true).
  { apply (route_walkable _ _ _ _ Hr). apply route_head in Hr.
    destruct path; [discriminate|]. injection Hr as ->. now left. }
  pose proof (route_nonempty _ _ _ _ Hr) as Hlen.
  unfold bfs_distance. rewrite Hs.
  destruct (bfs_levels_finds pf s e (length path - 1) Hw Hh
              (S (S (total_cells pf))) [s] [s] 0%nat) as (d & Hd & Hrange).
  - constructor.
    + now left.
    + intros p Hp. now left.
    + apply NoDup_singleton.
    + intros p [<-|[]]. assumption.
  - intros path' p Hr' Hl. inversion Hr' as [|path'' a b Hr'' Hin Hwb]; subst.
    + now left.
    + pose proof (route_nonempty _ _ _ _ Hr''). rewrite length_app in Hl.
      simpl in Hl. lia.
  - tauto.
  - exists path. split; [assumption | lia].
  - simpl. lia.
  - exists d. split; [exact Hd | lia].
Qed.

(** ** Shortest paths: what holds and what does not *)


(** The iteration budget counts discarded heap entries too, so it can run
    out before a reachable end cell is closed: on this 10 x 3 grid the end
    is twelve moves away, the loop stops after its thirtieth iteration and
    the query returns the empty path. *)
Lemma findPath_budget_exhausted :
  let blocked := fun x z : Z =>
    ((x =? 6) && (z =? 0)) || ((x =? 2) && (z =? 1)) ||
    ((x =? 8) && (z =? 1)) || ((x =? 8) && (z =? 2)) in
  let env := mkEnv (mkTerrain true (Some (10, 3)) (fun x z => negb (blocked x z))) []
                   (fun c _ => c) in
  let pf := Pathfinding_ctor 10 3 in
  bfs_distance (refreshed env pf) (mkPoint 0 0) (mkPoint 9 2) = Some 12 /\
  snd (findPath env pf (mkPoint 0 0) (mkPoint 9 2)) = Some [] /\
  snd (findPathInternal (refreshed env pf) (mkPoint 0 0) (mkPoint 9 2)) = 30.
Proof.
  cbv zeta. repeat split; vm_compute; reflexivity.
Qed.

(** ** The worked examples of the specification *)

Example open_grid_diagonal :
  snd (findPath (mkEnv (mkTerrain false None (fun _ _ => true)) [] (fun c _ => c))
                (Pathfinding_ctor 5 5) (mkPoint 0 0) (mkPoint 4 4)) =
  Some [mkPoint 0 0; mkPoint 1 1; mkPoint 2 2; mkPoint 3 3; mkPoint 4 4].
Proof. vm_compute. reflexivity. Qed.

Example blocked_column_detour :
  exists path,
    snd (findPath (mkEnv (mkTerrain true (Some (5, 5))
                            (fun x z => negb ((x =? 2) && (z <? 4)))) []
                         (fun c _ => c))
                  (Pathfinding_ctor 5 5) (mkPoint 0 0) (mkPoint 4 0)) = Some path /\
    In (mkPoint 2 4) path.
Proof.
  eexists. split; [vm_compute; reflexivity|]. simpl. tauto.
Qed.

(** ** The class invariant is established and kept *)

Lemma fetchCompletedPaths_drains_witness :
  fst (fetchCompletedPaths (Pathfinding_ctor 1 1)) = [] /\
  snd (fetchCompletedPaths (Pathfinding_ctor 1 1)) = Pathfinding_ctor 1 1.
Proof.
  apply (fetchCompletedPaths_drains (Pathfinding_ctor 1 1)). reflexivity.
Defined.

Lemma Pathfinding_ctor_ok width height :
  0 <= width -> 0 <= height ->
  engine_ok (Pathfinding_ctor width height) = true /\
  grid_ok (Pathfinding_ctor width height) = true /\
  m_obstaclesDirty (Pathfinding_ctor width height) = true.
Proof.
  intros Hw Hh. unfold Pathfinding_ctor.
  set (pf := mkPathfinding _ _ _ _ _ _ _ _ _ _ _ _ _ _ _).
  assert (Hok : engine_ok pf = true).
  { unfold engine_ok, stamps_ok, buffers_ok. subst pf. simpl.
    rewrite !andb_true_iff. repeat split; lia. }
  destruct (ensureWorkingBuffers_sized pf Hok) as [(Hw' & Hh' & Hsz) Hst].
  split; [|split; [|reflexivity]].
  - unfold engine_ok. simpl.
    change (stamps_ok (with_dirty true (ensureWorkingBuffers pf)))
      with (stamps_ok (ensureWorkingBuffers pf)).
    rewrite Hst. unfold buffers_ok. simpl.
    unfold scratch_lengths in Hsz. injection Hsz as -> -> -> -> ->.
    rewrite !Nat.eqb_refl.
    rewrite !(outside_scratch_width _ _ (frame_ensureWorkingBuffers pf)),
      !(outside_scratch_height _ _ (frame_ensureWorkingBuffers pf)).
    subst pf. simpl. rewrite !andb_true_iff. repeat split; lia.
  - apply shape_grid_ok; simpl;
      rewrite ?(outside_scratch_width _ _ (frame_ensureWorkingBuffers pf)),
        ?(outside_scratch_height _ _ (frame_ensureWorkingBuffers pf)),
        ?(outside_scratch_obstacles _ _ (frame_ensureWorkingBuffers pf));
      subst pf; simpl; try assumption.
    split; [apply length_replicate|].
    apply Forall_forall. intros row [-> _]%elem_of_replicate. apply length_replicate.
Qed.

Lemma forallb_insert {A} (P : A -> bool) (l : list A) i x :
  forallb P l = true -> P x = true -> forallb P (<[i:=x]> l) = true.
Proof.
  revert i. induction l as [|a l IH]; intros i Hl Hx; [exact Hl|].
  simpl in Hl. apply andb_true_iff in Hl as [Ha Hl].
  destruct i; simpl; rewrite ?Ha, ?Hx; simpl; auto.
Qed.

Lemma forallb_replicate {A} (P : A -> bool) n x :
  P x = true -> forallb P (replicate n x) = true.
Proof. intros Hx. induction n; simpl; [reflexivity|]. now rewrite Hx. Qed.

Lemma forallb_weaken {A} (P Q : A -> bool) (l : list A) :
  (forall a, P a = true -> Q a = true) -> forallb P l = true -> forallb Q l = true.
Proof.
  intros HPQ. induction l as [|a l IH]; simpl; [reflexivity|].
  intros [Ha Hl]%andb_true_iff. rewrite (HPQ a Ha). now apply IH.
Qed.

Lemma stamps_ok_setClosed pf i :
  stamps_ok pf = true -> stamps_ok (setClosed pf i (m_generationCounter pf)) = true.
Proof.
  unfold stamps_ok, setClosed. destruct (in_vec _ _); [|trivial]. simpl.
  rewrite !andb_true_iff. intros [[[[H0 H1] Hc] Hg] Hp]. repeat split; try assumption.
  apply forallb_insert; [assumption | lia].
Qed.

Lemma stamps_ok_setGCost pf i c :
  stamps_ok pf = true -> stamps_ok (setGCost pf i (m_generationCounter pf) c) = true.
Proof.
  unfold stamps_ok, setGCost. destruct (in_vec _ _); [|trivial]. simpl.
  rewrite !andb_true_iff. intros [[[[H0 H1] Hc] Hg] Hp]. repeat split; try assumption.
  apply forallb_insert; [assumption | lia].
Qed.

Lemma stamps_ok_setParent pf i p :
  stamps_ok pf = true -> stamps_ok (setParent pf i (m_generationCounter pf) p) = true.
Proof.
  unfold stamps_ok, setParent. destruct (in_vec _ _); [|trivial]. simpl.
  rewrite !andb_true_iff. intros [[[[H0 H1] Hc] Hg] Hp]. repeat split; try assumption.
  apply forallb_insert; [assumption | lia].
Qed.

Lemma stamps_ok_with_openHeap h pf : stamps_ok (with_openHeap h pf) = stamps_ok pf.
Proof. reflexivity. Qed.

Lemma stamps_ok_nextGeneration pf :
  stamps_ok pf = true -> stamps_ok (fst (nextGeneration pf)) = true.
Proof.
  intros Hok. pose proof Hok as (Hc & _)%stamps_ok_spec.
  destruct (incr_uint32_cases _ Hc) as [[H0 _] | [Hs Hlt]].
  - rewrite nextGeneration_overflow by assumption. unfold stamps_ok. simpl.
    rewrite !forallb_replicate by reflexivity. reflexivity.
  - rewrite nextGeneration_plain by lia. rewrite Hs.
    unfold stamps_ok in *. simpl. rewrite !andb_true_iff in *.
    destruct Hok as [[[[H0 H1] Hcl] Hg] Hp].
    repeat split; try lia;
      (eapply forallb_weaken; [|eassumption]; intros a Ha; simpl in *; lia).
Qed.

Lemma stamps_ok_relax_neighbors ns : forall pf cur e,
  stamps_ok pf = true ->
  stamps_ok (relax_neighbors pf (m_generationCounter pf) cur e ns) = true.
Proof.
  induction ns as [|n ns IH]; intros pf cur e Hok; simpl; [assumption|].
  repeat match goal with |- context [if ?b then _ else _] => destruct b end;
    try (now apply IH).
  set (p1 := setGCost pf (toIndex pf n) (m_generationCounter pf) (gCost cur + 1)).
  assert (Hc1 : m_generationCounter p1 = m_generationCounter pf)
    by apply counter_setGCost.
  assert (Hp1 : stamps_ok p1 = true) by now apply stamps_ok_setGCost.
  rewrite <- Hc1.
  set (p2 := setParent p1 (toIndex pf n) (m_generationCounter p1) (index cur)).
  assert (Hc2 : m_generationCounter p2 = m_generationCounter p1)
    by apply counter_setParent.
  assert (Hp2 : stamps_ok p2 = true) by now apply stamps_ok_setParent.
  rewrite <- Hc2.
  set (p3 := pushOpenNode p2 _).
  change (m_generationCounter p2) with (m_generationCounter p3).
  now apply IH.
Qed.

Lemma stamps_ok_search_loop budget : forall pf ei e it,
  stamps_ok pf = true ->
  stamps_ok (fst (fst (search_loop budget pf (m_generationCounter pf) ei e it))) = true.
Proof.
  induction budget as [|b IH]; intros pf ei e it Hok; simpl; [assumption|].
  destruct (m_openHeap pf) eqn:Hh; [assumption|].
  pose proof (popOpenNode_state pf) as Hst.
  pose proof (counter_popOpenNode pf) as Hcnt.
  destruct (popOpenNode pf) as [cur pf1]. simpl in Hst, Hcnt.
  assert (Hok1 : stamps_ok pf1 = true) by (rewrite Hst; exact Hok).
  rewrite <- Hcnt.
  destruct (gCost cur >? _); [now apply IH|].
  destruct (isClosed pf1 _ _); [now apply IH|].
  pose proof (stamps_ok_setClosed pf1 (index cur) Hok1) as Hok2.
  destruct (index cur =? ei); [exact Hok2|].
  set (pf2 := setClosed pf1 (index cur) (m_generationCounter pf1)) in *.
  assert (Hc2 : m_generationCounter pf2 = m_generationCounter pf1)
    by apply counter_setClosed.
  rewrite <- Hc2.
  pose proof (stamps_ok_relax_neighbors
                (collectNeighbors pf2 (toPoint pf2 (index cur))) pf2 cur e Hok2) as Hok3.
  rewrite <- (counter_relax_neighbors
                (collectNeighbors pf2 (toPoint pf2 (index cur))) pf2
                (m_generationCounter pf2) cur e) at 2.
  now apply IH.
Qed.

Lemma buffers_ok_lengths pf pf' :
  scratch_lengths pf' = scratch_lengths pf -> buffers_ok pf' = buffers_ok pf.
Proof.
  unfold scratch_lengths, buffers_ok. intros [= -> -> -> -> ->]. reflexivity.
Qed.

Lemma engine_ok_ensureWorkingBuffers pf :
  engine_ok pf = true -> engine_ok (ensureWorkingBuffers pf) = true.
Proof.
  intros Hok. destruct (ensureWorkingBuffers_sized pf Hok) as [(Hw & Hh & Hsz) Hst].
  unfold engine_ok. rewrite Hst. unfold buffers_ok.
  unfold scratch_lengths in Hsz. injection Hsz as -> -> -> -> ->.
  rewrite !Nat.eqb_refl. simpl. lia.
Qed.

(** A query keeps the class invariant. *)
Lemma findPathInternal_keeps_ok pf s e :
  engine_ok pf = true -> engine_ok (fst (fst (findPathInternal pf s e))) = true.
Proof.
  intros Hok. pose proof (engine_ok_ensureWorkingBuffers pf Hok) as Hok0.
  pose proof (frame_findPathInternal pf s e) as Hfr.
  unfold findPathInternal in *. set (pf0 := ensureWorkingBuffers pf) in *.
  destruct (negb _ || negb _); [exact Hok0|].
  destruct (_ =? _); [exact Hok0|].
  apply engine_ok_spec in Hok0 as (Hw & Hh & Hst & Hb).
  pose proof (stamps_ok_nextGeneration pf0 Hst) as Hst1.
  pose proof (lengths_nextGeneration pf0) as Hl1.
  pose proof (nextGeneration_counter pf0) as Hc1.
  destruct (nextGeneration pf0) as [pf1 g]. simpl in Hst1, Hl1, Hc1. subst g.
  set (si := toIndex pf0 s) in *.
  set (pf5 := pushOpenNode _ _) in *.
  assert (Hc5 : m_generationCounter pf5 = m_generationCounter pf1).
  { subst pf5. change (m_generationCounter (pushOpenNode ?q ?n)) with (m_generationCounter q).
    now rewrite counter_setParent, counter_setGCost. }
  assert (Hst5 : stamps_ok pf5 = true).
  { subst pf5. unfold pushOpenNode. rewrite stamps_ok_with_openHeap.
    set (pfh := with_openHeap [] pf1).
    change (m_generationCounter pf1) with (m_generationCounter pfh).
    set (p1 := setGCost pfh si (m_generationCounter pfh) 0).
    assert (Hq1 : m_generationCounter p1 = m_generationCounter pfh)
      by apply counter_setGCost.
    assert (Hp1 : stamps_ok p1 = true) by now apply stamps_ok_setGCost.
    rewrite <- Hq1. now apply stamps_ok_setParent. }
  assert (Hl5 : scratch_lengths pf5 = scratch_lengths pf0).
  { subst pf5. change (scratch_lengths (pushOpenNode ?q ?n)) with (scratch_lengths q).
    now rewrite lengths_setParent, lengths_setGCost. }
  rewrite <- Hc5 in *.
  match goal with |- context [search_loop ?b ?p ?g ?ei ?e0 ?it] =>
    pose proof (stamps_ok_search_loop b p ei e0 it Hst5) as Hst6;
    destruct (search_loop b p g ei e0 it) as [[pf6 fc] its] eqn:Hloop end.
  apply search_loop_budget in Hloop as (_ & Hl6 & _ & _).
  simpl in Hst6.
  assert (Hfinal : engine_ok pf6 = true).
  { unfold engine_ok. rewrite Hst6.
    rewrite (buffers_ok_lengths pf0 pf6) by congruence. rewrite Hb.
    assert (Hfr6 : outside_scratch pf6 = outside_scratch pf0).
    { destruct (fc <? 0); simpl in Hfr; rewrite Hfr;
        symmetry; apply frame_ensureWorkingBuffers. }
    rewrite (outside_scratch_width _ _ Hfr6), (outside_scratch_height _ _ Hfr6).
    simpl. lia. }
  destruct (fc <? 0); exact Hfinal.
Qed.

Lemma findPath_keeps_ok env pf s e :
  engine_ok pf = true -> engine_ok (fst (findPath env pf s e)) = true.
Proof.
  intros Hok. rewrite findPath_unfold. simpl.
  apply findPathInternal_keeps_ok. now apply engine_ok_refreshed.
Qed.

Lemma terrain_pass_shape ts pf g :
  0 <= m_width pf -> 0 <= m_height pf ->
  grid_shape (m_width pf) (m_height pf) g ->
  grid_shape (m_width pf) (m_height pf) (terrain_pass ts pf g).
Proof.
  intros Hw Hh Hs. unfold terrain_pass.
  apply (marking_fold _ (fun _ => false) (grid_shape (m_width pf) (m_height pf))
           (fun _ => false)); [|assumption].
  intros g0 b Hb%list_elem_of_In%elem_of_seqZ Hg0. split; [|reflexivity].
  apply (marking_fold _ (fun _ => false) (grid_shape (m_width pf) (m_height pf))
           (fun _ => false)); [|assumption].
  intros g1 a Ha%list_elem_of_In%elem_of_seqZ Hg1. split; [|reflexivity].
  apply (terrain_cell_step ts _ _ _ _ g1 a b 0 0); (assumption || lia).
Qed.

Lemma building_pass_shape env pf g :
  grid_shape (m_width pf) (m_height pf) g ->
  grid_shape (m_width pf) (m_height pf) (building_pass env pf g).
Proof.
  intros Hs. unfold building_pass.
  apply (marking_fold _ (fun _ => false) (grid_shape (m_width pf) (m_height pf))
           (fun _ => false)); [|assumption].
  intros g0 cells _ Hg0. split; [|reflexivity].
  apply (marking_fold _ (fun _ => false) (grid_shape (m_width pf) (m_height pf))
           (fun _ => false)); [|assumption].
  intros g1 cell _ Hg1. split; [|reflexivity].
  apply (building_cell_step env pf g1 cell 0 0); (assumption || lia).
Qed.

Lemma grid_ok_updateBuildingObstacles env pf :
  grid_ok pf = true -> grid_ok (updateBuildingObstacles env pf) = true.
Proof.
  intros Hok. pose proof Hok as (Hw & Hh & Hs)%grid_ok_shape.
  unfold updateBuildingObstacles. destruct (m_obstaclesDirty pf); [|assumption]. simpl.
  apply shape_grid_ok; simpl; try assumption.
  apply building_pass_shape.
  destruct (cleared_grid _ _ _ Hs) as [Hs0 _].
  destruct (isInitialized _); [now apply terrain_pass_shape | assumption].
Qed.

Lemma grid_ok_frame pf pf' :
  outside_scratch pf' = outside_scratch pf -> grid_ok pf' = grid_ok pf.
Proof.
  intros H. unfold grid_ok.
  now rewrite (outside_scratch_width _ _ H), (outside_scratch_height _ _ H),
    (outside_scratch_obstacles _ _ H).
Qed.

Lemma grid_ok_setObstacle pf x y b :
  grid_ok pf = true -> grid_ok (setObstacle pf x y b) = true.
Proof.
  intros Hok. pose proof Hok as (Hw & Hh & Hs)%grid_ok_shape.
  unfold setObstacle. destruct (_ && _); [|assumption].
  apply shape_grid_ok; simpl; try assumption. now apply obstacle_set_shape.
Qed.

Lemma grid_ok_findPath env pf s e :
  grid_ok pf = true -> grid_ok (fst (findPath env pf s e)) = true.
Proof.
  intros Hok. rewrite findPath_unfold. simpl.
  rewrite (grid_ok_frame _ _ (frame_findPathInternal _ s e)).
  unfold refreshed. destruct (m_obstaclesDirty pf); [|assumption].
  now apply grid_ok_updateBuildingObstacles.
Qed.

(** X22.  Every state the operations can produce satisfies the invariants
    the theorems above assume: non-negative dimensions, stamps issued by the
    counter, scratch arrays of one size, and an obstacle grid of [m_height]
    rows of [m_width] cells. *)
Lemma reachable_ok pf : reachable pf -> engine_ok pf = true /\ grid_ok pf = true.
Proof.
  induction 1 as [w h Hw Hh | pf ox oz _ [IH1 IH2] | pf x y b _ [IH1 IH2]
                 | pf _ [IH1 IH2] | env pf s e _ [IH1 IH2]
                 | pf id s e _ [IH1 IH2] | pf _ [IH1 IH2] | env pf _ [IH1 IH2]].
  - destruct (Pathfinding_ctor_ok w h Hw Hh) as (H1 & H2 & _). now split.
  - now split.
  - split; [now rewrite engine_ok_setObstacle | now apply grid_ok_setObstacle].
  - now split.
  - split; [now apply findPath_keeps_ok | now apply grid_ok_findPath].
  - now split.
  - unfold fetchCompletedPaths. rewrite drain_spec. now split.
  - unfold worker_step. destruct (m_requestQueue pf) as [|r rest]; [now split|].
    pose proof (findPath_keeps_ok env (with_requestQueue rest pf)
                  (req_start r) (req_end r) IH1) as H1.
    pose proof (grid_ok_findPath env (with_requestQueue rest pf)
                  (req_start r) (req_end r) IH2) as H2.
    destruct (findPath _ _ _ _) as [pf1 result]. now split.
Qed.

Lemma reachable_ok_witness :
  engine_ok (setObstacle (markObstaclesDirty (Pathfinding_ctor 3 2)) 1 1 true) = true /\
  grid_ok (setObstacle (markObstaclesDirty (Pathfinding_ctor 3 2)) 1 1 true) = true.
Proof.
  apply (reachable_ok (setObstacle (markObstaclesDirty (Pathfinding_ctor 3 2)) 1 1 true)).
  apply reach_setObstacle, reach_markObstaclesDirty, reach_ctor; lia.
Defined.

(** The worker answers the front request and appends its result behind the
    results already waiting, so results are fetched in the order in which
    their requests were submitted. *)
Lemma worker_step_appends env pf r rest :
  m_requestQueue pf = r :: rest ->
  m_requestQueue (worker_step env pf) = rest /\
  exists p, m_resultQueue (worker_step env pf) =
            m_resultQueue pf ++ [mkResult (req_id r) p].
Proof.
  intros Hq. unfold worker_step. rewrite Hq.
  pose proof (findPath_unfold env (with_requestQueue rest pf) (req_start r) (req_end r))
    as Hu.
  pose proof (frame_findPathInternal
                (refreshed env (with_requestQueue rest pf)) (req_start r) (req_end r))
    as Hfr.
  destruct (findPath _ _ _ _) as [pf1 result]. injection Hu as -> _.
  assert (Hq' : m_requestQueue (refreshed env (with_requestQueue rest pf)) = rest /\
                m_resultQueue (refreshed env (with_requestQueue rest pf)) =
                m_resultQueue pf).
  { unfold refreshed, updateBuildingObstacles.
    now destruct (m_obstaclesDirty (with_requestQueue rest pf)). }
  destruct Hq' as [Hq1 Hq2].
  unfold outside_scratch in Hfr. injection Hfr as _ _ _ _ _ _ Hr Hs.
  rewrite Hq1 in Hr. rewrite Hq2 in Hs.
  simpl. split; [exact Hr|]. rewrite Hs. eauto.
Qed.

(** * The rest of the engine *)

(** ** Order of the open list *)

Lemma heapLess_irrefl a : heapLess a a = false.
Proof. unfold heapLess. rewrite Z.eqb_refl. simpl. lia. Qed.

Lemma heapLess_asym a b : heapLess a b = true -> heapLess b a = false.
Proof.
  unfold heapLess.
  destruct (Z.eqb_spec (fCost a) (fCost b)), (Z.eqb_spec (fCost b) (fCost a));
    simpl; lia.
Qed.

Lemma heapLess_trans a b c :
  heapLess a b = true -> heapLess b c = true -> heapLess a c = true.
Proof.
  unfold heapLess.
  destruct (Z.eqb_spec (fCost a) (fCost b)), (Z.eqb_spec (fCost b) (fCost c)),
    (Z.eqb_spec (fCost a) (fCost c)); simpl; lia.
Qed.

Lemma heapLess_keys a b :
  heapLess a b = false -> heapLess b a = false ->
  fCost a = fCost b /\ gCost a = gCost b.
Proof.
  unfold heapLess.
  destruct (Z.eqb_spec (fCost a) (fCost b)), (Z.eqb_spec (fCost b) (fCost a));
    simpl; lia.
Qed.

Lemma node_le_trans a b c : node_le a b -> node_le b c -> node_le a c.
Proof.
  unfold node_le, heapLess.
  destruct (Z.eqb_spec (fCost b) (fCost a)), (Z.eqb_spec (fCost c) (fCost b)),
    (Z.eqb_spec (fCost c) (fCost a)); simpl; lia.
Qed.

Lemma node_le_of_less a b : heapLess a b = true -> node_le a b.
Proof. apply heapLess_asym. Qed.

Lemma node_le_total a b : node_le a b \/ node_le b a.
Proof.
  unfold node_le. destruct (heapLess b a) eqn:E; [right|now left].
  now apply heapLess_asym.
Qed.

(** X1.  [heapLess] is a strict weak order on open-list entries: it is
    irreflexive and transitive, and two entries neither of which is less
    than the other have the same f-cost and the same g-cost; among equal
    f-costs the smaller g-cost comes first. *)
Theorem heapLess_strict_weak_order :
  (forall a, heapLess a a = false) /\
  (forall a b c, heapLess a b = true -> heapLess b c = true -> heapLess a c = true) /\
  (forall a b, heapLess a b = false -> heapLess b a = false ->
               fCost a = fCost b /\ gCost a = gCost b) /\
  (forall a b, fCost a = fCost b -> heapLess a b = (gCost a <? gCost b)) /\
  (forall a b, fCost a < fCost b -> heapLess a b = true).
Proof.
  split; [exact heapLess_irrefl|]. split; [exact heapLess_trans|].
  split; [exact heapLess_keys|]. split.
  - intros a b H. unfold heapLess. rewrite H, Z.eqb_refl. reflexivity.
  - intros a b H. unfold heapLess.
    destruct (Z.eqb_spec (fCost a) (fCost b)); simpl; lia.
Qed.

(** ** Contents of the open list *)

Lemma heap_at_lookup h i : (i < length h)%nat -> h !! i = Some (heap_at h i).
Proof.
  intros Hi. unfold heap_at.
  destruct (lookup_lt_is_Some_2 h i Hi) as [x ->]. reflexivity.
Qed.

Lemma heap_swap_perm h i j :
  (i < length h)%nat -> (j < length h)%nat -> heap_swap h i j ≡ₚ h.
Proof.
  intros Hi Hj. unfold heap_swap.
  apply Permutation_insert_swap; now apply heap_at_lookup.
Qed.

Lemma sift_up_perm fuel : forall h i,
  (i < length h)%nat -> sift_up fuel h i ≡ₚ h.
Proof.
  induction fuel as [|fuel IH]; intros h i Hi; [reflexivity|].
  rewrite sift_up_S.
  destruct (Nat.ltb_spec 0 i) as [Hpos|]; [|reflexivity].
  destruct (heapLess _ _); [reflexivity|].
  assert (Hpar : ((i - 1) / 2 < i)%nat) by (apply Nat.Div0.div_lt_upper_bound; lia).
  rewrite IH by (rewrite heap_swap_length; lia).
  apply heap_swap_perm; lia.
Qed.

Lemma sift_down_perm fuel : forall h i,
  (i < length h)%nat -> sift_down fuel h i ≡ₚ h.
Proof.
  induction fuel as [|fuel IH]; intros h i Hi; [reflexivity|].
  rewrite sift_down_S. cbv zeta.
  set (l := (i * 2 + 1)%nat).
  set (s1 := if (l <? length h)%nat && negb (heapLess (heap_at h i) (heap_at h l))
             then l else i).
  assert (Hs1 : (s1 < length h)%nat).
  { subst s1. destruct (Nat.ltb_spec l (length h)); simpl; [|assumption].
    destruct (heapLess (heap_at h i) (heap_at h l)); simpl; lia. }
  set (s2 := if ((l + 1) <? length h)%nat &&
                negb (heapLess (heap_at h s1) (heap_at h (l + 1)%nat))
             then (l + 1)%nat else s1).
  assert (Hs2 : (s2 < length h)%nat).
  { subst s2. destruct (Nat.ltb_spec (l + 1) (length h)); simpl; [|assumption].
    destruct (heapLess (heap_at h s1) (heap_at h (l + 1)%nat)); simpl; lia. }
  destruct (s2 =? i)%nat; [reflexivity|].
  rewrite IH by (now rewrite heap_swap_length).
  now apply heap_swap_perm.
Qed.

Lemma pushOpenNode_perm pf node :
  m_openHeap (pushOpenNode pf node) ≡ₚ node :: m_openHeap pf.
Proof.
  unfold pushOpenNode. cbn [m_openHeap with_openHeap].
  rewrite sift_up_perm by (rewrite length_app; simpl; lia).
  rewrite Permutation_app_comm. reflexivity.
Qed.

Lemma popOpenNode_perm pf :
  m_openHeap pf <> [] ->
  fst (popOpenNode pf) :: m_openHeap (snd (popOpenNode pf)) ≡ₚ m_openHeap pf.
Proof.
  intros Hne. unfold popOpenNode.
  destruct (m_openHeap pf) as [|z front _] using rev_ind; [contradiction|].
  rewrite length_app. simpl.
  replace (length front + 1 - 1)%nat with (length front) by lia.
  rewrite take_app_length.
  assert (Hz : heap_at (front ++ [z]) (length front) = z).
  { unfold heap_at. rewrite lookup_app_r by lia.
    now replace (length front - length front)%nat with 0%nat by lia. }
  rewrite Hz.
  destruct front as [|t0 front]; cbn [fst snd with_openHeap m_openHeap].
  - reflexivity.
  - rewrite sift_down_perm by (rewrite length_insert; simpl; lia).
    simpl. apply Permutation_skip. apply Permutation_cons_append.
Qed.

(** X2.  [pushOpenNode] adds exactly the given entry: the heap afterwards
    is a rearrangement of the heap before with the new entry, nothing lost
    and nothing repeated, and no other part of the engine changes. *)
Theorem pushOpenNode_contents pf node :
  m_openHeap (pushOpenNode pf node) ≡ₚ node :: m_openHeap pf /\
  length (m_openHeap (pushOpenNode pf node)) = S (length (m_openHeap pf)) /\
  pushOpenNode pf node = with_openHeap (m_openHeap (pushOpenNode pf node)) pf.
Proof.
  pose proof (pushOpenNode_perm pf node) as H.
  split; [exact H|]. split; [now rewrite H | reflexivity].
Qed.

(** X3.  On a non-empty heap [popOpenNode] returns the entry at the front
    and removes exactly that entry: the returned entry together with the
    heap afterwards is a rearrangement of the heap before, and no other
    part of the engine changes. *)
Theorem popOpenNode_contents pf :
  m_openHeap pf <> [] ->
  Some (fst (popOpenNode pf)) = head (m_openHeap pf) /\
  fst (popOpenNode pf) :: m_openHeap (snd (popOpenNode pf)) ≡ₚ m_openHeap pf /\
  S (length (m_openHeap (snd (popOpenNode pf)))) = length (m_openHeap pf) /\
  snd (popOpenNode pf) = with_openHeap (m_openHeap (snd (popOpenNode pf))) pf.
Proof.
  intros Hne.
  pose proof (popOpenNode_perm pf Hne) as Hperm.
  split; [|split; [exact Hperm|split]].
  - unfold popOpenNode. destruct (m_openHeap pf) as [|x h]; [contradiction|].
    destruct (take _ _); reflexivity.
  - apply Permutation_length in Hperm. exact Hperm.
  - apply popOpenNode_state.
Qed.

Lemma popOpenNode_contents_witness :
  Some (fst (popOpenNode (with_openHeap [mkNode 0 3 1; mkNode 1 5 2; mkNode 2 4 2]
                            (Pathfinding_ctor 2 2))))
  = Some (mkNode 0 3 1) /\
  fst (popOpenNode (with_openHeap [mkNode 0 3 1; mkNode 1 5 2; mkNode 2 4 2]
                      (Pathfinding_ctor 2 2)))
  :: m_openHeap (snd (popOpenNode (with_openHeap
                                     [mkNode 0 3 1; mkNode 1 5 2; mkNode 2 4 2]
                                     (Pathfinding_ctor 2 2))))
  ≡ₚ [mkNode 0 3 1; mkNode 1 5 2; mkNode 2 4 2].
Proof.
  split;
    apply (popOpenNode_contents
             (with_openHeap [mkNode 0 3 1; mkNode 1 5 2; mkNode 2 4 2]
                (Pathfinding_ctor 2 2)));
    discriminate.
Defined.

(** ** Heap order through the two sift loops *)

Lemma heap_parent_cases k :
  (0 < k)%nat ->
  (k = 2 * ((k - 1) / 2) + 1 \/ k = 2 * ((k - 1) / 2) + 2)%nat.
Proof.
  intros Hk. pose proof (Nat.div_mod_eq (k - 1) 2) as H.
  pose proof (Nat.mod_upper_bound (k - 1) 2). lia.
Qed.

Lemma heap_ordered_spec h :
  heap_ordered h = true <->
  forall k, (0 < k < length h)%nat -> node_le (heap_at h ((k - 1) / 2)) (heap_at h k).
Proof.
  unfold heap_ordered, node_le. rewrite forallb_forall. split.
  - intros H k Hk. apply negb_true_iff, H, in_seq. lia.
  - intros H k Hk%in_seq. apply negb_true_iff, H. lia.
Qed.

Lemma heap_at_swap h i j k :
  (i < length h)%nat -> (j < length h)%nat ->
  heap_at (heap_swap h i j) k =
  if (k =? j)%nat then heap_at h i
  else if (k =? i)%nat then heap_at h j else heap_at h k.
Proof.
  intros Hi Hj. unfold heap_swap, heap_at at 1.
  destruct (Nat.eqb_spec k j) as [->|Hkj].
  - rewrite list_lookup_insert_eq by (rewrite length_insert; lia). reflexivity.
  - rewrite list_lookup_insert_ne by congruence.
    destruct (Nat.eqb_spec k i) as [->|Hki].
    + rewrite list_lookup_insert_eq by lia. reflexivity.
    + rewrite list_lookup_insert_ne by congruence. reflexivity.
Qed.

Lemma sift_up_ordered fuel : forall h i,
  (i < fuel)%nat -> (i < length h)%nat -> sifting_up h i ->
  heap_ordered (sift_up fuel h i) = true.
Proof.
  induction fuel as [|fuel IH]; intros h i Hf Hi [H1 H2]; [lia|].
  rewrite sift_up_S.
  destruct (Nat.ltb_spec 0 i) as [Hpos|Hz].
  - set (p := ((i - 1) / 2)%nat) in *.
    assert (Hp : (p < i)%nat) by (apply Nat.Div0.div_lt_upper_bound; lia).
    destruct (heapLess (heap_at h p) (heap_at h i)) eqn:E.
    + apply heap_ordered_spec. intros k Hk.
      destruct (Nat.eq_dec k i) as [->|Hne]; [|now apply H1].
      now apply node_le_of_less.
    + assert (Hip : node_le (heap_at h i) (heap_at h p)) by exact E.
      apply IH; [lia | rewrite heap_swap_length; lia |].
      split.
      * intros k Hk Hkp. rewrite heap_swap_length in Hk.
        rewrite !heap_at_swap by lia.
        pose proof (heap_parent_cases k ltac:(lia)) as Hk2.
        pose proof (heap_parent_cases i ltac:(lia)) as Hi2. fold p in Hi2.
        destruct (Nat.eqb_spec k i) as [->|Hki].
        -- fold p. rewrite Nat.eqb_refl.
           destruct (Nat.eqb_spec p i); [lia|]. exact Hip.
        -- destruct (Nat.eqb_spec k p); [contradiction|].
           destruct (Nat.eqb_spec ((k - 1) / 2) i) as [Hpi|Hpi].
           ++ apply (H2 k Hk Hpi Hpos).
           ++ destruct (Nat.eqb_spec ((k - 1) / 2) p) as [Hpp|Hpp].
              ** apply (node_le_trans _ (heap_at h p)); [exact Hip|].
                 rewrite <- Hpp. now apply H1.
              ** now apply H1.
      * intros k Hk Hkp Hppos. rewrite heap_swap_length in Hk.
        rewrite !heap_at_swap by lia.
        pose proof (heap_parent_cases k ltac:(lia)) as Hk2.
        pose proof (heap_parent_cases p ltac:(lia)) as Hp2.
        assert (Hpp : (((p - 1) / 2) < p)%nat)
          by (apply Nat.Div0.div_lt_upper_bound; lia).
        destruct (Nat.eqb_spec ((p - 1) / 2) i); [lia|].
        destruct (Nat.eqb_spec ((p - 1) / 2) p); [lia|].
        assert (Hgp : node_le (heap_at h ((p - 1) / 2)) (heap_at h p))
          by (apply H1; lia).
        destruct (Nat.eqb_spec k i) as [->|Hki]; [exact Hgp|].
        destruct (Nat.eqb_spec k p); [lia|].
        apply (node_le_trans _ (heap_at h p)); [exact Hgp|].
        rewrite <- Hkp. apply H1; lia.
  - apply heap_ordered_spec. intros k Hk. apply H1; lia.
Qed.

Lemma sift_down_ordered fuel : forall h i,
  (length h - i <= fuel)%nat -> (i < length h)%nat -> sifting_down h i ->
  heap_ordered (sift_down fuel h i) = true.
Proof.
  induction fuel as [|fuel IH]; intros h i Hf Hi [H1 H2]; [lia|].
  rewrite sift_down_S. cbv zeta.
  set (l := (i * 2 + 1)%nat).
  set (s1 := if (l <? length h)%nat && negb (heapLess (heap_at h i) (heap_at h l))
             then l else i).
  set (s2 := if ((l + 1) <? length h)%nat &&
                negb (heapLess (heap_at h s1) (heap_at h (l + 1)%nat))
             then (l + 1)%nat else s1).
  (* what the two tests establish about the chosen position *)
  assert (Hsel : (s2 = i /\
                  ((l < length h)%nat -> heapLess (heap_at h i) (heap_at h l) = true) /\
                  ((l + 1 < length h)%nat ->
                   heapLess (heap_at h i) (heap_at h (l + 1)%nat) = true)) \/
                 ((s2 = l \/ s2 = (l + 1)%nat) /\ (s2 < length h)%nat /\
                  node_le (heap_at h s2) (heap_at h i) /\
                  ((l < length h)%nat -> node_le (heap_at h s2) (heap_at h l)) /\
                  ((l + 1 < length h)%nat ->
                   node_le (heap_at h s2) (heap_at h (l + 1)%nat)))).
  { subst s2 s1. unfold node_le.
    destruct (Nat.ltb_spec l (length h)) as [Hl|Hl];
      destruct (Nat.ltb_spec (l + 1) (length h)) as [Hr|Hr]; simpl; try lia.
    - destruct (heapLess (heap_at h i) (heap_at h l)) eqn:E1; simpl.
      + destruct (heapLess (heap_at h i) (heap_at h (l + 1)%nat)) eqn:E2; simpl.
        * left. repeat split; auto.
        * right. split; [now right|]. split; [assumption|].
          split; [exact E2|]. split; intros _.
          -- apply (node_le_trans _ (heap_at h i)); [exact E2|].
             now apply node_le_of_less.
          -- apply heapLess_irrefl.
      + destruct (heapLess (heap_at h l) (heap_at h (l + 1)%nat)) eqn:E2; simpl.
        * right. split; [now left|]. split; [assumption|].
          split; [exact E1|]. split; intros _.
          -- apply heapLess_irrefl.
          -- now apply node_le_of_less.
        * right. split; [now right|]. split; [assumption|].
          split; [|split; intros _].
          -- apply (node_le_trans _ (heap_at h l)); [exact E2 | exact E1].
          -- exact E2.
          -- apply heapLess_irrefl.
    - destruct (heapLess (heap_at h i) (heap_at h l)) eqn:E1; simpl.
      + left. repeat split; auto. lia.
      + right. split; [now left|]. split; [assumption|].
        split; [exact E1|]. split; intros ?; [apply heapLess_irrefl | lia]. }
  destruct Hsel as [(Heq & Hl & Hr) | (Hwhich & Hs & Hsi & Hsl & Hsr)].
  - rewrite Heq, Nat.eqb_refl. apply heap_ordered_spec. intros k Hk.
    destruct (Nat.eq_dec ((k - 1) / 2)%nat i) as [Hpi|Hpi]; [|now apply H1].
    pose proof (heap_parent_cases k ltac:(lia)) as Hk2. rewrite Hpi in *.
    apply node_le_of_less.
    destruct Hk2 as [Hk2|Hk2]; [replace k with l by (subst l; lia); apply Hl; subst l; lia|].
    replace k with (l + 1)%nat by (subst l; lia). apply Hr. subst l; lia.
  - assert (Hne : s2 <> i) by (subst l; lia).
    destruct (Nat.eqb_spec s2 i); [contradiction|].
    assert (Hps : ((s2 - 1) / 2)%nat = i).
    { pose proof (heap_parent_cases s2 ltac:(subst l; lia)). subst l. lia. }
    clearbody s2. clear s1.
    apply IH; [rewrite heap_swap_length; subst l; lia
              | now rewrite heap_swap_length |].
    split.
    + intros k Hk Hkp. rewrite heap_swap_length in Hk.
      rewrite !heap_at_swap by lia.
      pose proof (heap_parent_cases k ltac:(lia)) as Hk2.
      destruct (Nat.eqb_spec k s2) as [->|Hks].
      * rewrite Hps, Nat.eqb_refl.
        destruct (Nat.eqb_spec i s2); [lia|]. exact Hsi.
      * destruct (Nat.eqb_spec ((k - 1) / 2)%nat s2); [contradiction|].
        destruct (Nat.eqb_spec k i) as [->|Hki].
        -- destruct (Nat.eqb_spec ((i - 1) / 2)%nat i) as [Hbad|_]; [lia|].
           apply (H2 s2); lia.
        -- destruct (Nat.eqb_spec ((k - 1) / 2)%nat i) as [Hpi|Hpi]; [|now apply H1].
           assert (Hkl : k = l \/ k = (l + 1)%nat) by (subst l; lia).
           destruct Hkl as [->| ->]; [apply Hsl | apply Hsr]; lia.
    + intros k Hk Hkp Hspos. rewrite heap_swap_length in Hk.
      rewrite !heap_at_swap by lia.
      pose proof (heap_parent_cases k ltac:(lia)) as Hk2.
      rewrite Hps. destruct (Nat.eqb_spec i s2); [lia|]. rewrite Nat.eqb_refl.
      destruct (Nat.eqb_spec k s2); [lia|].
      destruct (Nat.eqb_spec k i); [lia|].
      rewrite <- Hkp. apply H1; lia.
Qed.

(** In an ordered heap no entry is less than the one at the front. *)
Lemma heap_front_least h :
  heap_ordered h = true ->
  forall k, (k < length h)%nat -> node_le (heap_at h 0) (heap_at h k).
Proof.
  intros Hord0 k. pose proof (proj1 (heap_ordered_spec h) Hord0) as Hord.
  induction k as [k IH] using lt_wf_ind. intros Hk.
  destruct k as [|k]; [apply heapLess_irrefl|].
  assert (Hp : ((S k - 1) / 2 < S k)%nat) by (apply Nat.Div0.div_lt_upper_bound; lia).
  apply (node_le_trans _ (heap_at h ((S k - 1) / 2))).
  - apply IH; lia.
  - apply Hord. lia.
Qed.

Lemma heap_at_app_l (h : list QueueNode) x k :
  (k < length h)%nat -> heap_at (h ++ [x]) k = heap_at h k.
Proof. intros Hk. unfold heap_at. now rewrite lookup_app_l. Qed.

Lemma sift_up_last_ordered (h : list QueueNode) node :
  heap_ordered h = true ->
  heap_ordered (sift_up (length (h ++ [node])) (h ++ [node])
                  (length (h ++ [node]) - 1)) = true.
Proof.
  intros Hord. pose proof (proj1 (heap_ordered_spec _) Hord) as Ho.
  apply sift_up_ordered; rewrite ?length_app; simpl; try lia.
  split.
  - intros k Hk Hne. rewrite length_app in Hk. simpl in Hk.
    assert (Hp : ((k - 1) / 2 < k)%nat) by (apply Nat.Div0.div_lt_upper_bound; lia).
    rewrite !heap_at_app_l by lia. apply Ho. lia.
  - intros k Hk Hp Hpos. rewrite length_app in Hk. simpl in Hk.
    pose proof (heap_parent_cases k ltac:(lia)). lia.
Qed.

Lemma sift_down_front_ordered (h : list QueueNode) :
  heap_ordered h = true ->
  forall t0 h1, take (length h - 1) h = t0 :: h1 ->
  heap_ordered (sift_down (length (<[0%nat := heap_at h (length h - 1)]> (t0 :: h1)))
                  (<[0%nat := heap_at h (length h - 1)]> (t0 :: h1)) 0) = true.
Proof.
  intros Hord t0 h1 E. pose proof (proj1 (heap_ordered_spec _) Hord) as Ho.
  assert (Hl1 : length (t0 :: h1) = (length h - 1)%nat).
  { rewrite <- E, length_take. lia. }
  set (h2 := <[0%nat := heap_at h (length h - 1)]> (t0 :: h1)).
  assert (Hl2 : length h2 = (length h - 1)%nat)
    by (subst h2; now rewrite length_insert).
  assert (Hat : forall k, (0 < k < length h - 1)%nat -> heap_at h2 k = heap_at h k).
  { intros k Hk. subst h2. unfold heap_at.
    rewrite list_lookup_insert_ne by lia. rewrite <- E.
    rewrite lookup_take_lt by lia. reflexivity. }
  simpl in Hl1.
  apply sift_down_ordered; [lia | lia |].
  split.
  - intros k Hk Hp. rewrite Hl2 in Hk.
    assert (Hpk : ((k - 1) / 2 < k)%nat) by (apply Nat.Div0.div_lt_upper_bound; lia).
    rewrite !Hat by lia. apply Ho. lia.
  - intros k _ _ Hbad. lia.
Qed.

(** X4.  [pushOpenNode] keeps the heap order: pushed onto an ordered heap,
    the new entry is sifted up until no entry is less than its parent. *)
Theorem pushOpenNode_keeps_order pf node :
  heap_ordered (m_openHeap pf) = true ->
  heap_ordered (m_openHeap (pushOpenNode pf node)) = true.
Proof.
  intros Hord. unfold pushOpenNode. cbn [m_openHeap with_openHeap].
  now apply sift_up_last_ordered.
Qed.

Lemma pushOpenNode_keeps_order_witness :
  heap_ordered
    (m_openHeap (pushOpenNode
                   (with_openHeap [mkNode 0 3 1; mkNode 1 5 2; mkNode 2 4 2]
                      (Pathfinding_ctor 2 2))
                   (mkNode 3 3 0))) = true.
Proof. apply pushOpenNode_keeps_order. reflexivity. Defined.

(** X5.  On a non-empty ordered heap [popOpenNode] returns a least entry:
    no entry of the heap is less than it under [heapLess]; and the heap it
    leaves is ordered again. *)
Theorem popOpenNode_least pf :
  m_openHeap pf <> [] -> heap_ordered (m_openHeap pf) = true ->
  (forall x, In x (m_openHeap pf) -> heapLess x (fst (popOpenNode pf)) = false) /\
  heap_ordered (m_openHeap (snd (popOpenNode pf))) = true.
Proof.
  intros Hne Hord. pose proof (proj1 (heap_ordered_spec _) Hord) as Ho.
  set (h := m_openHeap pf) in *.
  assert (Hlen : (0 < length h)%nat) by (destruct h; [contradiction | simpl; lia]).
  split.
  - intros x Hx%list_elem_of_In%list_elem_of_lookup. destruct Hx as [k Hk].
    pose proof (lookup_lt_Some _ _ _ Hk) as Hkl.
    pose proof (heap_front_least h Hord k Hkl) as Hle.
    unfold heap_at at 2 in Hle. rewrite Hk in Hle. simpl in Hle.
    unfold popOpenNode. fold h. now destruct (take _ _).
  - unfold popOpenNode. fold h.
    destruct (take (length h - 1) h) as [|t0 h1] eqn:E;
      cbn [fst snd with_openHeap m_openHeap]; [reflexivity|].
    now apply sift_down_front_ordered.
Qed.

Lemma popOpenNode_least_witness :
  heap_ordered
    (m_openHeap (snd (popOpenNode
                        (with_openHeap [mkNode 0 3 1; mkNode 1 5 2; mkNode 2 4 2]
                           (Pathfinding_ctor 2 2))))) = true.
Proof.
  apply (popOpenNode_least
           (with_openHeap [mkNode 0 3 1; mkNode 1 5 2; mkNode 2 4 2]
              (Pathfinding_ctor 2 2))); [discriminate | reflexivity].
Defined.

(** ** Scratch store: what a write does and does not do *)

Lemma buffers_ok_spec pf :
  buffers_ok pf = true ->
  length (m_gCostGeneration pf) = length (m_closedGeneration pf) /\
  length (m_gCostValues pf) = length (m_closedGeneration pf) /\
  length (m_parentGeneration pf) = length (m_closedGeneration pf) /\
  length (m_parentValues pf) = length (m_closedGeneration pf).
Proof.
  unfold buffers_ok. rewrite !andb_true_iff, !Nat.eqb_eq. tauto.
Qed.

Lemma getGCost_setGCost_other_gen pf i g g' c :
  in_vec i (m_gCostGeneration pf) = true -> g' <> g ->
  getGCost (setGCost pf i g c) i g' = INT_MAX.
Proof.
  intros Hi Hne. unfold getGCost, setGCost. rewrite Hi. simpl.
  rewrite in_vec_set, Hi, vec_get_set_eq by assumption. simpl.
  destruct (Z.eqb_spec g g'); [congruence | reflexivity].
Qed.

Lemma hasParent_setParent_other_gen pf i g g' p :
  in_vec i (m_parentGeneration pf) = true -> g' <> g ->
  hasParent (setParent pf i g p) i g' = false.
Proof.
  intros Hi Hne. unfold hasParent, setParent. rewrite Hi. simpl.
  rewrite in_vec_set, Hi, vec_get_set_eq by assumption. simpl.
  destruct (Z.eqb_spec g g'); [congruence | reflexivity].
Qed.

Lemma isClosed_setClosed_other_gen pf i g g' :
  in_vec i (m_closedGeneration pf) = true -> g' <> g ->
  isClosed (setClosed pf i g) i g' = false.
Proof.
  intros Hi Hne. unfold isClosed, setClosed. rewrite Hi. simpl.
  rewrite in_vec_set, Hi, vec_get_set_eq by assumption. simpl.
  destruct (Z.eqb_spec g g'); [congruence | reflexivity].
Qed.

(** X6.  In range, a write to the scratch store is read back at the
    generation it was stamped with ([getGCost] returns the cost, [getParent]
    the parent, [hasParent] and [isClosed] hold), and it hides whatever the
    cell held before: at every other generation the same cell reads as
    never written (infinite cost, no parent, not closed). *)
Theorem scratch_write_read pf i g c p :
  buffers_ok pf = true -> in_vec i (m_closedGeneration pf) = true ->
  getGCost (setGCost pf i g c) i g = c /\
  hasParent (setParent pf i g p) i g = true /\
  getParent (setParent pf i g p) i g = p /\
  isClosed (setClosed pf i g) i g = true /\
  (forall g', g' <> g ->
     getGCost (setGCost pf i g c) i g' = INT_MAX /\
     hasParent (setParent pf i g p) i g' = false /\
     getParent (setParent pf i g p) i g' = -1 /\
     isClosed (setClosed pf i g) i g' = false).
Proof.
  intros (L1 & L2 & L3 & L4)%buffers_ok_spec Hi.
  assert (Hg : in_vec i (m_gCostGeneration pf) = true)
    by now rewrite (in_vec_length _ _ (m_closedGeneration pf)).
  assert (Hp : in_vec i (m_parentGeneration pf) = true)
    by now rewrite (in_vec_length _ _ (m_closedGeneration pf)).
  split; [apply getGCost_setGCost_eq; congruence|].
  split; [now apply hasParent_setParent_eq|].
  split; [apply getParent_setParent_eq; congruence|].
  split; [now apply isClosed_setClosed_eq|].
  intros g' Hne.
  split; [now apply getGCost_setGCost_other_gen|].
  split; [now apply hasParent_setParent_other_gen|].
  split; [|now apply isClosed_setClosed_other_gen].
  unfold getParent. now rewrite hasParent_setParent_other_gen.
Qed.

Lemma scratch_write_read_witness :
  getGCost (setGCost (Pathfinding_ctor 2 2) 3 7 5) 3 7 = 5 /\
  getParent (setParent (Pathfinding_ctor 2 2) 3 7 1) 3 7 = 1.
Proof.
  split; apply (scratch_write_read (Pathfinding_ctor 2 2) 3 7 5 1); reflexivity.
Defined.

(** X7.  Out of range (a negative index or one past the arrays), every
    write to the scratch store leaves the engine exactly as it was, and
    every read yields its sentinel: infinite cost, no parent, not closed. *)
Theorem scratch_out_of_range pf i g c p :
  buffers_ok pf = true -> in_vec i (m_closedGeneration pf) = false ->
  setGCost pf i g c = pf /\ setParent pf i g p = pf /\ setClosed pf i g = pf /\
  getGCost pf i g = INT_MAX /\ hasParent pf i g = false /\
  getParent pf i g = -1 /\ isClosed pf i g = false.
Proof.
  intros (L1 & L2 & L3 & L4)%buffers_ok_spec Hi.
  assert (Hg : in_vec i (m_gCostGeneration pf) = false)
    by now rewrite (in_vec_length _ _ (m_closedGeneration pf)).
  assert (Hp : in_vec i (m_parentGeneration pf) = false)
    by now rewrite (in_vec_length _ _ (m_closedGeneration pf)).
  unfold setGCost, setParent, setClosed, getGCost, getParent, hasParent, isClosed.
  rewrite Hi, Hg, Hp. repeat split; reflexivity.
Qed.

Lemma scratch_out_of_range_witness :
  setGCost (Pathfinding_ctor 2 2) (-1) 7 5 = Pathfinding_ctor 2 2 /\
  getGCost (Pathfinding_ctor 2 2) 4 0 = INT_MAX.
Proof.
  split.
  - apply (scratch_out_of_range (Pathfinding_ctor 2 2) (-1) 7 5 0); reflexivity.
  - apply (scratch_out_of_range (Pathfinding_ctor 2 2) 4 0 0 0); reflexivity.
Defined.

(** X8.  A write to the scratch store touches one cell of one array pair:
    reads at any other index are unchanged at every generation, and reads
    of the other two kinds are unchanged at every index. *)
Theorem scratch_write_frame pf i g c p :
  (forall j g', j <> i ->
     getGCost (setGCost pf i g c) j g' = getGCost pf j g' /\
     hasParent (setParent pf i g p) j g' = hasParent pf j g' /\
     getParent (setParent pf i g p) j g' = getParent pf j g' /\
     isClosed (setClosed pf i g) j g' = isClosed pf j g') /\
  (forall j g',
     getGCost (setParent pf i g p) j g' = getGCost pf j g' /\
     getGCost (setClosed pf i g) j g' = getGCost pf j g' /\
     hasParent (setGCost pf i g c) j g' = hasParent pf j g' /\
     getParent (setGCost pf i g c) j g' = getParent pf j g' /\
     hasParent (setClosed pf i g) j g' = hasParent pf j g' /\
     getParent (setClosed pf i g) j g' = getParent pf j g' /\
     isClosed (setGCost pf i g c) j g' = isClosed pf j g' /\
     isClosed (setParent pf i g p) j g' = isClosed pf j g').
Proof.
  split.
  - intros j g' Hne.
    split; [apply getGCost_setGCost_ne; congruence|].
    split; [apply hasParent_setParent_ne; congruence|].
    split; [apply getParent_setParent_ne; congruence|].
    apply isClosed_setClosed_ne; congruence.
  - intros j g'.
    split; [apply getGCost_setParent|]. split; [apply getGCost_setClosed|].
    split; [apply hasParent_setGCost|]. split; [apply getParent_setGCost|].
    split; [apply hasParent_setClosed|]. split; [apply getParent_setClosed|].
    split; [apply isClosed_setGCost | apply isClosed_setParent].
Qed.

(** ** Working buffers *)

(** X9.  [ensureWorkingBuffers] makes the closed-stamp array one entry per
    grid cell.  If it already was, nothing changes; otherwise all five
    arrays are reallocated to that size and filled with stamp 0, infinite
    cost and parent -1.  Either way the grid, the flag, the counter and the
    heap are untouched, and a second call changes nothing. *)
Theorem ensureWorkingBuffers_spec pf :
  length (m_closedGeneration (ensureWorkingBuffers pf)) = total_cells pf /\
  (length (m_closedGeneration pf) = total_cells pf -> ensureWorkingBuffers pf = pf) /\
  (length (m_closedGeneration pf) <> total_cells pf ->
   m_closedGeneration (ensureWorkingBuffers pf) = replicate (total_cells pf) 0 /\
   m_gCostGeneration (ensureWorkingBuffers pf) = replicate (total_cells pf) 0 /\
   m_gCostValues (ensureWorkingBuffers pf) = replicate (total_cells pf) INT_MAX /\
   m_parentGeneration (ensureWorkingBuffers pf) = replicate (total_cells pf) 0 /\
   m_parentValues (ensureWorkingBuffers pf) = replicate (total_cells pf) (-1)) /\
  outside_scratch (ensureWorkingBuffers pf) = outside_scratch pf /\
  m_generationCounter (ensureWorkingBuffers pf) = m_generationCounter pf /\
  m_openHeap (ensureWorkingBuffers pf) = m_openHeap pf /\
  ensureWorkingBuffers (ensureWorkingBuffers pf) = ensureWorkingBuffers pf.
Proof.
  split; [apply closed_length_ensureWorkingBuffers|].
  assert (Hid : forall q, length (m_closedGeneration q) = total_cells q ->
                          ensureWorkingBuffers q = q).
  { intros q Hq. unfold ensureWorkingBuffers.
    now destruct (Nat.eqb_spec (length (m_closedGeneration q)) (total_cells q)). }
  split; [apply Hid|].
  split.
  { intros Hne. unfold ensureWorkingBuffers.
    destruct (Nat.eqb_spec (length (m_closedGeneration pf)) (total_cells pf));
      [contradiction|]. simpl. repeat split; reflexivity. }
  split; [apply frame_ensureWorkingBuffers|].
  split; [unfold ensureWorkingBuffers; now destruct (Nat.eqb _ _)|].
  split; [unfold ensureWorkingBuffers; now destruct (Nat.eqb _ _)|].
  apply Hid. rewrite closed_length_ensureWorkingBuffers.
  unfold total_cells.
  now rewrite (outside_scratch_width _ _ (frame_ensureWorkingBuffers pf)),
    (outside_scratch_height _ _ (frame_ensureWorkingBuffers pf)).
Qed.

(** ** Construction and direct edits *)

Lemma obstacle_at_replicate w h x y :
  obstacle_at (replicate h (replicate w 0)) x y = 0.
Proof.
  unfold obstacle_at, vec_get.
  destruct (replicate h (replicate w 0) !! Z.to_nat y) as [row|] eqn:E; simpl.
  - apply lookup_replicate in E as [-> _].
    destruct (replicate w 0 !! Z.to_nat x) as [v|] eqn:E'; [|reflexivity].
    now apply lookup_replicate in E' as [-> _].
  - reflexivity.
Qed.

(** X10.  A freshly constructed engine has the given dimensions, every cell
    inside them walkable and none outside, the dirty flag set, an empty heap
    and empty queues, and it satisfies the class invariants. *)
Theorem Pathfinding_ctor_fresh width height :
  0 <= width -> 0 <= height ->
  m_width (Pathfinding_ctor width height) = width /\
  m_height (Pathfinding_ctor width height) = height /\
  (forall x y, isWalkable (Pathfinding_ctor width height) x y =
               (0 <=? x) && (x <? width) && (0 <=? y) && (y <? height)) /\
  m_obstaclesDirty (Pathfinding_ctor width height) = true /\
  m_openHeap (Pathfinding_ctor width height) = [] /\
  m_requestQueue (Pathfinding_ctor width height) = [] /\
  m_resultQueue (Pathfinding_ctor width height) = [] /\
  length (m_closedGeneration (Pathfinding_ctor width height)) =
  (Z.to_nat width * Z.to_nat height)%nat /\
  engine_ok (Pathfinding_ctor width height) = true /\
  grid_ok (Pathfinding_ctor width height) = true.
Proof.
  intros Hw Hh.
  destruct (Pathfinding_ctor_ok width height Hw Hh) as (Hok & Hgrid & Hdirty).
  unfold Pathfinding_ctor in *.
  set (pf := mkPathfinding _ _ _ _ _ _ _ _ _ _ _ _ _ _ _) in *.
  pose proof (frame_ensureWorkingBuffers pf) as Hfr.
  assert (Hwd : m_width (with_dirty true (ensureWorkingBuffers pf)) = width)
    by (simpl; now rewrite (outside_scratch_width _ _ Hfr)).
  assert (Hhd : m_height (with_dirty true (ensureWorkingBuffers pf)) = height)
    by (simpl; now rewrite (outside_scratch_height _ _ Hfr)).
  split; [exact Hwd|]. split; [exact Hhd|].
  split.
  { intros x y. unfold isWalkable. rewrite Hwd, Hhd.
    replace (m_obstacles (with_dirty true (ensureWorkingBuffers pf)))
      with (replicate (Z.to_nat height) (replicate (Z.to_nat width) 0))
      by (simpl; now rewrite (outside_scratch_obstacles _ _ Hfr)).
    rewrite obstacle_at_replicate.
    destruct ((x <? 0) || (x >=? width) || (y <? 0) || (y >=? height)) eqn:E; lia. }
  split; [exact Hdirty|].
  split; [simpl; unfold ensureWorkingBuffers; now destruct (Nat.eqb _ _)|].
  split; [simpl; unfold ensureWorkingBuffers; now destruct (Nat.eqb _ _)|].
  split; [simpl; unfold ensureWorkingBuffers; now destruct (Nat.eqb _ _)|].
  split; [|now split].
  change (length (m_closedGeneration (ensureWorkingBuffers pf)) =
          (Z.to_nat width * Z.to_nat height)%nat).
  now rewrite closed_length_ensureWorkingBuffers.
Qed.

Lemma Pathfinding_ctor_fresh_witness :
  isWalkable (Pathfinding_ctor 3 2) 2 1 = true /\
  isWalkable (Pathfinding_ctor 3 2) 3 1 = false.
Proof.
  destruct (Pathfinding_ctor_fresh 3 2 ltac:(lia) ltac:(lia)) as (_ & _ & H & _).
  split; rewrite H; reflexivity.
Defined.

(** X11.  On a well-formed grid, [setObstacle] on an in-range cell sets
    exactly that cell: afterwards [isWalkable] at that cell is the negation
    of the flag given, and at every other coordinate it answers as
    before. *)
Theorem setObstacle_isWalkable pf x y b :
  grid_ok pf = true -> in_grid pf x y = true ->
  forall x' y',
    isWalkable (setObstacle pf x y b) x' y' =
    if (x' =? x) && (y' =? y) then negb b else isWalkable pf x' y'.
Proof.
  intros (Hw & Hh & Hs)%grid_ok_shape Hin x' y'.
  assert (Hxy : 0 <= x < m_width pf /\ 0 <= y < m_height pf)
    by (unfold in_grid in Hin; lia).
  destruct (in_grid pf x' y') eqn:Hin'.
  - assert (Hin2 : in_grid (setObstacle pf x y b) x' y' = true).
    { unfold setObstacle. now destruct (_ && _). }
    rewrite !isWalkable_blocked_in by assumption.
    unfold setObstacle. unfold in_grid in Hin, Hin'. rewrite Hin. simpl.
    unfold blocked_in.
    rewrite (obstacle_at_set (m_width pf) (m_height pf)) by (assumption || lia).
    rewrite (Z.eqb_sym x x'), (Z.eqb_sym y y').
    destruct ((x' =? x) && (y' =? y)); [now destruct b | reflexivity].
  - rewrite (isWalkable_out_of_range pf x' y' Hin').
    rewrite isWalkable_out_of_range
      by (unfold setObstacle; now destruct (_ && _)).
    unfold in_grid in Hin'.
    destruct (Z.eqb_spec x' x), (Z.eqb_spec y' y); simpl; try reflexivity. lia.
Qed.

Lemma setObstacle_isWalkable_witness :
  isWalkable (setObstacle (Pathfinding_ctor 3 2) 1 1 true) 1 1 = false /\
  isWalkable (setObstacle (setObstacle (Pathfinding_ctor 3 2) 1 1 true) 1 1 false) 1 1
  = true.
Proof.
  split.
  - rewrite (setObstacle_isWalkable (Pathfinding_ctor 3 2) 1 1 true); reflexivity.
  - rewrite (setObstacle_isWalkable
               (setObstacle (Pathfinding_ctor 3 2) 1 1 true) 1 1 false); reflexivity.
Defined.

(** X12.  [setObstacle] on an out-of-range coordinate leaves the engine
    exactly as it was; on any coordinate it changes nothing but the
    obstacle grid. *)
Theorem setObstacle_out_of_range pf x y b :
  (in_grid pf x y = false -> setObstacle pf x y b = pf) /\
  setObstacle pf x y b = with_obstacles (m_obstacles (setObstacle pf x y b)) pf.
Proof.
  unfold setObstacle, in_grid.
  destruct ((0 <=? x) && (x <? m_width pf) && (0 <=? y) && (y <? m_height pf)).
  - split; [discriminate | reflexivity].
  - split; [reflexivity|]. now destruct pf.
Qed.

(** ** Rebuilding the grid *)

Lemma cleared_obstacle_set g x y v :
  map (fun row : list Z => replicate (length row) 0) (obstacle_set g x y v) =
  map (fun row : list Z => replicate (length row) 0) g.
Proof.
  unfold obstacle_set. revert g. generalize (Z.to_nat y) as n.
  induction n as [|n IH]; intros [|row g]; simpl; try reflexivity.
  - unfold vec_set. now rewrite length_insert.
  - f_equal. apply IH.
Qed.

Lemma rebuild_setObstacle env pf x y b :
  m_obstaclesDirty pf = true ->
  updateBuildingObstacles env (setObstacle pf x y b) = updateBuildingObstacles env pf.
Proof.
  intros Hd. unfold setObstacle.
  destruct (_ && _); [|reflexivity].
  unfold updateBuildingObstacles. destruct pf; simpl in *. subst.
  simpl. rewrite cleared_obstacle_set. reflexivity.
Qed.

(** X13.  While the dirty flag is set, a direct [setObstacle] edit has no
    effect on what comes next: the rebuild it is followed by, and hence the
    whole next [findPath] call (final state and result), are the same as if
    the edit had never been made. *)
Theorem rebuild_forgets_edits env pf x y b s e :
  m_obstaclesDirty pf = true ->
  updateBuildingObstacles env (setObstacle pf x y b) = updateBuildingObstacles env pf /\
  findPath env (setObstacle pf x y b) s e = findPath env pf s e.
Proof.
  intros Hd. split; [now apply rebuild_setObstacle|].
  assert (Hd' : m_obstaclesDirty (setObstacle pf x y b) = true).
  { unfold setObstacle. now destruct (_ && _). }
  unfold findPath. rewrite Hd, Hd'. now rewrite rebuild_setObstacle.
Qed.

Lemma rebuild_forgets_edits_witness :
  findPath (mkEnv (mkTerrain false None (fun _ _ => true)) [] (fun c _ => c))
           (setObstacle (Pathfinding_ctor 3 3) 1 1 true) (mkPoint 0 0) (mkPoint 2 2) =
  findPath (mkEnv (mkTerrain false None (fun _ _ => true)) [] (fun c _ => c))
           (Pathfinding_ctor 3 3) (mkPoint 0 0) (mkPoint 2 2).
Proof.
  apply (rebuild_forgets_edits
           (mkEnv (mkTerrain false None (fun _ _ => true)) [] (fun c _ => c))
           (Pathfinding_ctor 3 3) 1 1 true (mkPoint 0 0) (mkPoint 2 2)).
  reflexivity.
Defined.

(** X14.  [updateBuildingObstacles] does nothing on a clean engine, always
    leaves the dirty flag clear, and is therefore idempotent; whatever it
    does, it changes only the obstacle grid and the flag. *)
Theorem rebuild_idempotent env pf :
  (m_obstaclesDirty pf = false -> updateBuildingObstacles env pf = pf) /\
  m_obstaclesDirty (updateBuildingObstacles env pf) = false /\
  updateBuildingObstacles env (updateBuildingObstacles env pf) =
  updateBuildingObstacles env pf /\
  updateBuildingObstacles env pf =
  with_dirty (m_obstaclesDirty (updateBuildingObstacles env pf))
    (with_obstacles (m_obstacles (updateBuildingObstacles env pf)) pf).
Proof.
  assert (Hclean : forall q, m_obstaclesDirty q = false ->
                             updateBuildingObstacles env q = q).
  { intros q Hq. unfold updateBuildingObstacles. now rewrite Hq. }
  split; [apply Hclean|].
  split; [apply dirty_updateBuildingObstacles|].
  split; [apply Hclean, dirty_updateBuildingObstacles|].
  unfold updateBuildingObstacles. destruct (m_obstaclesDirty pf) eqn:Hd; simpl.
  - reflexivity.
  - destruct pf; simpl in *. now subst.
Qed.

(** X15.  [findPath] caches the grid.  It always returns with the dirty
    flag clear and with the grid it searched on (the rebuilt one if the flag
    was set, the old one otherwise); a later call, even with other terrain
    and buildings, searches on that same grid, until [markObstaclesDirty]
    makes the next call rebuild it. *)
Theorem findPath_caches_grid env env' pf s e s' e' :
  m_obstacles (fst (findPath env pf s e)) =
  m_obstacles (if m_obstaclesDirty pf then updateBuildingObstacles env pf else pf) /\
  (m_obstaclesDirty pf = true -> m_obstaclesDirty (fst (findPath env pf s e)) = false) /\
  (m_obstaclesDirty (fst (findPath env pf s e)) = false ->
   m_obstacles (fst (findPath env' (fst (findPath env pf s e)) s' e')) =
   m_obstacles (fst (findPath env pf s e))) /\
  m_obstacles (fst (findPath env' (markObstaclesDirty (fst (findPath env pf s e))) s' e')) =
  m_obstacles (updateBuildingObstacles env'
                 (markObstaclesDirty (fst (findPath env pf s e)))).
Proof.
  assert (Hgrid : forall ev q a b,
            m_obstacles (fst (findPath ev q a b)) = m_obstacles (refreshed ev q)).
  { intros ev q a b. rewrite findPath_unfold. simpl.
    apply outside_scratch_obstacles, frame_findPathInternal. }
  split; [apply Hgrid|].
  split.
  { intros Hd. rewrite findPath_unfold. simpl.
    pose proof (frame_findPathInternal (refreshed env pf) s e) as Hfr.
    unfold outside_scratch in Hfr.
    transitivity (m_obstaclesDirty (refreshed env pf)); [congruence|].
    unfold refreshed. rewrite Hd. apply dirty_updateBuildingObstacles. }
  split.
  { intros Hd. rewrite Hgrid. now rewrite refreshed_clean. }
  rewrite Hgrid. unfold refreshed. reflexivity.
Qed.

(** ** Neighbour collection, exactly *)

Lemma collectNeighbors_unfold pf a :
  collectNeighbors pf a =
  neighbor_at pf a (-1) (-1) ++ neighbor_at pf a (-1) 0 ++ neighbor_at pf a (-1) 1 ++
  neighbor_at pf a 0 (-1) ++ neighbor_at pf a 0 1 ++
  neighbor_at pf a 1 (-1) ++ neighbor_at pf a 1 0 ++ neighbor_at pf a 1 1.
Proof.
  unfold collectNeighbors. cbn [flat_map].
  change (neighbor_at pf a 0 0) with (@nil Point).
  rewrite !app_nil_r, <- !app_assoc. reflexivity.
Qed.

Lemma neighbor_at_sublist pf a dx dy :
  neighbor_at pf a dx dy `sublist_of` [mkPoint (px a + dx) (py a + dy)].
Proof.
  unfold neighbor_at.
  repeat match goal with |- context [if ?c then _ else _] => destruct c end;
    try apply sublist_nil_l; reflexivity.
Qed.

Lemma neighbor_at_complete pf a dx dy :
  (dx <> 0 \/ dy <> 0) ->
  in_grid pf (px a + dx) (py a + dy) = true ->
  (dx <> 0 -> dy <> 0 ->
   isWalkable pf (px a + dx) (py a) = true /\ isWalkable pf (px a) (py a + dy) = true) ->
  neighbor_at pf a dx dy = [mkPoint (px a + dx) (py a + dy)].
Proof.
  intros Hnz Hin Hc. unfold neighbor_at, in_grid in *.
  replace ((dx =? 0) && (dy =? 0)) with false by (symmetry; lia).
  replace ((px a + dx <? 0) || (px a + dx >=? m_width pf) ||
           (py a + dy <? 0) || (py a + dy >=? m_height pf)) with false
    by (symmetry; lia).
  destruct (Z.eqb_spec dx 0) as [|Hx]; [reflexivity|].
  destruct (Z.eqb_spec dy 0) as [|Hy]; [reflexivity|].
  destruct (Hc Hx Hy) as [-> ->]. reflexivity.
Qed.

Lemma collectNeighbors_sublist pf a :
  collectNeighbors pf a `sublist_of`
  [mkPoint (px a + -1) (py a + -1); mkPoint (px a + -1) (py a + 0);
   mkPoint (px a + -1) (py a + 1); mkPoint (px a + 0) (py a + -1);
   mkPoint (px a + 0) (py a + 1); mkPoint (px a + 1) (py a + -1);
   mkPoint (px a + 1) (py a + 0); mkPoint (px a + 1) (py a + 1)].
Proof.
  rewrite collectNeighbors_unfold.
  repeat match goal with
  | |- (neighbor_at ?p ?a ?dx ?dy ++ _) `sublist_of` (?x :: ?k) =>
      change (x :: k) with ([x] ++ k); apply sublist_app;
      [apply neighbor_at_sublist|]
  end.
  apply neighbor_at_sublist.
Qed.

Lemma collectNeighbors_complete pf a b :
  adjacent8 a b = true -> in_grid pf (px b) (py b) = true ->
  corner_free pf a b = true ->
  In b (collectNeighbors pf a).
Proof.
  intros Hadj Hin Hcf. unfold adjacent8 in Hadj.
  assert (Hb : b = mkPoint (px a + (px b - px a)) (py a + (py b - py a))).
  { destruct b; simpl. f_equal; lia. }
  assert (Hone : neighbor_at pf a (px b - px a) (py b - py a) = [b]).
  { rewrite Hb at 3. apply neighbor_at_complete.
    - lia.
    - now replace (px a + (px b - px a)) with (px b) by lia;
        replace (py a + (py b - py a)) with (py b) by lia.
    - intros Hx Hy. unfold corner_free in Hcf.
      replace (px a + (px b - px a)) with (px b) by lia;
        replace (py a + (py b - py a)) with (py b) by lia.
      destruct (Z.eqb_spec (px b) (px a)); [lia|].
      destruct (Z.eqb_spec (py b) (py a)); [lia|]. simpl in Hcf.
      now apply andb_true_iff in Hcf. }
  rewrite collectNeighbors_unfold, !in_app_iff.
  assert (Hdx : px b - px a = -1 \/ px b - px a = 0 \/ px b - px a = 1) by lia.
  assert (Hdy : py b - py a = -1 \/ py b - py a = 0 \/ py b - py a = 1) by lia.
  destruct Hdx as [Ex | [Ex | Ex]], Hdy as [Ey | [Ey | Ey]];
    rewrite Ex, Ey in Hone; try lia; rewrite Hone; simpl; tauto.
Qed.

(** X16.  [collectNeighbors] yields exactly the cells that are one of the
    eight around the given one, lie inside the grid and, if diagonal, have
    both flanking cells walkable; it yields each of them once, so never more
    than the eight the caller's buffer holds.  Whether the neighbour itself
    is walkable is not looked at. *)
Theorem collectNeighbors_exact pf a :
  (forall b, In b (collectNeighbors pf a) <->
             adjacent8 a b = true /\ in_grid pf (px b) (py b) = true /\
             corner_free pf a b = true) /\
  NoDup (collectNeighbors pf a) /\
  (length (collectNeighbors pf a) <= 8)%nat.
Proof.
  split; [|split].
  - intros b. split.
    + intros Hin. destruct (collectNeighbors_legal _ _ _ Hin) as [H1 H2].
      apply collectNeighbors_spec in Hin as (dx & dy & _ & _ & _ & _ & Hg & _).
      now repeat split.
    + intros (H1 & H2 & H3). now apply collectNeighbors_complete.
  - eapply sublist_NoDup; [|apply collectNeighbors_sublist].
    repeat (apply NoDup_cons; split;
            [rewrite ?elem_of_cons, elem_of_nil; intros H;
             repeat (destruct H as [H|H]); try contradiction;
             injection H; lia|]).
    apply NoDup_nil_2.
  - apply (sublist_length _ _ (collectNeighbors_sublist pf a)).
Qed.

(** X17.  The move relation is symmetric: if [b] is collected as a
    neighbour of [a] and [a] lies inside the grid, then [a] is collected as
    a neighbour of [b].  (The corner rule looks at the same two flanking
    cells in both directions.) *)
Theorem collectNeighbors_symmetric pf a b :
  in_grid pf (px a) (py a) = true ->
  In b (collectNeighbors pf a) -> In a (collectNeighbors pf b).
Proof.
  intros Ha Hin. destruct (collectNeighbors_legal _ _ _ Hin) as [H1 H2].
  apply collectNeighbors_complete; [| assumption |].
  - unfold adjacent8 in *. lia.
  - unfold corner_free in *.
    destruct (Z.eqb_spec (px b) (px a)), (Z.eqb_spec (py b) (py a));
      destruct (Z.eqb_spec (px a) (px b)), (Z.eqb_spec (py a) (py b));
      simpl in *; try reflexivity; try lia.
    apply andb_true_iff in H2 as [-> ->]. reflexivity.
Qed.

Lemma collectNeighbors_symmetric_witness :
  In (mkPoint 0 0) (collectNeighbors (Pathfinding_ctor 3 3) (mkPoint 1 1)).
Proof.
  apply (collectNeighbors_symmetric (Pathfinding_ctor 3 3) (mkPoint 0 0) (mkPoint 1 1)).
  - reflexivity.
  - vm_compute. tauto.
Defined.

(** ** The returned path visits no cell twice *)

Lemma toPoint_inj pf i j : toPoint pf i = toPoint pf j -> i = j.
Proof.
  unfold toPoint. intros H. injection H as Hr Hq.
  rewrite (Z.quot_rem' i (m_width pf)), (Z.quot_rem' j (m_width pf)). congruence.
Qed.

Lemma NoDup_map_toPoint pf l : NoDup l -> NoDup (map (toPoint pf) l).
Proof.
  intros H. change (NoDup (toPoint pf <$> l)).
  apply NoDup_fmap_2; [|assumption]. intros i j. apply toPoint_inj.
Qed.

Lemma findPathInternal_simple pf s e :
  engine_ok pf = true ->
  exists path,
    snd (fst (findPathInternal pf s e)) = Some path /\
    NoDup path /\ (length path <= total_cells pf)%nat.
Proof.
  intros Hok.
  destruct (ensureWorkingBuffers_sized pf Hok) as [Hsz Hst].
  pose proof (frame_ensureWorkingBuffers pf) as Hfr.
  assert (Htc : total_cells (ensureWorkingBuffers pf) = total_cells pf).
  { unfold total_cells.
    now rewrite (outside_scratch_width _ _ Hfr), (outside_scratch_height _ _ Hfr). }
  set (pf0 := ensureWorkingBuffers pf) in *.
  destruct (isWalkable pf0 (px s) (py s)) eqn:Hs;
    [|exists []; split; [|split; [constructor | simpl; lia]];
      rewrite findPathInternal_blocked; [reflexivity|];
      left; now rewrite <- (outside_scratch_isWalkable _ _ _ _ Hfr)].
  destruct (isWalkable pf0 (px e) (py e)) eqn:He;
    [|exists []; split; [|split; [constructor | simpl; lia]];
      rewrite findPathInternal_blocked; [reflexivity|];
      right; now rewrite <- (outside_scratch_isWalkable _ _ _ _ Hfr)].
  pose proof (isWalkable_in_grid _ _ _ Hs) as [Hsx Hsy].
  pose proof (isWalkable_in_grid _ _ _ He) as [Hex Hey].
  destruct (Z.eq_dec (toIndex pf0 s) (toIndex pf0 e)) as [Heq|Hne].
  - exists [s]. split; [|split].
    + unfold findPathInternal. fold pf0. rewrite Hs, He. simpl.
      now rewrite Heq, Z.eqb_refl.
    + apply NoDup_singleton.
    + rewrite <- Htc. unfold total_cells. simpl. nia.
  - rewrite findPathInternal_search by (fold pf0; assumption). fold pf0. cbv zeta.
    set (g := snd (nextGeneration pf0)).
    pose proof (seeded_inv pf0 s e Hsz Hst Hs) as HI. fold g in HI.
    destruct (search_loop _ _ _ _ _ _) as [[pf6 fc] its] eqn:Hloop. simpl.
    destruct (inv_search_loop pf0 (toIndex pf0 s) g Hsz _ _ _ _ _ _ _ _ HI Hloop)
      as [HI6 Hend].
    destruct (Z.ltb_spec fc 0) as [|Hfc];
      [exists []; split; [reflexivity | split; [constructor | simpl; lia]]|].
    destruct Hend as [Hhp Hgc]; [lia|].
    pose proof (inv_frame _ _ _ _ HI6) as Hfr6.
    assert (Hk : getGCost pf6 (toIndex pf0 e) g = Z.of_nat (Z.to_nat fc)) by lia.
    assert (Hsi : in_vec (toIndex pf0 s) (m_parentGeneration pf6) = true).
    { apply hasParent_in_vec with (g := g). apply (inv_start _ _ _ _ HI6). }
    assert (Hlens : length (m_parentValues pf6) = length (m_parentGeneration pf6) /\
                    length (m_parentGeneration pf6) = total_cells pf0).
    { destruct Hsz as (_ & _ & Hsz'). pose proof (inv_lengths _ _ _ _ HI6) as Hl.
      rewrite Hsz' in Hl. unfold scratch_lengths in Hl. injection Hl.
      intros. split; congruence. }
    destruct Hlens as [Hlenp Hlent].
    assert (Hfuel : (Z.to_nat fc < S (length (m_parentValues pf6)))%nat).
    { destruct (buildPath_loop_chain pf0 (toIndex pf0 s) g (Z.to_nat fc) pf6
                  (toIndex pf0 e) (S (Z.to_nat fc)) [] HI6 Hhp Hk) as (l1 & Hc1 & Hl1 & _);
        [lia|].
      pose proof (parent_chain_length _ _ _ _ _ _ Hsi Hc1). lia. }
    destruct (buildPath_loop_chain pf0 (toIndex pf0 s) g (Z.to_nat fc) pf6
                (toIndex pf0 e) _ [] HI6 Hhp Hk Hfuel) as (l & Hch & Hlen & Hres).
    exists (rev (map (toPoint pf6) l)). split; [|split].
    + unfold buildPath. rewrite Hres. reflexivity.
    + rewrite <- Permutation_rev. apply NoDup_map_toPoint.
      now destruct (parent_chain_costs _ _ _ _ _ _ Hch).
    + rewrite length_rev, length_map, <- Htc, <- Hlent.
      eapply parent_chain_length; eassumption.
Qed.

(** X18.  Every query returns a path that visits no cell twice and so has
    at most as many cells as the grid. *)
Theorem findPath_simple_path env pf s e :
  engine_ok pf = true ->
  exists path,
    snd (findPath env pf s e) = Some path /\
    NoDup path /\ (length path <= Z.to_nat (m_width pf) * Z.to_nat (m_height pf))%nat.
Proof.
  intros Hok. rewrite findPath_unfold. simpl.
  destruct (findPathInternal_simple (refreshed env pf) s e
              (engine_ok_refreshed env pf Hok)) as (path & H1 & H2 & H3).
  exists path. split; [assumption|]. split; [assumption|].
  replace (Z.to_nat (m_width pf) * Z.to_nat (m_height pf))%nat
    with (total_cells (refreshed env pf)); [assumption|].
  unfold total_cells, refreshed, updateBuildingObstacles.
  now destruct (m_obstaclesDirty pf).
Qed.

Lemma findPath_simple_path_witness :
  exists path,
    snd (findPath (mkEnv (mkTerrain false None (fun _ _ => true)) [] (fun c _ => c))
           (Pathfinding_ctor 3 3) (mkPoint 0 0) (mkPoint 2 2)) = Some path /\
    NoDup path /\ (length path <= 9)%nat.
Proof.
  apply (findPath_simple_path
           (mkEnv (mkTerrain false None (fun _ _ => true)) [] (fun c _ => c))
           (Pathfinding_ctor 3 3) (mkPoint 0 0) (mkPoint 2 2)).
  reflexivity.
Defined.

(** ** A query sees nothing of earlier queries *)

Section SameView.

Variables (n : nat) (g g' : Z).

Local Abbreviation View := (same_view n g g').

Lemma view_lengths pf pf' :
  View pf pf' ->
  length (m_closedGeneration pf) = n /\ length (m_closedGeneration pf') = n /\
  length (m_gCostGeneration pf) = n /\ length (m_gCostGeneration pf') = n /\
  length (m_gCostValues pf) = n /\ length (m_gCostValues pf') = n /\
  length (m_parentGeneration pf) = n /\ length (m_parentGeneration pf') = n /\
  length (m_parentValues pf) = n /\ length (m_parentValues pf') = n.
Proof.
  intros (_ & _ & Hl & Hl' & _). unfold scratch_lengths in *.
  injection Hl as ? ? ? ? ?. injection Hl' as ? ? ? ? ?. repeat split; assumption.
Qed.

Lemma view_with_openHeap h pf pf' :
  View pf pf' -> View (with_openHeap h pf) (with_openHeap h pf').
Proof.
  intros (Hfr & Hh & Hl & Hl' & Hr). repeat split; try assumption; apply Hr.
Qed.

Lemma view_pushOpenNode node pf pf' :
  View pf pf' -> View (pushOpenNode pf node) (pushOpenNode pf' node).
Proof.
  intros H. unfold pushOpenNode. cbv zeta.
  pose proof H as (_ & Hh & _). rewrite <- Hh.
  now apply view_with_openHeap.
Qed.

Lemma view_popOpenNode pf pf' :
  View pf pf' ->
  fst (popOpenNode pf) = fst (popOpenNode pf') /\
  View (snd (popOpenNode pf)) (snd (popOpenNode pf')).
Proof.
  intros H. unfold popOpenNode. cbv zeta.
  pose proof H as (Hfr & Hh & Hrest). rewrite <- Hh.
  destruct (take _ _); simpl; (split; [reflexivity | now apply view_with_openHeap]).
Qed.

Lemma openHeap_setClosed pf i s : m_openHeap (setClosed pf i s) = m_openHeap pf.
Proof. unfold setClosed. now destruct (in_vec _ _). Qed.

Lemma openHeap_setGCost pf i s c : m_openHeap (setGCost pf i s c) = m_openHeap pf.
Proof. unfold setGCost. now destruct (in_vec _ _). Qed.

Lemma openHeap_setParent pf i s p : m_openHeap (setParent pf i s p) = m_openHeap pf.
Proof. unfold setParent. now destruct (in_vec _ _). Qed.

Lemma view_setClosed i pf pf' :
  View pf pf' -> View (setClosed pf i g) (setClosed pf' i g').
Proof.
  intros H. pose proof (view_lengths _ _ H) as (L1 & L1' & _).
  destruct H as (Hfr & Hh & Hl & Hl' & Hr).
  split; [now rewrite !frame_setClosed|].
  split; [now rewrite !openHeap_setClosed|].
  split; [now rewrite lengths_setClosed|].
  split; [now rewrite lengths_setClosed|].
  intros j.
  rewrite !getGCost_setClosed, !hasParent_setClosed, !getParent_setClosed.
  split; [|apply Hr].
  destruct (Z.eq_dec i j) as [->|Hne].
  - destruct (in_vec j (m_closedGeneration pf)) eqn:E.
    + assert (E' : in_vec j (m_closedGeneration pf') = true)
        by (rewrite <- E; apply in_vec_length; congruence).
      now rewrite !isClosed_setClosed_eq.
    + assert (E' : in_vec j (m_closedGeneration pf') = false)
        by (rewrite <- E; apply in_vec_length; congruence).
      unfold setClosed. rewrite E, E'. apply Hr.
  - rewrite !isClosed_setClosed_ne by assumption. apply Hr.
Qed.

Lemma view_setGCost i c pf pf' :
  View pf pf' -> View (setGCost pf i g c) (setGCost pf' i g' c).
Proof.
  intros H. pose proof (view_lengths _ _ H) as (_ & _ & L2 & L2' & L3 & L3' & _).
  destruct H as (Hfr & Hh & Hl & Hl' & Hr).
  split; [now rewrite !frame_setGCost|].
  split; [now rewrite !openHeap_setGCost|].
  split; [now rewrite lengths_setGCost|].
  split; [now rewrite lengths_setGCost|].
  intros j.
  rewrite !isClosed_setGCost, !hasParent_setGCost, !getParent_setGCost.
  split; [apply Hr|]. split; [|apply Hr].
  destruct (Z.eq_dec i j) as [->|Hne].
  - destruct (in_vec j (m_gCostGeneration pf)) eqn:E.
    + assert (E' : in_vec j (m_gCostGeneration pf') = true)
        by (rewrite <- E; apply in_vec_length; congruence).
      rewrite !getGCost_setGCost_eq by (assumption || congruence). reflexivity.
    + assert (E' : in_vec j (m_gCostGeneration pf') = false)
        by (rewrite <- E; apply in_vec_length; congruence).
      unfold setGCost. rewrite E, E'. apply Hr.
  - rewrite !getGCost_setGCost_ne by assumption. apply Hr.
Qed.

Lemma view_setParent i p pf pf' :
  View pf pf' -> View (setParent pf i g p) (setParent pf' i g' p).
Proof.
  intros H. pose proof (view_lengths _ _ H) as (_ & _ & _ & _ & _ & _ & L4 & L4' & L5 & L5').
  destruct H as (Hfr & Hh & Hl & Hl' & Hr).
  split; [now rewrite !frame_setParent|].
  split; [now rewrite !openHeap_setParent|].
  split; [now rewrite lengths_setParent|].
  split; [now rewrite lengths_setParent|].
  intros j.
  rewrite !isClosed_setParent, !getGCost_setParent.
  split; [apply Hr|]. split; [apply Hr|].
  destruct (Z.eq_dec i j) as [->|Hne].
  - destruct (in_vec j (m_parentGeneration pf)) eqn:E.
    + assert (E' : in_vec j (m_parentGeneration pf') = true)
        by (rewrite <- E; apply in_vec_length; congruence).
      rewrite !hasParent_setParent_eq by assumption.
      rewrite !getParent_setParent_eq by (assumption || congruence). now split.
    + assert (E' : in_vec j (m_parentGeneration pf') = false)
        by (rewrite <- E; apply in_vec_length; congruence).
      unfold setParent. rewrite E, E'. split; apply Hr.
  - rewrite !hasParent_setParent_ne, !getParent_setParent_ne by assumption.
    split; apply Hr.
Qed.

Lemma view_relax_neighbors cur e ns : forall pf pf',
  View pf pf' ->
  View (relax_neighbors pf g cur e ns) (relax_neighbors pf' g' cur e ns).
Proof.
  induction ns as [|nb ns IH]; intros pf pf' H; simpl; [assumption|].
  pose proof H as (Hfr & Hh & Hl & Hl' & Hr).
  rewrite (outside_scratch_isWalkable _ _ _ _ Hfr), (outside_scratch_toIndex _ _ _ Hfr).
  destruct (negb (isWalkable pf' (px nb) (py nb))); [now apply IH|].
  destruct (Hr (toIndex pf' nb)) as (-> & -> & _).
  destruct (isClosed pf' (toIndex pf' nb) g'); [now apply IH|].
  destruct (gCost cur + 1 >=? getGCost pf' (toIndex pf' nb) g'); [now apply IH|].
  apply IH, view_pushOpenNode, view_setParent, view_setGCost, H.
Qed.

Lemma view_search_loop ei e budget : forall pf pf' it,
  View pf pf' ->
  View (fst (fst (search_loop budget pf g ei e it)))
       (fst (fst (search_loop budget pf' g' ei e it))) /\
  snd (fst (search_loop budget pf g ei e it)) =
  snd (fst (search_loop budget pf' g' ei e it)) /\
  snd (search_loop budget pf g ei e it) = snd (search_loop budget pf' g' ei e it).
Proof.
  induction budget as [|b IH]; intros pf pf' it H; simpl;
    [split; [exact H | now split]|].
  pose proof H as (Hfr & Hh & Hl & Hl' & Hr). rewrite <- Hh.
  destruct (m_openHeap pf) as [|n0 h0] eqn:Hheap; [split; [exact H | now split]|].
  destruct (view_popOpenNode _ _ H) as [Hcur Hv1].
  destruct (popOpenNode pf) as [cur pf1], (popOpenNode pf') as [cur' pf1'].
  simpl in Hcur, Hv1. subst cur'.
  pose proof Hv1 as (Hfr1 & _ & _ & _ & Hr1).
  destruct (Hr1 (index cur)) as (-> & -> & _).
  destruct (gCost cur >? getGCost pf1' (index cur) g'); [now apply IH|].
  destruct (isClosed pf1' (index cur) g'); [now apply IH|].
  pose proof (view_setClosed (index cur) _ _ Hv1) as Hv2.
  destruct (index cur =? ei); [split; [exact Hv2 | now split]|].
  pose proof Hv2 as (Hfr2 & _).
  rewrite (outside_scratch_toPoint _ _ _ Hfr2),
    (outside_scratch_collectNeighbors _ _ _ Hfr2).
  now apply IH, view_relax_neighbors.
Qed.

Lemma view_buildPath_loop si pf pf' :
  View pf pf' ->
  forall fuel c acc,
    buildPath_loop fuel pf si g c acc = buildPath_loop fuel pf' si g' c acc.
Proof.
  intros (Hfr & _ & _ & _ & Hr). induction fuel as [|fuel IH]; intros c acc; simpl;
    [reflexivity|].
  destruct (c >=? 0); [|reflexivity].
  rewrite (outside_scratch_toPoint _ _ _ Hfr).
  destruct (c =? si); [reflexivity|].
  destruct (Hr c) as (_ & _ & -> & ->).
  destruct (negb (hasParent pf' c g')); [reflexivity|].
  destruct ((getParent pf' c g' =? c) || (getParent pf' c g' <? 0)); [reflexivity|].
  apply IH.
Qed.

End SameView.

Lemma seeded_view pf pf' s e :
  sized pf -> sized pf' -> stamps_ok pf = true -> stamps_ok pf' = true ->
  outside_scratch pf = outside_scratch pf' ->
  same_view (total_cells pf) (snd (nextGeneration pf)) (snd (nextGeneration pf'))
    (seeded pf s e) (seeded pf' s e).
Proof.
  intros Hsz Hsz' Hst Hst' Hfr. unfold seeded.
  destruct (nextGeneration_unstamped pf Hst) as [Hun _].
  destruct (nextGeneration_unstamped pf' Hst') as [Hun' _].
  pose proof (frame_nextGeneration pf) as Hf1.
  pose proof (frame_nextGeneration pf') as Hf1'.
  pose proof (lengths_nextGeneration pf) as Hl1.
  pose proof (lengths_nextGeneration pf') as Hl1'.
  destruct (nextGeneration pf) as [pf1 g], (nextGeneration pf') as [pf1' g'].
  simpl in *.
  rewrite (outside_scratch_toIndex _ _ _ Hfr).
  apply view_pushOpenNode, view_setParent, view_setGCost.
  assert (Htc : total_cells pf' = total_cells pf).
  { unfold total_cells.
    now rewrite (outside_scratch_width _ _ Hfr), (outside_scratch_height _ _ Hfr). }
  destruct Hsz as (_ & _ & Hsz), Hsz' as (_ & _ & Hsz').
  split; [simpl; unfold outside_scratch in *; simpl; congruence|].
  split; [reflexivity|].
  split; [change (scratch_lengths pf1 = (total_cells pf, total_cells pf, total_cells pf,
                                         total_cells pf, total_cells pf)); congruence|].
  split; [change (scratch_lengths pf1' = (total_cells pf, total_cells pf, total_cells pf,
                                          total_cells pf, total_cells pf)); congruence|].
  intros i.
  destruct (unstamped_reads pf1 g i Hun) as (R2 & R3 & R4 & R1).
  destruct (unstamped_reads pf1' g' i Hun') as (R2' & R3' & R4' & R1').
  change (isClosed pf1 i g = isClosed pf1' i g' /\
          getGCost pf1 i g = getGCost pf1' i g' /\
          hasParent pf1 i g = hasParent pf1' i g' /\
          getParent pf1 i g = getParent pf1' i g').
  rewrite R1, R2, R3, R4, R1', R2', R3', R4'. now repeat split.
Qed.

Lemma findPathInternal_same_view pf pf' s e :
  engine_ok pf = true -> engine_ok pf' = true ->
  outside_scratch pf = outside_scratch pf' ->
  snd (fst (findPathInternal pf s e)) = snd (fst (findPathInternal pf' s e)) /\
  snd (findPathInternal pf s e) = snd (findPathInternal pf' s e).
Proof.
  intros Hok Hok' Hfr.
  destruct (ensureWorkingBuffers_sized pf Hok) as [Hsz Hst].
  destruct (ensureWorkingBuffers_sized pf' Hok') as [Hsz' Hst'].
  assert (Hfr0 : outside_scratch (ensureWorkingBuffers pf) =
                 outside_scratch (ensureWorkingBuffers pf'))
    by (now rewrite !frame_ensureWorkingBuffers).
  pose proof (frame_ensureWorkingBuffers pf) as Hfa.
  pose proof (frame_ensureWorkingBuffers pf') as Hfa'.
  set (pf0 := ensureWorkingBuffers pf) in *.
  set (pf0' := ensureWorkingBuffers pf') in *.
  destruct (isWalkable pf0 (px s) (py s)) eqn:Hs.
  2:{ rewrite !findPathInternal_blocked; [now split | left | left].
      - rewrite <- (outside_scratch_isWalkable _ _ _ _ Hfa'). fold pf0'.
        now rewrite <- (outside_scratch_isWalkable _ _ _ _ Hfr0).
      - now rewrite <- (outside_scratch_isWalkable _ _ _ _ Hfa). }
  destruct (isWalkable pf0 (px e) (py e)) eqn:He.
  2:{ rewrite !findPathInternal_blocked; [now split | right | right].
      - rewrite <- (outside_scratch_isWalkable _ _ _ _ Hfa'). fold pf0'.
        now rewrite <- (outside_scratch_isWalkable _ _ _ _ Hfr0).
      - now rewrite <- (outside_scratch_isWalkable _ _ _ _ Hfa). }
  assert (Hs' : isWalkable pf0' (px s) (py s) = true)
    by now rewrite <- (outside_scratch_isWalkable _ _ _ _ Hfr0).
  assert (He' : isWalkable pf0' (px e) (py e) = true)
    by now rewrite <- (outside_scratch_isWalkable _ _ _ _ Hfr0).
  assert (Hsi : toIndex pf0 s = toIndex pf0' s) by now apply outside_scratch_toIndex.
  assert (Hei : toIndex pf0 e = toIndex pf0' e) by now apply outside_scratch_toIndex.
  destruct (Z.eq_dec (toIndex pf0 s) (toIndex pf0 e)) as [Heq|Hne].
  - unfold findPathInternal. fold pf0 pf0'. rewrite Hs, He, Hs', He'. simpl.
    rewrite <- Hsi, <- Hei, Heq, Z.eqb_refl. now split.
  - rewrite (findPathInternal_search pf s e) by (fold pf0; assumption).
    rewrite (findPathInternal_search pf' s e) by (fold pf0'; congruence).
    fold pf0 pf0'. cbv zeta. simpl.
    pose proof (seeded_view pf0 pf0' s e Hsz Hsz' Hst Hst' Hfr0) as Hv.
    assert (Hmax : max_iterations pf0 = max_iterations pf0').
    { unfold max_iterations.
      now rewrite (outside_scratch_width _ _ Hfr0), (outside_scratch_height _ _ Hfr0). }
    rewrite <- Hmax, <- Hsi, <- Hei.
    destruct (view_search_loop _ _ _ (toIndex pf0 e) e
                (Z.to_nat (max_iterations pf0)) _ _ 0 Hv) as (Hv6 & Hfc & Hits).
    split; [|exact Hits].
    rewrite <- Hfc. destruct (_ <? 0); [reflexivity|].
    unfold buildPath.
    pose proof (view_lengths _ _ _ _ _ Hv6) as (_ & _ & _ & _ & _ & _ & _ & _ & L & L').
    rewrite L, L'. now apply (view_buildPath_loop _ _ _ _ _ _ Hv6).
Qed.

Lemma outside_scratch_refreshed env pf pf' :
  outside_scratch pf = outside_scratch pf' ->
  outside_scratch (refreshed env pf) = outside_scratch (refreshed env pf').
Proof.
  intros H. unfold refreshed.
  assert (Hd : m_obstaclesDirty pf = m_obstaclesDirty pf')
    by (unfold outside_scratch in H; congruence).
  rewrite <- Hd. destruct (m_obstaclesDirty pf) eqn:E; [|exact H].
  unfold updateBuildingObstacles. rewrite <- Hd, E. simpl.
  unfold outside_scratch in *. injection H as Hw Hh Ho _ Hx Hz Hrq Hrs. simpl.
  unfold terrain_pass, building_pass, building_cell.
  rewrite Hw, Hh, Ho, Hx, Hz, Hrq, Hrs. reflexivity.
Qed.

(** X19.  The answer to a query depends only on the grid, not on what is
    left in the scratch store, the generation counter or the open heap: two
    engines in good standing that agree outside the scratch store give the
    same result for the same query, and agree outside the scratch store
    afterwards. *)
Theorem findPath_ignores_scratch env pf pf' s e :
  engine_ok pf = true -> engine_ok pf' = true ->
  outside_scratch pf = outside_scratch pf' ->
  snd (findPath env pf s e) = snd (findPath env pf' s e) /\
  outside_scratch (fst (findPath env pf s e)) =
  outside_scratch (fst (findPath env pf' s e)).
Proof.
  intros Hok Hok' Hfr. rewrite !findPath_unfold. simpl.
  pose proof (outside_scratch_refreshed env _ _ Hfr) as Hfr'.
  split.
  - apply findPathInternal_same_view; try assumption; now apply engine_ok_refreshed.
  - now rewrite !frame_findPathInternal.
Qed.

Lemma findPath_ignores_scratch_witness :
  snd (findPath (mkEnv (mkTerrain false None (fun _ _ => true)) [] (fun c _ => c))
         (fst (nextGeneration (Pathfinding_ctor 3 3))) (mkPoint 0 0) (mkPoint 2 2)) =
  snd (findPath (mkEnv (mkTerrain false None (fun _ _ => true)) [] (fun c _ => c))
         (Pathfinding_ctor 3 3) (mkPoint 0 0) (mkPoint 2 2)).
Proof.
  apply (findPath_ignores_scratch
           (mkEnv (mkTerrain false None (fun _ _ => true)) [] (fun c _ => c))
           (fst (nextGeneration (Pathfinding_ctor 3 3))) (Pathfinding_ctor 3 3)
           (mkPoint 0 0) (mkPoint 2 2)); reflexivity.
Defined.

Lemma findPath_after_query env pf s0 e0 s e :
  engine_ok pf = true ->
  snd (findPath env (fst (findPath env pf s0 e0)) s e) = snd (findPath env pf s e).
Proof.
  intros Hok.
  pose proof (engine_ok_refreshed env pf Hok) as Hokr.
  assert (Hclean : m_obstaclesDirty (refreshed env pf) = false).
  { unfold refreshed. destruct (m_obstaclesDirty pf) eqn:Hd;
      [apply dirty_updateBuildingObstacles | assumption]. }
  rewrite (findPath_unfold env pf s0 e0). simpl.
  pose proof (frame_findPathInternal (refreshed env pf) s0 e0) as Hfr.
  pose proof (findPathInternal_keeps_ok (refreshed env pf) s0 e0 Hokr) as Hok1.
  set (pf1 := fst (fst (findPathInternal (refreshed env pf) s0 e0))) in *.
  assert (Hclean1 : m_obstaclesDirty pf1 = false)
    by (unfold outside_scratch in Hfr; congruence).
  rewrite !findPath_unfold. simpl. rewrite (refreshed_clean env pf1 Hclean1).
  now apply findPathInternal_same_view.
Qed.

(** X20.  Queries do not interfere: after any sequence of earlier queries,
    under the same terrain and buildings, a query returns what it would have
    returned had none of them been made. *)
Theorem findPath_repeatable env qs : forall pf s e,
  engine_ok pf = true ->
  snd (findPath env (after_queries env pf qs) s e) = snd (findPath env pf s e).
Proof.
  unfold after_queries.
  induction qs as [|q qs IH]; intros pf s e Hok; simpl; [reflexivity|].
  rewrite IH by now apply findPath_keeps_ok.
  now apply findPath_after_query.
Qed.

Lemma findPath_repeatable_witness :
  snd (findPath (mkEnv (mkTerrain false None (fun _ _ => true)) [] (fun c _ => c))
         (after_queries (mkEnv (mkTerrain false None (fun _ _ => true)) [] (fun c _ => c))
            (Pathfinding_ctor 3 3)
            [(mkPoint 2 0, mkPoint 0 2); (mkPoint 1 1, mkPoint 2 2)])
         (mkPoint 0 0) (mkPoint 2 2)) =
  snd (findPath (mkEnv (mkTerrain false None (fun _ _ => true)) [] (fun c _ => c))
         (Pathfinding_ctor 3 3) (mkPoint 0 0) (mkPoint 2 2)).
Proof.
  apply (findPath_repeatable
           (mkEnv (mkTerrain false None (fun _ _ => true)) [] (fun c _ => c))
           [(mkPoint 2 0, mkPoint 0 2); (mkPoint 1 1, mkPoint 2 2)]
           (Pathfinding_ctor 3 3) (mkPoint 0 0) (mkPoint 2 2)).
  reflexivity.
Defined.

(** ** Queues and the worker *)

Section Queues.

Variables (rq : list PathRequest) (rs : list PathResult).

Local Abbreviation Q := (with_queues rq rs).

Lemma ensureWorkingBuffers_queues pf :
  ensureWorkingBuffers (Q pf) = Q (ensureWorkingBuffers pf).
Proof.
  unfold ensureWorkingBuffers.
  change (length (m_closedGeneration (Q pf))) with (length (m_closedGeneration pf)).
  change (total_cells (Q pf)) with (total_cells pf).
  now destruct (Nat.eqb _ _).
Qed.

Lemma nextGeneration_queues pf :
  nextGeneration (Q pf) = (Q (fst (nextGeneration pf)), snd (nextGeneration pf)).
Proof.
  unfold nextGeneration. cbv zeta.
  change (m_generationCounter (Q pf)) with (m_generationCounter pf).
  now destruct (_ =? 0).
Qed.

Lemma setClosed_queues pf i g : setClosed (Q pf) i g = Q (setClosed pf i g).
Proof.
  unfold setClosed.
  change (m_closedGeneration (Q pf)) with (m_closedGeneration pf).
  now destruct (in_vec _ _).
Qed.

Lemma setGCost_queues pf i g c : setGCost (Q pf) i g c = Q (setGCost pf i g c).
Proof.
  unfold setGCost.
  change (m_gCostGeneration (Q pf)) with (m_gCostGeneration pf).
  now destruct (in_vec _ _).
Qed.

Lemma setParent_queues pf i g p : setParent (Q pf) i g p = Q (setParent pf i g p).
Proof.
  unfold setParent.
  change (m_parentGeneration (Q pf)) with (m_parentGeneration pf).
  now destruct (in_vec _ _).
Qed.

Lemma pushOpenNode_queues pf node : pushOpenNode (Q pf) node = Q (pushOpenNode pf node).
Proof. reflexivity. Qed.

Lemma popOpenNode_queues pf :
  popOpenNode (Q pf) = (fst (popOpenNode pf), Q (snd (popOpenNode pf))).
Proof.
  unfold popOpenNode. cbv zeta.
  change (m_openHeap (Q pf)) with (m_openHeap pf).
  now destruct (take _ _).
Qed.

Lemma relax_neighbors_queues g cur e ns : forall pf,
  relax_neighbors (Q pf) g cur e ns = Q (relax_neighbors pf g cur e ns).
Proof.
  induction ns as [|nb ns IH]; intros pf; [reflexivity|].
  cbn [relax_neighbors].
  change (isWalkable (Q pf) (px nb) (py nb)) with (isWalkable pf (px nb) (py nb)).
  change (toIndex (Q pf) nb) with (toIndex pf nb).
  change (isClosed (Q pf) (toIndex pf nb) g) with (isClosed pf (toIndex pf nb) g).
  change (getGCost (Q pf) (toIndex pf nb) g) with (getGCost pf (toIndex pf nb) g).
  destruct (negb _); [apply IH|].
  destruct (isClosed _ _ _); [apply IH|].
  destruct (_ >=? _); [apply IH|].
  cbv zeta. rewrite setGCost_queues, setParent_queues, pushOpenNode_queues. apply IH.
Qed.

Lemma search_loop_queues g ei e budget : forall pf it,
  search_loop budget (Q pf) g ei e it =
  (Q (fst (fst (search_loop budget pf g ei e it))),
   snd (fst (search_loop budget pf g ei e it)),
   snd (search_loop budget pf g ei e it)).
Proof.
  induction budget as [|b IH]; intros pf it; [reflexivity|].
  cbn [search_loop].
  change (m_openHeap (Q pf)) with (m_openHeap pf).
  destruct (m_openHeap pf) as [|n0 h0]; [reflexivity|].
  rewrite popOpenNode_queues.
  destruct (popOpenNode pf) as [cur pf1]. cbn [fst snd].
  change (getGCost (Q pf1) (index cur) g) with (getGCost pf1 (index cur) g).
  change (isClosed (Q pf1) (index cur) g) with (isClosed pf1 (index cur) g).
  destruct (_ >? _); [apply IH|].
  destruct (isClosed _ _ _); [apply IH|].
  cbv zeta. rewrite setClosed_queues.
  destruct (_ =? ei); [reflexivity|].
  change (toPoint (Q (setClosed pf1 (index cur) g)) (index cur))
    with (toPoint (setClosed pf1 (index cur) g) (index cur)).
  change (collectNeighbors (Q (setClosed pf1 (index cur) g)))
    with (collectNeighbors (setClosed pf1 (index cur) g)).
  rewrite relax_neighbors_queues. apply IH.
Qed.

Lemma buildPath_loop_queues si g fuel : forall pf c acc,
  buildPath_loop fuel (Q pf) si g c acc = buildPath_loop fuel pf si g c acc.
Proof.
  induction fuel as [|fuel IH]; intros pf c acc; [reflexivity|].
  cbn [buildPath_loop].
  change (toPoint (Q pf) c) with (toPoint pf c).
  change (hasParent (Q pf) c g) with (hasParent pf c g).
  change (getParent (Q pf) c g) with (getParent pf c g).
  destruct (c >=? 0); [|reflexivity].
  destruct (c =? si); [reflexivity|].
  destruct (negb _); [reflexivity|].
  destruct (_ || _); [reflexivity|]. apply IH.
Qed.

Lemma findPathInternal_queues pf s e :
  findPathInternal (Q pf) s e =
  (Q (fst (fst (findPathInternal pf s e))),
   snd (fst (findPathInternal pf s e)), snd (findPathInternal pf s e)).
Proof.
  unfold findPathInternal. rewrite ensureWorkingBuffers_queues.
  set (pf0 := ensureWorkingBuffers pf).
  change (isWalkable (Q pf0) (px s) (py s)) with (isWalkable pf0 (px s) (py s)).
  change (isWalkable (Q pf0) (px e) (py e)) with (isWalkable pf0 (px e) (py e)).
  change (toIndex (Q pf0) s) with (toIndex pf0 s).
  change (toIndex (Q pf0) e) with (toIndex pf0 e).
  destruct (negb _ || negb _); [reflexivity|].
  destruct (_ =? _); [reflexivity|].
  rewrite nextGeneration_queues.
  destruct (nextGeneration pf0) as [pf1 g]. cbn [fst snd]. cbv zeta.
  change (with_openHeap [] (Q pf1)) with (Q (with_openHeap [] pf1)).
  rewrite setGCost_queues, setParent_queues.
  set (pf4 := pushOpenNode (setParent _ _ _ _) _).
  change (pushOpenNode (Q (setParent (setGCost (with_openHeap [] pf1) (toIndex pf0 s) g 0)
                             (toIndex pf0 s) g (toIndex pf0 s)))
            (mkNode (toIndex pf0 s) (calculateHeuristic s e) 0)) with (Q pf4).
  change (m_width (Q pf4)) with (m_width pf4).
  change (m_height (Q pf4)) with (m_height pf4).
  rewrite search_loop_queues.
  destruct (search_loop _ pf4 _ _ _ _) as [[pf6 fc] its]. cbn [fst snd].
  destruct (fc <? 0); [reflexivity|].
  unfold buildPath.
  change (length (m_parentValues (Q pf6))) with (length (m_parentValues pf6)).
  now rewrite buildPath_loop_queues.
Qed.

Lemma updateBuildingObstacles_queues env pf :
  updateBuildingObstacles env (Q pf) = Q (updateBuildingObstacles env pf).
Proof.
  unfold updateBuildingObstacles.
  change (m_obstaclesDirty (Q pf)) with (m_obstaclesDirty pf).
  now destruct (negb _).
Qed.

Lemma findPath_queues env pf s e :
  findPath env (Q pf) s e = (Q (fst (findPath env pf s e)), snd (findPath env pf s e)).
Proof.
  rewrite !findPath_unfold. cbn [fst snd]. unfold refreshed.
  change (m_obstaclesDirty (Q pf)) with (m_obstaclesDirty pf).
  destruct (m_obstaclesDirty pf).
  - rewrite updateBuildingObstacles_queues, findPathInternal_queues. reflexivity.
  - rewrite findPathInternal_queues. reflexivity.
Qed.

End Queues.

Lemma worker_step_answer env pf r rest :
  m_requestQueue pf = r :: rest ->
  worker_step env pf =
  with_queues rest (m_resultQueue pf ++ [answer env pf r])
    (fst (findPath env pf (req_start r) (req_end r))).
Proof.
  intros Hq. unfold worker_step. rewrite Hq.
  replace (with_requestQueue rest pf) with (with_queues rest (m_resultQueue pf) pf)
    by (now destruct pf).
  rewrite findPath_queues. reflexivity.
Qed.

Lemma worker_run_answers env q : forall pf,
  engine_ok pf = true -> m_requestQueue pf = q ->
  m_requestQueue (worker_run env (length q) pf) = [] /\
  m_resultQueue (worker_run env (length q) pf) =
  m_resultQueue pf ++ map (answer env pf) q.
Proof.
  induction q as [|r rest IH]; intros pf Hok Hq; simpl.
  - split; [assumption | now rewrite app_nil_r].
  - rewrite (worker_step_answer env pf r rest Hq).
    set (pf1 := fst (findPath env pf (req_start r) (req_end r))).
    assert (Hok1 : engine_ok pf1 = true) by now apply findPath_keeps_ok.
    destruct (IH (with_queues rest (m_resultQueue pf ++ [answer env pf r]) pf1))
      as [H1 H2]; [exact Hok1 | reflexivity |].
    split; [exact H1|]. rewrite H2. cbn [with_queues with_resultQueue m_resultQueue].
    rewrite <- app_assoc. f_equal. simpl. f_equal.
    apply map_ext. intros x. unfold answer. f_equal. f_equal.
    rewrite findPath_queues. cbn [snd].
    now apply findPath_after_query.
Qed.

(** X21.  The worker, taking one step per waiting request, empties the
    request queue and appends to the result queue one record per request, in
    the order of submission, each carrying the request's id and exactly the
    path a direct [findPath] call on the engine would have returned for it;
    [fetchCompletedPaths] then hands these records over in that order. *)
Theorem worker_answers_in_order env pf :
  engine_ok pf = true ->
  m_requestQueue (worker_run env (length (m_requestQueue pf)) pf) = [] /\
  m_resultQueue (worker_run env (length (m_requestQueue pf)) pf) =
  m_resultQueue pf ++ map (answer env pf) (m_requestQueue pf) /\
  fst (fetchCompletedPaths (worker_run env (length (m_requestQueue pf)) pf)) =
  m_resultQueue pf ++ map (answer env pf) (m_requestQueue pf).
Proof.
  intros Hok.
  destruct (worker_run_answers env (m_requestQueue pf) pf Hok eq_refl) as [H1 H2].
  split; [exact H1|]. split; [exact H2|].
  unfold fetchCompletedPaths. rewrite drain_spec. simpl. exact H2.
Qed.

Lemma worker_answers_in_order_witness :
  fst (fetchCompletedPaths
         (worker_run (mkEnv (mkTerrain false None (fun _ _ => true)) [] (fun c _ => c)) 2
            (submitPathRequest
               (submitPathRequest (Pathfinding_ctor 3 3) 7 (mkPoint 0 0) (mkPoint 2 2))
               8 (mkPoint 2 0) (mkPoint 2 0)))) =
  [mkResult 7 [mkPoint 0 0; mkPoint 1 1; mkPoint 2 2]; mkResult 8 [mkPoint 2 0]].
Proof.
  apply (worker_answers_in_order
           (mkEnv (mkTerrain false None (fun _ _ => true)) [] (fun c _ => c))
           (submitPathRequest
              (submitPathRequest (Pathfinding_ctor 3 3) 7 (mkPoint 0 0) (mkPoint 2 2))
              8 (mkPoint 2 0) (mkPoint 2 0))).
  reflexivity.
Defined.

(** ** The heuristic *)

Lemma in_grid_heuristic_exact pf a b :
  m_width pf * m_height pf <= INT_MAX ->
  in_grid pf (px a) (py a) = true -> in_grid pf (px b) (py b) = true ->
  heuristic_exact a b.
Proof.
  unfold in_grid, heuristic_exact. intros Hsmall Ha Hb.
  assert (Hw : 1 <= m_width pf) by lia. assert (Hh : 1 <= m_height pf) by lia.
  assert (Hsum : m_width pf + m_height pf <= m_width pf * m_height pf + 1) by nia.
  repeat split; lia.
Qed.

(** X23.  Where its [int] computation does not overflow (as for any two
    cells of a grid of at most [INT_MAX] cells), [calculateHeuristic] is the
    Manhattan distance: a value in the range of [int], zero exactly between
    equal points, symmetric, and obeying the triangle inequality.  It lies
    between the number of moves needed on an open grid (the larger of the
    two coordinate differences) and twice that number, and one move changes
    it by at most 2; a diagonal move that brings both coordinates closer to
    the goal lowers it by exactly 2 while costing 1. *)
Theorem calculateHeuristic_bounds a b c :
  heuristic_exact a b -> heuristic_exact b c -> heuristic_exact a c ->
  0 <= calculateHeuristic a b <= INT_MAX /\
  calculateHeuristic a a = 0 /\
  (calculateHeuristic a b = 0 -> a = b) /\
  calculateHeuristic a b = calculateHeuristic b a /\
  calculateHeuristic a c <= calculateHeuristic a b + calculateHeuristic b c /\
  Z.max (Z.abs (px a - px b)) (Z.abs (py a - py b)) <= calculateHeuristic a b /\
  calculateHeuristic a b <= 2 * Z.max (Z.abs (px a - px b)) (Z.abs (py a - py b)) /\
  (adjacent8 a b = true ->
   Z.abs (calculateHeuristic a c - calculateHeuristic b c) <= 2) /\
  (adjacent8 a b = true -> px b <> px a -> py b <> py a ->
   Z.abs (px b - px c) < Z.abs (px a - px c) ->
   Z.abs (py b - py c) < Z.abs (py a - py c) ->
   calculateHeuristic a c = calculateHeuristic b c + 2) /\
  (forall pf, m_width pf * m_height pf <= INT_MAX ->
              in_grid pf (px a) (py a) = true -> in_grid pf (px b) (py b) = true ->
              heuristic_exact a b).
Proof.
  intros Hab Hbc Hac.
  split; [|split; [|split; [|split; [|split; [|split; [|split; [|split; [|split]]]]]]]].
  10: { intros pf. apply in_grid_heuristic_exact. }
  all: unfold calculateHeuristic, adjacent8, heuristic_exact in *; try lia.
  intros H. destruct a, b; simpl in *. f_equal; lia.
Qed.

Lemma calculateHeuristic_bounds_witness :
  calculateHeuristic (mkPoint 3 4) (mkPoint 0 0) =
  calculateHeuristic (mkPoint 2 3) (mkPoint 0 0) + 2.
Proof.
  assert (H : forall a b, In a [mkPoint 3 4; mkPoint 2 3; mkPoint 0 0] ->
                          In b [mkPoint 3 4; mkPoint 2 3; mkPoint 0 0] ->
                          heuristic_exact a b).
  { intros a b Ha Hb. unfold heuristic_exact, INT_MAX. simpl in Ha, Hb.
    destruct Ha as [<-|[<-|[<-|[]]]], Hb as [<-|[<-|[<-|[]]]]; simpl; lia. }
  destruct (calculateHeuristic_bounds (mkPoint 3 4) (mkPoint 2 3) (mkPoint 0 0))
    as (_ & _ & _ & _ & _ & _ & _ & _ & Hdiag & _);
    [apply H; simpl; tauto | apply H; simpl; tauto | apply H; simpl; tauto |].
  apply Hdiag; [reflexivity | discriminate | discriminate | simpl; lia | simpl; lia].
Defined.

(** ** Path reconstruction on any store *)

Lemma buildPath_loop_ends pf si g fuel : forall c acc path,
  buildPath_loop fuel pf si g c acc = Some path ->
  path = [] \/
  exists l, path = rev (acc ++ map (toPoint pf) l) /\
            head l = Some c /\ last l = Some si /\
            forall i x p, l !! i = Some x -> l !! S i = Some p ->
                          hasParent pf x g = true /\ getParent pf x g = p /\
                          p <> x /\ 0 <= p /\ x <> si.
Proof.
  induction fuel as [|fuel IH]; intros c acc path H; simpl in H; [discriminate|].
  destruct (c >=? 0); [|left; congruence].
  destruct (Z.eqb_spec c si) as [->|Hne].
  { right. exists [si]. injection H as <-. repeat split; try reflexivity.
    all: destruct i; simpl in *; discriminate. }
  destruct (hasParent pf c g) eqn:Hhp; simpl in H; [|left; congruence].
  destruct ((getParent pf c g =? c) || (getParent pf c g <? 0)) eqn:Hp;
    [left; congruence|].
  apply IH in H as [->|(l & -> & Hhd & Hlast & Hlinks)]; [now left|]. right.
  exists (c :: l). split; [now rewrite <- app_assoc|].
  split; [reflexivity|].
  split.
  { destruct l as [|y l]; [discriminate|]. exact Hlast. }
  intros [|i] x p Hx Hsx; simpl in Hx, Hsx.
  - injection Hx as <-. destruct l as [|y l]; [discriminate|].
    simpl in Hhd, Hsx. injection Hhd as ->. injection Hsx as <-.
    repeat split; try assumption; try reflexivity; lia.
  - eapply Hlinks; eassumption.
Qed.

Lemma walk_continues_spec pf si g c :
  walk_continues pf si g c = true ->
  0 <= c /\ c <> si /\ hasParent pf c g = true /\
  getParent pf c g <> c /\ 0 <= getParent pf c g.
Proof.
  unfold walk_continues. rewrite !andb_true_iff, !negb_true_iff, orb_false_iff.
  intros (((H1 & H2) & H3) & H4 & H5). repeat split; try assumption; lia.
Qed.

Lemma buildPath_loop_continue pf si g c fuel acc :
  walk_continues pf si g c = true ->
  buildPath_loop (S fuel) pf si g c acc =
  buildPath_loop fuel pf si g (getParent pf c g) (acc ++ [toPoint pf c]).
Proof.
  intros (H1 & H2 & H3 & H4 & H5)%walk_continues_spec. simpl.
  replace (c >=? 0) with true by (symmetry; lia).
  replace (c =? si) with false by (symmetry; lia).
  rewrite H3. simpl.
  now replace ((getParent pf c g =? c) || (getParent pf c g <? 0)) with false
    by (symmetry; lia).
Qed.

Lemma buildPath_loop_stop pf si g c fuel acc :
  walk_continues pf si g c = false ->
  exists path, buildPath_loop (S fuel) pf si g c acc = Some path.
Proof.
  intros H. unfold walk_continues in H. simpl.
  destruct (c >=? 0); [|eauto].
  destruct (c =? si); [eauto|].
  destruct (hasParent pf c g); simpl in *; [|eauto].
  destruct ((getParent pf c g =? c) || (getParent pf c g <? 0)); [eauto|discriminate].
Qed.

Lemma walk_stops_returns pf si g c n :
  walk_stops pf si g c n ->
  forall fuel acc, (n <= fuel)%nat ->
                   exists path, buildPath_loop fuel pf si g c acc = Some path.
Proof.
  induction 1 as [c Hc | c n Hc _ IH]; intros fuel acc Hf;
    (destruct fuel as [|fuel]; [lia|]).
  - now apply buildPath_loop_stop.
  - rewrite buildPath_loop_continue by assumption. apply IH. lia.
Qed.

Lemma returns_walk_stops pf si g fuel : forall c acc path,
  buildPath_loop fuel pf si g c acc = Some path ->
  exists n, (n <= fuel)%nat /\ walk_stops pf si g c n.
Proof.
  induction fuel as [|fuel IH]; intros c acc path H; [discriminate|].
  destruct (walk_continues pf si g c) eqn:Hc.
  - rewrite buildPath_loop_continue in H by assumption.
    apply IH in H as (n & Hn & Hw). exists (S n). split; [lia|].
    now apply walk_step.
  - exists 1%nat. split; [lia|]. now apply walk_stop.
Qed.

Lemma walk_stops_functional pf si g c n :
  walk_stops pf si g c n -> forall m, walk_stops pf si g c m -> n = m.
Proof.
  induction 1 as [c Hc | c n Hc _ IH]; intros m Hm; inversion Hm; subst;
    try congruence.
  f_equal. now apply IH.
Qed.

Lemma walk_stops_cells pf si g c n :
  walk_stops pf si g c n ->
  exists l : list Z,
    length l = (n - 1)%nat /\ NoDup l /\
    forall x, In x l ->
      in_vec x (m_parentGeneration pf) = true /\
      exists m, (m <= n)%nat /\ walk_stops pf si g x m.
Proof.
  induction 1 as [c Hc | c n Hc Hw (l & Hlen & Hnd & Hall)].
  - exists []. split; [reflexivity|]. split; [constructor|]. intros x [].
  - exists (c :: l). split; [|split].
    + simpl. rewrite Hlen. inversion Hw; lia.
    + apply NoDup_cons. split; [|assumption].
      intros Hin%list_elem_of_In. destruct (Hall c Hin) as (_ & m & Hm & Hwm).
      pose proof (walk_stops_functional _ _ _ _ _ (walk_step _ _ _ _ _ Hc Hw) _ Hwm).
      lia.
    + intros x [<-|Hx].
      * split.
        -- apply walk_continues_spec in Hc as (_ & _ & Hhp & _).
           now apply hasParent_in_vec in Hhp.
        -- exists (S n). split; [lia|]. now apply walk_step.
      * destruct (Hall x Hx) as (Hin & m & Hm & Hwm).
        split; [assumption|]. exists m. split; [lia | assumption].
Qed.

Lemma walk_stops_bound pf si g c n :
  walk_stops pf si g c n -> (n <= S (length (m_parentGeneration pf)))%nat.
Proof.
  intros (l & Hlen & Hnd & Hall)%walk_stops_cells.
  assert (H : (length l <=
               length (seqZ 0 (Z.of_nat (length (m_parentGeneration pf)))))%nat).
  { apply submseteq_length, NoDup_submseteq; [assumption|].
    intros x Hx%list_elem_of_In. destruct (Hall x Hx) as [Hin%in_vec_spec _].
    apply elem_of_seqZ. lia. }
  rewrite length_seqZ, Nat2Z.id in H. lia.
Qed.

Lemma buildPath_returns_or_diverges pf si ei g n :
  length (m_parentValues pf) = length (m_parentGeneration pf) ->
  (exists path, buildPath pf si ei g n = Some path) \/
  (forall fuel acc, buildPath_loop fuel pf si g ei acc = None).
Proof.
  intros Hlen. unfold buildPath.
  destruct (buildPath_loop (S (length (m_parentValues pf))) pf si g ei []) as [p|] eqn:E;
    [left; eauto|].
  right. intros fuel acc.
  destruct (buildPath_loop fuel pf si g ei acc) as [q|] eqn:E'; [|reflexivity].
  exfalso.
  apply returns_walk_stops in E' as (k & _ & Hw).
  pose proof (walk_stops_bound _ _ _ _ _ Hw) as Hb.
  destruct (walk_stops_returns _ _ _ _ _ Hw (S (length (m_parentValues pf))) [])
    as (p & Hp); [lia | congruence].
Qed.

(** X24.  On a store whose two parent arrays have one size, in an engine of
    non-zero width, [buildPath] is all or nothing.  Either it returns, and
    then with the cleared path or with a path from the cell of [startIndex]
    to the cell of [endIndex] that follows, backwards, parent links stamped
    with the given generation, none of them a self-link or negative; or it
    never returns, whatever the number of iterations allowed, the parent
    links running in a cycle that misses the start.  It returns exactly
    when the walk along the parent links stops, which it then does within
    one more step than the store has cells.  A negative [endIndex] gives
    the cleared path, and [endIndex] equal to a non-negative [startIndex]
    the one-cell path. *)
Theorem buildPath_all_or_nothing pf startIndex endIndex generation expectedLength :
  m_width pf <> 0 ->
  length (m_parentValues pf) = length (m_parentGeneration pf) ->
  ((exists path,
      buildPath pf startIndex endIndex generation expectedLength = Some path /\
      (exists n, (n <= S (length (m_parentGeneration pf)))%nat /\
                 walk_stops pf startIndex generation endIndex n) /\
      (path = [] \/
       exists l, path = rev (map (toPoint pf) l) /\
                 head l = Some endIndex /\ last l = Some startIndex /\
                 head path = Some (toPoint pf startIndex) /\
                 last path = Some (toPoint pf endIndex) /\
                 forall i x p, l !! i = Some x -> l !! S i = Some p ->
                               hasParent pf x generation = true /\
                               getParent pf x generation = p /\
                               p <> x /\ 0 <= p /\ x <> startIndex)) \/
   ((forall fuel acc,
       buildPath_loop fuel pf startIndex generation endIndex acc = None) /\
    (forall n, ~ walk_stops pf startIndex generation endIndex n))) /\
  (endIndex < 0 ->
   buildPath pf startIndex endIndex generation expectedLength = Some []) /\
  (0 <= endIndex -> endIndex = startIndex ->
   buildPath pf startIndex endIndex generation expectedLength =
   Some [toPoint pf startIndex]).
Proof.
  intros _ Hlen. split; [|split].
  - destruct (buildPath_returns_or_diverges pf startIndex endIndex generation
                expectedLength Hlen) as [(path & H) | Hnone].
    + left. exists path. split; [exact H|]. unfold buildPath in H. split.
      * destruct (returns_walk_stops _ _ _ _ _ _ _ H) as (n & _ & Hw).
        exists n. split; [now apply (walk_stops_bound _ _ _ _ _ Hw) | exact Hw].
      * apply buildPath_loop_ends in H as [->|(l & -> & Hhd & Hlast & Hlinks)];
          [now left|].
        right. exists l. simpl.
        split; [reflexivity|]. split; [assumption|]. split; [assumption|].
        split; [|split; [|exact Hlinks]].
        -- destruct l as [|x l _] using rev_ind; [discriminate|].
           rewrite last_snoc in Hlast. injection Hlast as ->.
           now rewrite map_app, rev_app_distr.
        -- destruct l as [|x l]; [discriminate|]. simpl in Hhd. injection Hhd as ->.
           simpl. apply last_snoc.
    + right. split; [exact Hnone|]. intros n Hw.
      destruct (walk_stops_returns _ _ _ _ _ Hw n [] (le_n n)) as (p & Hp).
      rewrite Hnone in Hp. discriminate.
  - intros Hneg. unfold buildPath. simpl.
    now replace (endIndex >=? 0) with false by (symmetry; lia).
  - intros Hpos ->. unfold buildPath. simpl.
    replace (startIndex >=? 0) with true by (symmetry; lia).
    now rewrite Z.eqb_refl.
Qed.

Lemma buildPath_all_or_nothing_witness :
  buildPath (setParent (setParent (Pathfinding_ctor 2 2) 3 7 1) 1 7 0) 0 0 7 1 =
  Some [mkPoint 0 0] /\
  forall fuel acc,
    buildPath_loop fuel (setParent (setParent (Pathfinding_ctor 2 2) 3 7 1) 1 7 3)
      0 7 3 acc = None.
Proof.
  split.
  - apply (buildPath_all_or_nothing
             (setParent (setParent (Pathfinding_ctor 2 2) 3 7 1) 1 7 0) 0 0 7 1);
      [vm_compute; discriminate | reflexivity | lia | reflexivity].
  - destruct (buildPath_all_or_nothing
                (setParent (setParent (Pathfinding_ctor 2 2) 3 7 1) 1 7 3) 0 3 7 1)
      as ([(path & Hp & _) | [Hnone _]] & _);
      [vm_compute; discriminate | reflexivity | | exact Hnone].
    vm_compute in Hp. discriminate.
Defined.

(** ** An empty answer within the budget means there is no route *)

Section Exhaustive.

Variable pf0 : Pathfinding.
Variables si g ei : Z.
Hypothesis pf0_sized : sized pf0.
Hypothesis pf0_small : m_width pf0 * m_height pf0 < INT_MAX.

Local Abbreviation Inv := (search_inv pf0 si g).
Local Abbreviation Cov := (covered pf0 g ei).

Lemma inv_cost_bound pf c :
  Inv pf -> hasParent pf c g = true -> getGCost pf c g < m_width pf0 * m_height pf0.
Proof.
  intros HI Hhp.
  pose proof (inv_cost _ _ _ _ HI c Hhp) as H0.
  destruct (buildPath_loop_chain pf0 si g (Z.to_nat (getGCost pf c g)) pf c
              (S (Z.to_nat (getGCost pf c g))) [] HI Hhp) as (l & Hch & Hlen & _);
    [lia | lia |].
  assert (Hsi : in_vec si (m_parentGeneration pf) = true).
  { apply hasParent_in_vec with (g := g). apply (inv_start _ _ _ _ HI). }
  pose proof (parent_chain_length _ _ _ _ _ _ Hsi Hch) as Hle.
  destruct pf0_sized as (Hw & Hh & Hsz).
  pose proof (inv_lengths _ _ _ _ HI) as Hl. rewrite Hsz in Hl.
  unfold scratch_lengths in Hl. injection Hl as L1 L2 L3 L4 L5.
  pose proof (total_cells_Z pf0 Hw Hh). lia.
Qed.

Lemma cov_skip pf h :
  Cov None pf ->
  (forall n, In n (m_openHeap pf) ->
             gCost n = getGCost pf (index n) g -> isClosed pf (index n) g = false ->
             In n h) ->
  Cov None (with_openHeap h pf).
Proof.
  intros [C1 C2 C3 C4 C5] Hh. constructor; try assumption.
  intros c Hhp Hcl. destruct (C1 c Hhp Hcl) as (n & Hin & Hidx & Hgc).
  exists n. split; [|now split].
  apply Hh; [assumption | now rewrite Hidx | now rewrite Hidx].
Qed.

Lemma cov_close pf h i :
  Cov None pf ->
  (forall n, In n (m_openHeap pf) -> index n <> i -> In n h) ->
  hasParent pf i g = true -> in_vec i (m_closedGeneration pf) = true -> i <> ei ->
  Cov (Some i) (setClosed (with_openHeap h pf) i g).
Proof.
  intros [C1 C2 C3 C4 C5] Hh Hhp Hin Hne.
  assert (Hcl : forall j, isClosed (setClosed (with_openHeap h pf) i g) j g =
                          if j =? i then true else isClosed pf j g).
  { intros j. destruct (Z.eqb_spec j i) as [->|Hji].
    - now apply isClosed_setClosed_eq.
    - rewrite isClosed_setClosed_ne by congruence. reflexivity. }
  constructor.
  - intros c. rewrite hasParent_setClosed, getGCost_setClosed, Hcl, openHeap_setClosed.
    destruct (Z.eqb_spec c i) as [|Hci]; [discriminate|]. intros Hc Hnc.
    destruct (C1 c Hc Hnc) as (n & Hn & Hidx & Hgc).
    exists n. split; [|now split]. apply Hh; [assumption | congruence].
  - intros c. rewrite hasParent_setClosed, getGCost_setClosed. apply C2.
  - intros c. rewrite hasParent_setClosed, Hcl.
    destruct (Z.eqb_spec c i) as [->|Hci]; [now intros _ | apply C3].
  - intros c b. rewrite hasParent_setClosed, Hcl.
    destruct (Z.eqb_spec c i) as [->|Hci]; [congruence|].
    intros Hc Hce _. now apply C4.
  - rewrite Hcl. destruct (Z.eqb_spec ei i); [congruence | assumption].
Qed.

Lemma cov_done pf c :
  Cov (Some c) pf ->
  (forall b, In b (collectNeighbors pf0 (toPoint pf0 c)) ->
             isWalkable pf0 (px b) (py b) = true ->
             hasParent pf (toIndex pf0 b) g = true) ->
  Cov None pf.
Proof.
  intros [C1 C2 C3 C4 C5] Hall. constructor; try assumption.
  intros d b Hd Hde _ Hb Hw.
  destruct (Z.eq_dec d c) as [->|Hdc]; [now apply Hall|].
  apply (C4 d b); try assumption. congruence.
Qed.

Lemma cov_relax_step pf ci c t f :
  Inv pf -> Cov (Some ci) pf ->
  0 <= c < m_width pf0 * m_height pf0 ->
  isClosed pf c g = false ->
  let pf' := pushOpenNode (setParent (setGCost pf c g t) c g ci) (mkNode c f t) in
  Cov (Some ci) pf' /\
  (forall j, hasParent pf' j g = if j =? c then true else hasParent pf j g).
Proof.
  intros HI [C1 C2 C3 C4 C5] Hrange Hnc pf'.
  destruct (inv_sizes pf0 si g pf0_sized pf c HI Hrange) as (_ & Sg & Sp & Lg & Lp).
  destruct (relax_write_reads pf c g t ci Sg Sp Lg Lp) as (Rg & Rh & Rp & Rc & Rl & Rf).
  set (pf1 := setParent (setGCost pf c g t) c g ci) in *.
  assert (Hheap : m_openHeap pf1 = m_openHeap pf)
    by (subst pf1; now rewrite openHeap_setParent, openHeap_setGCost).
  pose proof (pushOpenNode_perm pf1 (mkNode c f t)) as Hperm. fold pf' in Hperm.
  assert (Hmem : forall n, In n (mkNode c f t :: m_openHeap pf) -> In n (m_openHeap pf')).
  { intros n Hn. apply list_elem_of_In. rewrite Hperm, Hheap.
    now apply list_elem_of_In. }
  split; [|exact Rh].
  constructor.
  - intros d. change (hasParent pf1 d g = true -> isClosed pf1 d g = false ->
                      exists n, In n (m_openHeap pf') /\ index n = d /\
                                gCost n = getGCost pf1 d g).
    rewrite Rh, Rc, Rg. destruct (Z.eqb_spec d c) as [->|Hdc].
    + intros _ _. exists (mkNode c f t). split; [apply Hmem; now left | now split].
    + intros Hd Hcl. destruct (C1 d Hd Hcl) as (n & Hn & Hidx & Hgc).
      exists n. split; [apply Hmem; now right | now split].
  - intros d. change (hasParent pf1 d g = false -> getGCost pf1 d g = INT_MAX).
    rewrite Rh, Rg. destruct (d =? c); [discriminate | apply C2].
  - intros d. change (isClosed pf1 d g = true -> hasParent pf1 d g = true).
    rewrite Rh, Rc. destruct (d =? c); [reflexivity | apply C3].
  - intros d b. change (isClosed pf1 d g = true -> d <> ei -> Some ci <> Some d ->
                        In b (collectNeighbors pf0 (toPoint pf0 d)) ->
                        isWalkable pf0 (px b) (py b) = true ->
                        hasParent pf1 (toIndex pf0 b) g = true).
    rewrite Rh, Rc. intros Hd Hde Hp Hb Hw.
    destruct (toIndex pf0 b =? c); [reflexivity|]. now apply (C4 d b).
  - change (isClosed pf1 ei g = false). now rewrite Rc.
Qed.

Lemma cov_relax_neighbors cur e ns : forall pf,
  Inv pf -> Cov (Some (index cur)) pf ->
  isClosed pf (index cur) g = true ->
  hasParent pf (index cur) g = true ->
  getGCost pf (index cur) g = gCost cur ->
  incl ns (collectNeighbors pf0 (toPoint pf0 (index cur))) ->
  Cov (Some (index cur)) (relax_neighbors pf g cur e ns) /\
  (forall j, hasParent pf j g = true ->
             hasParent (relax_neighbors pf g cur e ns) j g = true) /\
  (forall b, In b ns -> isWalkable pf0 (px b) (py b) = true ->
             hasParent (relax_neighbors pf g cur e ns) (toIndex pf0 b) g = true).
Proof.
  induction ns as [|nb ns IH]; intros pf HI HC Hcl Hhp Hgc Hincl; simpl.
  { split; [assumption|]. split; [auto|]. intros b []. }
  assert (Hns : incl ns (collectNeighbors pf0 (toPoint pf0 (index cur))))
    by (intros x Hx; apply Hincl; now right).
  pose proof (inv_frame _ _ _ _ HI) as Hfr.
  rewrite (outside_scratch_isWalkable _ _ _ _ Hfr), (outside_scratch_toIndex _ _ _ Hfr).
  destruct (isWalkable pf0 (px nb) (py nb)) eqn:Hw; simpl.
  2:{ destruct (IH pf HI HC Hcl Hhp Hgc Hns) as (H1 & H2 & H3).
      split; [assumption|]. split; [assumption|].
      intros b [<-|Hb] Hwb; [congruence | now apply H3]. }
  set (c := toIndex pf0 nb).
  destruct (isClosed pf c g) eqn:Hnc.
  { destruct (IH pf HI HC Hcl Hhp Hgc Hns) as (H1 & H2 & H3).
    split; [assumption|]. split; [assumption|].
    intros b [<-|Hb] Hwb; [|now apply H3].
    apply H2. now apply (cov_closed _ _ _ _ _ HC). }
  rewrite Z.geb_leb.
  destruct (Z.leb_spec (getGCost pf c g) (gCost cur + 1)) as [Hle|Hlt].
  { destruct (IH pf HI HC Hcl Hhp Hgc Hns) as (H1 & H2 & H3).
    split; [assumption|]. split; [assumption|].
    intros b [<-|Hb] Hwb; [|now apply H3].
    apply H2. fold c.
    destruct (hasParent pf c g) eqn:Hp; [reflexivity|].
    pose proof (cov_unreached _ _ _ _ _ HC c Hp) as Hmax.
    pose proof (inv_cost_bound pf (index cur) HI Hhp). lia. }
  assert (Hwpf : isWalkable pf (px nb) (py nb) = true)
    by now rewrite (outside_scratch_isWalkable _ _ _ _ Hfr).
  assert (Hc_eq : toIndex pf nb = c) by now apply outside_scratch_toIndex.
  destruct (inv_relax_step pf0 si g pf0_sized pf cur nb HI Hcl Hhp Hgc
              (Hincl nb (or_introl eq_refl)) Hwpf)
    with (f := gCost cur + 1 + calculateHeuristic nb e)
    as (HI' & Hcl' & Hhp' & Hgc'); [now rewrite Hc_eq | now rewrite Hc_eq |].
  rewrite Hc_eq in HI', Hcl', Hhp', Hgc'.
  destruct (inv_walkable_index pf0 si g pf nb HI Hwpf) as [Hrange _].
  rewrite Hc_eq in Hrange.
  destruct (cov_relax_step pf (index cur) c (gCost cur + 1)
              (gCost cur + 1 + calculateHeuristic nb e) HI HC Hrange Hnc)
    as [HC' Hmono].
  destruct (IH _ HI' HC' Hcl' Hhp' Hgc' Hns) as (H1 & H2 & H3).
  split; [assumption|]. split.
  - intros j Hj. apply H2. rewrite Hmono. now destruct (j =? c).
  - intros b [<-|Hb] Hwb; [|now apply H3].
    apply H2. rewrite Hmono. fold c. now rewrite Z.eqb_refl.
Qed.

Lemma cov_search_loop e budget : forall pf it pf' fc it',
  Inv pf -> Cov None pf ->
  search_loop budget pf g ei e it = (pf', fc, it') ->
  fc < 0 -> it' < it + Z.of_nat budget ->
  m_openHeap pf' = [] /\ Cov None pf' /\ Inv pf'.
Proof.
  induction budget as [|b IH]; intros pf it pf' fc it' HI HC H Hfc Hit; simpl in H.
  { inversion H; subst. lia. }
  destruct (m_openHeap pf) as [|n0 h0] eqn:Hh.
  { inversion H; subst. split; [assumption | split; assumption]. }
  assert (Hne : m_openHeap pf <> []) by (rewrite Hh; discriminate).
  destruct (inv_popOpenNode pf0 si g pf HI Hne) as [HI1 [Hhp Hle]].
  pose proof (popOpenNode_state pf) as Hst.
  pose proof (popOpenNode_perm pf Hne) as Hperm.
  destruct (popOpenNode pf) as [cur pf1]. simpl in HI1, Hhp, Hle, Hst, Hperm.
  assert (Hrest : forall n, In n (m_openHeap pf) -> n <> cur -> In n (m_openHeap pf1)).
  { intros n Hn Hnc. apply list_elem_of_In in Hn. rewrite <- Hperm in Hn.
    apply elem_of_cons in Hn as [->|Hn]; [contradiction | now apply list_elem_of_In]. }
  rewrite Z.gtb_ltb in H.
  assert (Hrd : getGCost pf1 (index cur) g = getGCost pf (index cur) g /\
                isClosed pf1 (index cur) g = isClosed pf (index cur) g)
    by (rewrite Hst; now split).
  destruct Hrd as [Hrd1 Hrd2]. rewrite Hrd1, Hrd2 in H.
  destruct (Z.ltb_spec (getGCost pf (index cur) g) (gCost cur)) as [Hstale|Hge].
  { apply IH in H; try assumption; try lia.
    rewrite Hst. apply cov_skip; [assumption|].
    intros n Hn Hgc _. apply Hrest; [assumption|].
    intros ->. lia. }
  destruct (isClosed pf (index cur) g) eqn:Hcl.
  { apply IH in H; try assumption; try lia.
    rewrite Hst. apply cov_skip; [assumption|].
    intros n Hn _ Hnc. apply Hrest; [assumption|].
    intros ->. congruence. }
  assert (Hgc : getGCost pf (index cur) g = gCost cur) by lia.
  assert (Hin : in_vec (index cur) (m_closedGeneration pf) = true).
  { apply hasParent_in_vec in Hhp.
    destruct pf0_sized as (Hw & Hh' & Hsz).
    pose proof (inv_lengths _ _ _ _ HI) as Hl. rewrite Hsz in Hl.
    unfold scratch_lengths in Hl. injection Hl as L1 L2 L3 L4 L5.
    rewrite (in_vec_length _ _ (m_parentGeneration pf)); [assumption | congruence]. }
  destruct (Z.eqb_spec (index cur) ei) as [Heq|Hnei].
  { inversion H; subst. pose proof (inv_cost _ _ _ _ HI _ Hhp). lia. }
  pose proof (inv_setClosed pf0 si g pf1 (index cur) HI1) as HI2.
  assert (HC2 : Cov (Some (index cur)) (setClosed pf1 (index cur) g)).
  { rewrite Hst. apply cov_close; try assumption.
    intros n Hn Hidx. apply Hrest; [assumption|].
    intros ->. contradiction. }
  assert (Hcl2 : isClosed (setClosed pf1 (index cur) g) (index cur) g = true).
  { apply isClosed_setClosed_eq. now rewrite Hst. }
  assert (Hhp2 : hasParent (setClosed pf1 (index cur) g) (index cur) g = true)
    by (rewrite hasParent_setClosed, Hst; exact Hhp).
  assert (Hgc2 : getGCost (setClosed pf1 (index cur) g) (index cur) g = gCost cur)
    by (rewrite getGCost_setClosed, Hst; exact Hgc).
  pose proof (inv_frame _ _ _ _ HI2) as Hfr2.
  rewrite (outside_scratch_collectNeighbors _ _ _ Hfr2),
    (outside_scratch_toPoint _ _ _ Hfr2) in H.
  destruct (cov_relax_neighbors cur e
              (collectNeighbors pf0 (toPoint pf0 (index cur)))
              _ HI2 HC2 Hcl2 Hhp2 Hgc2 (incl_refl _)) as (HC3 & _ & Hall).
  apply IH in H; try assumption; try lia.
  - apply inv_relax_neighbors; try assumption. apply incl_refl.
  - eapply cov_done; eassumption.
Qed.

Lemma covered_no_route pf s :
  Inv pf -> Cov None pf -> m_openHeap pf = [] -> si = toIndex pf0 s ->
  forall path p, route pf0 s path p -> isClosed pf (toIndex pf0 p) g = true.
Proof.
  intros HI HC Hempty Hsi.
  assert (Hclosed : forall c, hasParent pf c g = true -> isClosed pf c g = true).
  { intros c Hc. destruct (isClosed pf c g) eqn:E; [reflexivity|].
    destruct (cov_open _ _ _ _ _ HC c Hc E) as (n & Hn & _).
    rewrite Hempty in Hn. destruct Hn. }
  induction 1 as [Hs | path a b Hr IH Hin Hw].
  - apply Hclosed. rewrite <- Hsi. apply (inv_start _ _ _ _ HI).
  - apply Hclosed.
    assert (Hwa : isWalkable pf0 (px a) (py a) = true).
    { apply (route_walkable _ _ _ _ Hr). apply route_last in Hr.
      destruct path as [|x path] using rev_ind; [discriminate|].
      rewrite last_snoc in Hr. injection Hr as ->. apply in_or_app. right. now left. }
    apply isWalkable_in_grid in Hwa as [Hx Hy].
    apply (cov_expanded _ _ _ _ _ HC (toIndex pf0 a) b); try assumption.
    + intros Heq. rewrite Heq in IH. rewrite (cov_end _ _ _ _ _ HC) in IH. discriminate.
    + discriminate.
    + rewrite toPoint_toIndex by lia. assumption.
Qed.

End Exhaustive.

Lemma seeded_covered pf0 s e ei :
  sized pf0 -> stamps_ok pf0 = true ->
  isWalkable pf0 (px s) (py s) = true ->
  covered pf0 (snd (nextGeneration pf0)) ei None (seeded pf0 s e).
Proof.
  intros Hsz Hst Hw. unfold seeded.
  destruct (nextGeneration_unstamped pf0 Hst) as [Hun _].
  pose proof (frame_nextGeneration pf0) as Hfr.
  pose proof (lengths_nextGeneration pf0) as Hlen.
  destruct (nextGeneration pf0) as [pf1 g]. simpl in Hun, Hfr, Hlen |- *.
  set (si := toIndex pf0 s).
  set (pfh := with_openHeap [] pf1).
  assert (Hrange : 0 <= si < m_width pf0 * m_height pf0).
  { apply isWalkable_in_grid in Hw as [Hx Hy]. now apply toIndex_range. }
  destruct Hsz as (Hw0 & Hh0 & Hsz).
  pose proof (total_cells_Z pf0 Hw0 Hh0) as HnZ.
  rewrite Hsz in Hlen. unfold scratch_lengths in Hlen. injection Hlen as L1 L2 L3 L4 L5.
  destruct (relax_write_reads pfh si g 0 si) as (Rg & Rh & Rp & Rc & Rl & Rf);
    try (apply in_vec_spec; simpl; lia); try (simpl; congruence).
  set (pf2 := setParent (setGCost pfh si g 0) si g si) in *.
  assert (Hold : forall d, getGCost pfh d g = INT_MAX /\ hasParent pfh d g = false /\
                           isClosed pfh d g = false).
  { intros d. destruct (unstamped_reads pf1 g d Hun) as (R1 & R2 & _ & R4).
    now repeat split. }
  assert (Hheap : m_openHeap pf2 = []).
  { subst pf2. now rewrite openHeap_setParent, openHeap_setGCost. }
  pose proof (pushOpenNode_perm pf2 (mkNode si (calculateHeuristic s e) 0)) as Hperm.
  rewrite Hheap in Hperm.
  set (pf3 := pushOpenNode pf2 (mkNode si (calculateHeuristic s e) 0)) in *.
  constructor.
  - intros d. change (hasParent pf2 d g = true -> isClosed pf2 d g = false ->
                      exists n, In n (m_openHeap pf3) /\ index n = d /\
                                gCost n = getGCost pf2 d g).
    rewrite Rh, Rg. destruct (Z.eqb_spec d si) as [->|Hne].
    + intros _ _. exists (mkNode si (calculateHeuristic s e) 0).
      split; [|now split]. apply list_elem_of_In. rewrite Hperm. now left.
    + intros Hd. now rewrite (proj1 (proj2 (Hold d))) in Hd.
  - intros d. change (hasParent pf2 d g = false -> getGCost pf2 d g = INT_MAX).
    rewrite Rh, Rg. destruct (d =? si); [discriminate|]. intros _. apply Hold.
  - intros d. change (isClosed pf2 d g = true -> hasParent pf2 d g = true).
    rewrite Rc. now rewrite (proj2 (proj2 (Hold d))).
  - intros d b. change (isClosed pf2 d g = true -> d <> ei -> None <> Some d ->
                        In b (collectNeighbors pf0 (toPoint pf0 d)) ->
                        isWalkable pf0 (px b) (py b) = true ->
                        hasParent pf2 (toIndex pf0 b) g = true).
    rewrite Rc. now rewrite (proj2 (proj2 (Hold d))).
  - change (isClosed pf2 ei g = false). rewrite Rc. apply Hold.
Qed.

Lemma findPathInternal_no_route pf s e :
  engine_ok pf = true ->
  m_width pf * m_height pf < INT_MAX ->
  snd (fst (findPathInternal pf s e)) = Some [] ->
  snd (findPathInternal pf s e) < max_iterations pf ->
  forall path, ~ route pf s path e.
Proof.
  intros Hok Hsmall Hres Hits path Hroute.
  destruct (ensureWorkingBuffers_sized pf Hok) as [Hsz Hst].
  pose proof (frame_ensureWorkingBuffers pf) as Hfr.
  set (pf0 := ensureWorkingBuffers pf) in *.
  assert (Hr0 : route pf0 s path e) by (now apply (route_frame pf)).
  assert (Hs : isWalkable pf0 (px s) (py s) = true).
  { apply (route_walkable _ _ _ _ Hr0). apply route_head in Hr0.
    destruct path; [discriminate|]. injection Hr0 as ->. now left. }
  assert (He : isWalkable pf0 (px e) (py e) = true).
  { apply (route_walkable _ _ _ _ Hr0). apply route_last in Hr0.
    destruct path as [|x path _] using rev_ind; [discriminate|].
    rewrite last_snoc in Hr0. injection Hr0 as ->. apply in_or_app. right. now left. }
  destruct (Z.eq_dec (toIndex pf0 s) (toIndex pf0 e)) as [Heq|Hne].
  { unfold findPathInternal in Hres. fold pf0 in Hres. rewrite Hs, He in Hres.
    simpl in Hres. rewrite Heq, Z.eqb_refl in Hres. discriminate. }
  rewrite findPathInternal_search in Hres, Hits by (fold pf0; assumption).
  fold pf0 in Hres, Hits. cbv zeta in Hres, Hits.
  set (g := snd (nextGeneration pf0)) in *.
  pose proof (seeded_inv pf0 s e Hsz Hst Hs) as HI. fold g in HI.
  pose proof (seeded_covered pf0 s e (toIndex pf0 e) Hsz Hst Hs) as HC. fold g in HC.
  assert (Hsmall0 : m_width pf0 * m_height pf0 < INT_MAX).
  { now rewrite (outside_scratch_width _ _ Hfr), (outside_scratch_height _ _ Hfr). }
  assert (Hmax : max_iterations pf = max_iterations pf0).
  { unfold max_iterations.
    now rewrite (outside_scratch_width _ _ Hfr), (outside_scratch_height _ _ Hfr). }
  rewrite Hmax in Hits.
  destruct (search_loop _ _ _ _ _ _) as [[pf6 fc] its] eqn:Hloop.
  cbn [fst snd] in Hres, Hits.
  destruct (inv_search_loop pf0 (toIndex pf0 s) g Hsz _ _ _ _ _ _ _ _ HI Hloop)
    as [HI6 Hend].
  destruct (Z.ltb_spec fc 0) as [Hfc|Hfc].
  - destruct (cov_search_loop pf0 (toIndex pf0 s) g (toIndex pf0 e) Hsz Hsmall0
                e _ _ _ _ _ _ HI HC Hloop Hfc) as (Hempty & HC6 & _).
    { unfold max_iterations in *. lia. }
    pose proof (covered_no_route pf0 (toIndex pf0 s) g (toIndex pf0 e) pf6 s
                  HI6 HC6 Hempty eq_refl path e Hr0) as Hcl.
    rewrite (cov_end _ _ _ _ _ HC6) in Hcl. discriminate.
  - destruct Hend as [Hhp Hgc]; [lia|].
    assert (Hk : getGCost pf6 (toIndex pf0 e) g = Z.of_nat (Z.to_nat fc)) by lia.
    assert (Hsi : in_vec (toIndex pf0 s) (m_parentGeneration pf6) = true).
    { apply hasParent_in_vec with (g := g). apply (inv_start _ _ _ _ HI6). }
    assert (Hlenp : length (m_parentValues pf6) = length (m_parentGeneration pf6)).
    { destruct Hsz as (_ & _ & Hsz'). pose proof (inv_lengths _ _ _ _ HI6) as Hl.
      rewrite Hsz' in Hl. unfold scratch_lengths in Hl. injection Hl. congruence. }
    assert (Hfuel : (Z.to_nat fc < S (length (m_parentValues pf6)))%nat).
    { destruct (buildPath_loop_chain pf0 (toIndex pf0 s) g (Z.to_nat fc) pf6
                  (toIndex pf0 e) (S (Z.to_nat fc)) [] HI6 Hhp Hk) as (l1 & Hc1 & Hl1 & _);
        [lia|].
      pose proof (parent_chain_length _ _ _ _ _ _ Hsi Hc1). lia. }
    destruct (buildPath_loop_chain pf0 (toIndex pf0 s) g (Z.to_nat fc) pf6
                (toIndex pf0 e) _ [] HI6 Hhp Hk Hfuel) as (l & Hch & Hlen & Hbp).
    unfold buildPath in Hres. rewrite Hbp in Hres. injection Hres as Hnil.
    apply (f_equal (@length Point)) in Hnil.
    rewrite length_rev in Hnil. simpl in Hnil. rewrite length_map in Hnil. lia.
Qed.

(** X25.  The search is exhaustive within its budget: on a grid of fewer
    than [INT_MAX] cells, if [findPathInternal] returns the empty path
    having made fewer iterations than the budget allows, then no route
    leads from [start] to [end].  (An empty answer after the whole budget
    was spent says nothing: see [findPath_budget_exhausted].) *)
Theorem findPathInternal_exhaustive pf s e :
  engine_ok pf = true ->
  m_width pf * m_height pf < INT_MAX ->
  snd (fst (findPathInternal pf s e)) = Some [] ->
  snd (findPathInternal pf s e) < max_iterations pf ->
  forall path, ~ route pf s path e.
Proof.
  intros Hok Hsmall Hres Hits. now apply findPathInternal_no_route.
Qed.

Lemma findPathInternal_exhaustive_witness :
  ~ route (setObstacle (setObstacle (setObstacle (with_dirty false (Pathfinding_ctor 3 3))
                                       1 0 true) 1 1 true) 1 2 true)
      (mkPoint 0 0) [mkPoint 0 0; mkPoint 1 1; mkPoint 2 2] (mkPoint 2 2).
Proof.
  apply (findPathInternal_exhaustive
           (setObstacle (setObstacle (setObstacle (with_dirty false (Pathfinding_ctor 3 3))
                                        1 0 true) 1 1 true) 1 2 true)
           (mkPoint 0 0) (mkPoint 2 2)).
  - reflexivity.
  - reflexivity.
  - vm_compute. reflexivity.
  - vm_compute. reflexivity.
Defined.

(** ** The open list during a search *)

Lemma pushOpenNode_ordered pf node :
  heap_ordered (m_openHeap pf) = true ->
  heap_ordered (m_openHeap (pushOpenNode pf node)) = true.
Proof.
  intros Hord. unfold pushOpenNode. cbn [m_openHeap with_openHeap].
  now apply sift_up_last_ordered.
Qed.

Lemma popOpenNode_ordered pf :
  heap_ordered (m_openHeap pf) = true ->
  heap_ordered (m_openHeap (snd (popOpenNode pf))) = true.
Proof.
  intros Hord. unfold popOpenNode.
  destruct (take (length (m_openHeap pf) - 1) (m_openHeap pf)) as [|t0 h1] eqn:E;
    cbn [fst snd with_openHeap m_openHeap]; [reflexivity|].
  now apply sift_down_front_ordered.
Qed.

Lemma relax_neighbors_ordered g cur e ns : forall pf,
  heap_ordered (m_openHeap pf) = true ->
  heap_ordered (m_openHeap (relax_neighbors pf g cur e ns)) = true.
Proof.
  induction ns as [|nb ns IH]; intros pf Hord; [assumption|].
  cbn [relax_neighbors].
  destruct (negb _); [now apply IH|].
  destruct (isClosed _ _ _); [now apply IH|].
  destruct (_ >=? _); [now apply IH|].
  cbv zeta. apply IH, pushOpenNode_ordered.
  now rewrite openHeap_setParent, openHeap_setGCost.
Qed.

Lemma search_loop_ordered g ei e budget : forall pf it,
  heap_ordered (m_openHeap pf) = true ->
  heap_ordered (m_openHeap (fst (fst (search_loop budget pf g ei e it)))) = true.
Proof.
  induction budget as [|b IH]; intros pf it Hord; [assumption|].
  cbn [search_loop].
  destruct (m_openHeap pf) as [|n0 h0] eqn:Hh; [simpl; now rewrite Hh|].
  rewrite <- Hh in Hord.
  pose proof (popOpenNode_ordered pf Hord) as H1.
  destruct (popOpenNode pf) as [cur pf1]. cbn [fst snd] in H1 |- *.
  destruct (_ >? _); [now apply IH|].
  destruct (isClosed _ _ _); [now apply IH|].
  cbv zeta.
  destruct (_ =? ei); [cbn [fst]; now rewrite openHeap_setClosed|].
  apply IH, relax_neighbors_ordered. now rewrite openHeap_setClosed.
Qed.

(** X26.  The open list is a binary heap at every iteration of the main
    loop: whatever the engine held before, the state reached after any
    number of iterations of the search that [findPathInternal] starts has
    its open heap in heap order, and so does the state the query ends
    in. *)
Theorem search_heap_ordered pf s e :
  (forall k,
     heap_ordered
       (m_openHeap (fst (fst (search_loop k (seeded pf s e) (snd (nextGeneration pf))
                                (toIndex pf e) e 0)))) = true) /\
  (heap_ordered (m_openHeap pf) = true ->
   heap_ordered (m_openHeap (fst (fst (findPathInternal pf s e)))) = true).
Proof.
  assert (Hseed : forall q, heap_ordered (m_openHeap (seeded q s e)) = true).
  { intros q. unfold seeded. destruct (nextGeneration q) as [pf1 g].
    apply pushOpenNode_ordered.
    now rewrite openHeap_setParent, openHeap_setGCost. }
  split.
  - intros k. apply search_loop_ordered, Hseed.
  - intros Hord.
    assert (Hord0 : heap_ordered (m_openHeap (ensureWorkingBuffers pf)) = true).
    { unfold ensureWorkingBuffers. now destruct (Nat.eqb _ _). }
    destruct (negb (isWalkable (ensureWorkingBuffers pf) (px s) (py s)) ||
              negb (isWalkable (ensureWorkingBuffers pf) (px e) (py e))) eqn:Hb.
    { rewrite findPathInternal_blocked; [exact Hord0|].
      rewrite !(outside_scratch_isWalkable _ _ _ _ (frame_ensureWorkingBuffers pf)) in Hb.
      apply orb_true_iff in Hb as [Hb|Hb]; apply negb_true_iff in Hb; tauto. }
    apply orb_false_iff in Hb as [Hs He]. apply negb_false_iff in Hs, He.
    destruct (Z.eq_dec (toIndex (ensureWorkingBuffers pf) s)
                (toIndex (ensureWorkingBuffers pf) e)) as [Heq|Hne].
    { unfold findPathInternal. rewrite Hs, He. simpl.
      rewrite Heq, Z.eqb_refl. exact Hord0. }
    rewrite findPathInternal_search by assumption. cbn [fst].
    apply search_loop_ordered, Hseed.
Qed.

(** ** The working buffers in reachable states *)

Lemma lengths_findPathInternal pf s e :
  scratch_lengths (fst (fst (findPathInternal pf s e))) =
  scratch_lengths (ensureWorkingBuffers pf).
Proof.
  unfold findPathInternal. set (pf0 := ensureWorkingBuffers pf).
  destruct (negb _ || negb _); [reflexivity|].
  destruct (_ =? _); [reflexivity|].
  pose proof (lengths_nextGeneration pf0) as H1.
  destruct (nextGeneration pf0) as [pf1 g]. cbn [fst] in H1. cbv zeta.
  match goal with |- context [search_loop ?b ?p ?g' ?ei ?e' ?it] =>
    pose proof (search_loop_budget b p g' ei e' it) as H2;
    destruct (search_loop b p g' ei e' it) as [[pf6 fc] its] end.
  destruct (H2 _ _ _ eq_refl) as (_ & H3 & _).
  assert (H4 : scratch_lengths pf6 = scratch_lengths pf0).
  { rewrite H3. unfold pushOpenNode.
    change (scratch_lengths (setParent (setGCost (with_openHeap [] pf1)
                                          (toIndex pf0 s) g 0)
                               (toIndex pf0 s) g (toIndex pf0 s)) =
            scratch_lengths pf0).
    now rewrite lengths_setParent, lengths_setGCost. }
  now destruct (fc <? 0).
Qed.

Lemma sized_ensureWorkingBuffers pf : sized pf -> ensureWorkingBuffers pf = pf.
Proof.
  intros (_ & _ & Hl). unfold ensureWorkingBuffers, scratch_lengths in *.
  injection Hl as -> _ _ _ _. now rewrite Nat.eqb_refl.
Qed.

Lemma sized_frame pf pf' :
  outside_scratch pf' = outside_scratch pf ->
  scratch_lengths pf' = scratch_lengths pf -> sized pf -> sized pf'.
Proof.
  intros Hfr Hl (Hw & Hh & Hsz). unfold sized, total_cells in *.
  rewrite (outside_scratch_width _ _ Hfr), (outside_scratch_height _ _ Hfr), Hl.
  now repeat split.
Qed.

Lemma sized_findPath env pf s e : sized pf -> sized (fst (findPath env pf s e)).
Proof.
  intros Hsz. rewrite findPath_unfold. cbn [fst].
  assert (Hr : sized (refreshed env pf)).
  { unfold refreshed, updateBuildingObstacles.
    now destruct (m_obstaclesDirty pf). }
  apply (sized_frame (refreshed env pf)); [apply frame_findPathInternal | | exact Hr].
  now rewrite lengths_findPathInternal, (sized_ensureWorkingBuffers _ Hr).
Qed.

Lemma reachable_sized pf : reachable pf -> sized pf.
Proof.
  induction 1 as [w h Hw Hh | pf ox oz _ IH | pf x y b _ IH
                 | pf _ IH | env pf s e _ IH
                 | pf id s e _ IH | pf _ IH | env pf _ IH].
  - unfold Pathfinding_ctor.
    set (pf := mkPathfinding _ _ _ _ _ _ _ _ _ _ _ _ _ _ _).
    assert (Hok : engine_ok pf = true).
    { unfold engine_ok, stamps_ok, buffers_ok. subst pf. simpl.
      rewrite !andb_true_iff. repeat split; lia. }
    destruct (ensureWorkingBuffers_sized pf Hok) as [Hsz _]. exact Hsz.
  - exact IH.
  - unfold setObstacle. now destruct (_ && _).
  - exact IH.
  - now apply sized_findPath.
  - exact IH.
  - unfold fetchCompletedPaths. rewrite drain_spec. exact IH.
  - unfold worker_step. destruct (m_requestQueue pf) as [|r rest]; [exact IH|].
    pose proof (sized_findPath env (with_requestQueue rest pf)
                  (req_start r) (req_end r) IH) as H1.
    destruct (findPath _ _ _ _) as [pf1 result]. exact H1.
Qed.

(** X27.  The working buffers are allocated once: in every state the
    operations can produce, each of the five scratch arrays has exactly
    [m_width * m_height] entries, so the [ensureWorkingBuffers] call that
    opens every search changes nothing. *)
Theorem reachable_buffers_sized pf :
  reachable pf ->
  ensureWorkingBuffers pf = pf /\
  length (m_closedGeneration pf) = (Z.to_nat (m_width pf) * Z.to_nat (m_height pf))%nat /\
  length (m_gCostGeneration pf) = (Z.to_nat (m_width pf) * Z.to_nat (m_height pf))%nat /\
  length (m_gCostValues pf) = (Z.to_nat (m_width pf) * Z.to_nat (m_height pf))%nat /\
  length (m_parentGeneration pf) = (Z.to_nat (m_width pf) * Z.to_nat (m_height pf))%nat /\
  length (m_parentValues pf) = (Z.to_nat (m_width pf) * Z.to_nat (m_height pf))%nat.
Proof.
  intros Hr. pose proof (reachable_sized pf Hr) as Hsz.
  split; [now apply sized_ensureWorkingBuffers|].
  destruct Hsz as (_ & _ & Hl). unfold scratch_lengths, total_cells in Hl.
  injection Hl as H1 H2 H3 H4 H5. now repeat split.
Qed.

Lemma reachable_buffers_sized_witness :
  ensureWorkingBuffers
    (fst (findPath (mkEnv (mkTerrain false None (fun _ _ => true)) [] (fun c _ => c))
            (setObstacle (Pathfinding_ctor 3 2) 1 1 true) (mkPoint 0 0) (mkPoint 2 1))) =
  fst (findPath (mkEnv (mkTerrain false None (fun _ _ => true)) [] (fun c _ => c))
         (setObstacle (Pathfinding_ctor 3 2) 1 1 true) (mkPoint 0 0) (mkPoint 2 1)).
Proof.
  apply (reachable_buffers_sized
           (fst (findPath (mkEnv (mkTerrain false None (fun _ _ => true)) []
                             (fun c _ => c))
                   (setObstacle (Pathfinding_ctor 3 2) 1 1 true)
                   (mkPoint 0 0) (mkPoint 2 1)))).
  apply reach_findPath, reach_setObstacle, reach_ctor; lia.
Defined.

(** ** Reachable pairs are answered unless the budget runs out *)

Lemma legal_step_neighbor pf a b :
  legal_step pf a b = true ->
  In b (collectNeighbors pf a) /\ isWalkable pf (px b) (py b) = true.
Proof.
  unfold legal_step. rewrite !andb_true_iff. intros [[Hadj Hw] Hcf].
  split; [|assumption].
  apply collectNeighbors_complete; try assumption.
  apply isWalkable_in_grid in Hw. unfold in_grid. lia.
Qed.

Lemma legal_route_cons2 pf p q rest :
  legal_route pf (p :: q :: rest) =
  isWalkable pf (px p) (py p) && (legal_step pf p q && legal_route pf (q :: rest)).
Proof. reflexivity. Qed.

Lemma legal_route_snoc_inv pf b : forall r,
  r <> [] -> legal_route pf (r ++ [b]) = true ->
  legal_route pf r = true /\
  exists a, last r = Some a /\ legal_step pf a b = true.
Proof.
  induction r as [|p r IH]; intros Hne H; [contradiction|].
  destruct r as [|q r].
  - cbn [legal_route app] in H |- *. rewrite !andb_true_iff in H.
    destruct H as (Hp & Hs & _). split; [now rewrite Hp|]. exists p. now split.
  - change ((p :: q :: r) ++ [b]) with (p :: q :: (r ++ [b])) in H.
    rewrite legal_route_cons2 in H. rewrite !andb_true_iff in H.
    destruct H as (Hp & Hs & Hrest).
    destruct (IH ltac:(discriminate) Hrest) as (Hr & a & Hl & Hstep).
    split; [rewrite legal_route_cons2; now rewrite Hp, Hs, Hr|].
    exists a. split; [exact Hl | exact Hstep].
Qed.

Lemma legal_route_route pf s e r :
  legal_route pf r = true -> head r = Some s -> last r = Some e -> route pf s r e.
Proof.
  revert e. induction r as [|b r IH] using rev_ind; intros e Hr Hh Hl; [discriminate|].
  rewrite last_snoc in Hl. injection Hl as <-.
  destruct r as [|a0 r0].
  - simpl in Hh, Hr. injection Hh as <-. rewrite andb_true_r in Hr.
    now constructor.
  - destruct (legal_route_snoc_inv pf b (a0 :: r0) ltac:(discriminate) Hr)
      as (Hr' & a & Hla & Hstep).
    destruct (legal_step_neighbor _ _ _ Hstep) as [Hin Hw].
    eapply route_step; [apply IH; [exact Hr' | exact Hh | exact Hla] | exact Hin | exact Hw].
Qed.

Lemma bfs_levels_sound pf s goal fuel : forall frontier visited depth d,
  (forall p, In p frontier -> exists path, route pf s path p) ->
  bfs_levels fuel pf goal frontier visited depth = Some d ->
  exists path, route pf s path goal.
Proof.
  induction fuel as [|fuel IH]; intros frontier visited depth d Hfr H; simpl in H;
    [discriminate|].
  destruct (mem_point goal frontier) eqn:E.
  { apply Hfr. now apply mem_point_In. }
  destruct frontier as [|p0 frontier]; [discriminate|].
  apply IH in H; [assumption|].
  intros q Hq.
  destruct (expand_spec pf (p0 :: frontier) visited) as [_ Hnext].
  apply Hnext in Hq as [Hq _].
  apply in_flat_map in Hq as (p & Hp & Hqp).
  destruct (Hfr p Hp) as (path & Hroute).
  unfold moves in Hqp. apply filter_In in Hqp as [_ Hstep].
  destruct (legal_step_neighbor _ _ _ Hstep) as [Hin Hw].
  exists (path ++ [q]). eapply route_step; eassumption.
Qed.

Lemma bfs_distance_route pf s e d :
  bfs_distance pf s e = Some d -> exists path, route pf s path e.
Proof.
  unfold bfs_distance. destruct (isWalkable pf (px s) (py s)) eqn:Hs; [|discriminate].
  apply bfs_levels_sound. intros p [<-|[]]. exists [s]. now constructor.
Qed.

Lemma findPath_answers_reachable env pf s e path :
  engine_ok pf = true ->
  m_width pf * m_height pf < INT_MAX ->
  snd (findPath env pf s e) = Some path ->
  (exists r, route (refreshed env pf) s r e) ->
  path <> [] \/
  snd (findPathInternal (refreshed env pf) s e) = m_width pf * m_height pf.
Proof.
  intros Hok Hsmall Hres (r & Hr).
  destruct path as [|p0 path]; [right | left; discriminate].
  rewrite findPath_unfold in Hres. cbn [snd] in Hres.
  pose proof (engine_ok_refreshed env pf Hok) as Hokr.
  destruct (dims_refreshed env pf) as [Hw' Hh'].
  apply engine_ok_spec in Hok as (Hw & Hh & _).
  destruct (findPathInternal_budget (refreshed env pf) s e) as [Hb _]; try lia.
  rewrite Hw', Hh' in Hb.
  destruct (Z.eq_dec (snd (findPathInternal (refreshed env pf) s e))
              (m_width pf * m_height pf)) as [|Hne]; [assumption|].
  exfalso.
  apply (findPathInternal_no_route (refreshed env pf) s e Hokr) with (path := r);
    try assumption.
  - rewrite Hw', Hh'. exact Hsmall.
  - unfold max_iterations. rewrite Hw', Hh'. lia.
Qed.

(** C1 (as amended).  Every query returns.  What it returns is empty or a
    path whose first cell is [start], whose last cell is [end], whose cells
    are walkable, each one of the eight neighbours of the one before it and
    reached without cutting a corner; the reference search then reaches
    [end] too, in no more moves than the path has.  On a grid of fewer than
    [INT_MAX] cells the path is not empty whenever [end] can be reached from
    [start] (the reference search finds it, or some sequence of legal moves
    leads to it), unless the search has spent its whole budget of
    [width * height] iterations.  The path can be longer than the shortest
    one, and the budget can run out on a reachable pair (see
    [findPath_not_shortest] and [findPath_budget_exhausted]). *)
Theorem findPath_route env pf s e :
  engine_ok pf = true ->
  exists path,
    snd (findPath env pf s e) = Some path /\
    (path <> [] ->
     head path = Some s /\ last path = Some e /\
     legal_route (refreshed env pf) path = true /\
     (forall i a b, path !! i = Some a -> path !! S i = Some b ->
                    legal_step (refreshed env pf) a b = true) /\
     exists d, bfs_distance (refreshed env pf) s e = Some d /\
               d + 1 <= Z.of_nat (length path)) /\
    (m_width pf * m_height pf < INT_MAX ->
     (exists d, bfs_distance (refreshed env pf) s e = Some d) \/
     (exists r, head r = Some s /\ last r = Some e /\
                legal_route (refreshed env pf) r = true) ->
     path <> [] \/
     snd (findPathInternal (refreshed env pf) s e) = m_width pf * m_height pf).
Proof.
  intros Hok.
  destruct (findPath_sound env pf s e Hok) as (path & Hres & Hroute).
  exists path. split; [assumption|]. split.
  - intros Hne. specialize (Hroute Hne).
    split; [eapply route_head; eassumption|].
    split; [eapply route_last; eassumption|].
    split; [eapply route_legal; eassumption|].
    split.
    + intros i a b Ha Hb.
      destruct (route_steps _ _ _ _ Hroute i a b Ha Hb) as [Hin Hw].
      destruct (collectNeighbors_legal _ _ _ Hin) as [H1 H2].
      unfold legal_step. now rewrite H1, H2, Hw.
    + apply engine_ok_spec in Hok as (Hw & Hh & _).
      destruct (dims_refreshed env pf) as [Hw' Hh'].
      destruct (bfs_distance_lower_bound (refreshed env pf) s path e)
        as (d & Hd & _ & Hle); try lia; try assumption.
      exists d. now split.
  - intros Hsmall Hreach.
    apply (findPath_answers_reachable env pf s e path Hok Hsmall Hres).
    destruct Hreach as [(d & Hd) | (r & Hh & Hl & Hr)].
    + eapply bfs_distance_route; eassumption.
    + exists r. now apply legal_route_route.
Qed.

Lemma findPath_route_witness :
  exists path,
    snd (findPath (mkEnv (mkTerrain true (Some (5, 4))
                            (fun x z => negb ((x =? 1) && (z =? 1)))) []
                         (fun c _ => c))
                  (Pathfinding_ctor 5 4) (mkPoint 0 0) (mkPoint 4 3)) = Some path /\
    (path <> [] -> head path = Some (mkPoint 0 0) /\ last path = Some (mkPoint 4 3)) /\
    (path <> [] \/
     snd (findPathInternal
            (refreshed (mkEnv (mkTerrain true (Some (5, 4))
                                 (fun x z => negb ((x =? 1) && (z =? 1)))) []
                              (fun c _ => c))
               (Pathfinding_ctor 5 4)) (mkPoint 0 0) (mkPoint 4 3)) = 20).
Proof.
  destruct (findPath_route
              (mkEnv (mkTerrain true (Some (5, 4))
                        (fun x z => negb ((x =? 1) && (z =? 1)))) []
                     (fun c _ => c))
              (Pathfinding_ctor 5 4) (mkPoint 0 0) (mkPoint 4 3) eq_refl)
    as (path & Hres & Hprops & Hcomp).
  exists path. split; [exact Hres|]. split.
  - intros Hne. destruct (Hprops Hne) as (Hh & Hl & _). now split.
  - apply Hcomp; [reflexivity|]. left. exists 5. vm_compute. reflexivity.
Defined.

(** The claim C1 as stated fails on a 5 x 4 grid whose only blocked cell is
    [(1, 1)]: from [(0, 0)] the cell [(4, 3)] is five moves away, as the
    reference search computes and the listed route shows, yet the query
    returns a path of six moves.  The Manhattan estimate exceeds the
    remaining cost when a diagonal move costs one.  The search closes
    [(0,0)], [(1,0)], [(0,1)], [(0,2)] at [f = 7]; the diagonal step to
    [(1,3)] then has [f = 3 + 3 = 6], and the run along the row [y = 3]
    keeps [f = 6] up to the end cell, closed at cost 6 in the eighth
    iteration, while [(2,0)] on the five-move route waits with [f = 7]. *)
Lemma findPath_not_shortest :
  let env := mkEnv (mkTerrain true (Some (5, 4))
                      (fun x z => negb ((x =? 1) && (z =? 1)))) []
                   (fun c _ => c) in
  let pf := Pathfinding_ctor 5 4 in
  let s := mkPoint 0 0 in
  let e := mkPoint 4 3 in
  isWalkable (refreshed env pf) (px s) (py s) = true /\
  isWalkable (refreshed env pf) (px e) (py e) = true /\
  bfs_distance (refreshed env pf) s e = Some 5 /\
  legal_route (refreshed env pf)
    [mkPoint 0 0; mkPoint 1 0; mkPoint 2 0; mkPoint 3 1; mkPoint 4 2; mkPoint 4 3] = true /\
  snd (findPath env pf s e) =
  Some [mkPoint 0 0; mkPoint 0 1; mkPoint 0 2; mkPoint 1 3; mkPoint 2 3;
        mkPoint 3 3; mkPoint 4 3] /\
  ~ (exists path d,
       snd (findPath env pf s e) = Some path /\
       bfs_distance (refreshed env pf) s e = Some d /\
       Z.of_nat (length path) = d + 1).
Proof.
  cbv zeta.
  assert (Hres : snd (findPath
                        (mkEnv (mkTerrain true (Some (5, 4))
                                  (fun x z => negb ((x =? 1) && (z =? 1)))) []
                               (fun c _ => c))
                        (Pathfinding_ctor 5 4) (mkPoint 0 0) (mkPoint 4 3)) =
                 Some [mkPoint 0 0; mkPoint 0 1; mkPoint 0 2; mkPoint 1 3; mkPoint 2 3;
                       mkPoint 3 3; mkPoint 4 3])
    by (vm_compute; reflexivity).
  assert (Hbfs : bfs_distance
                   (refreshed
                      (mkEnv (mkTerrain true (Some (5, 4))
                                (fun x z => negb ((x =? 1) && (z =? 1)))) []
                             (fun c _ => c))
                      (Pathfinding_ctor 5 4)) (mkPoint 0 0) (mkPoint 4 3) = Some 5)
    by (vm_compute; reflexivity).
  split; [vm_compute; reflexivity|]. split; [vm_compute; reflexivity|].
  split; [exact Hbfs|]. split; [vm_compute; reflexivity|].
  split; [exact Hres|].
  intros (path & d & Hp & Hd & Hlen).
  rewrite Hres in Hp. rewrite Hbfs in Hd.
  injection Hp as <-. injection Hd as <-. simpl in Hlen. lia.
Qed.
